(** * Slider synchronisation of glassine-paper.css: [onSliderInput] and [bodyOnLoad]

    A shallow embedding of the two functions of the slider script, over a
    model of the part of the DOM they read and write, and of the ECMAScript
    number operations they use. *)

From Stdlib Require Import ZArith QArith Qpower Ascii String List Bool Lia Lra Lqa.
From Stdlib Require Import SpecFloat.
From stdpp Require Import base option list sorting strings gmap.

Local Open Scope Z_scope.

(** ** ECMAScript numbers

    A Number is an IEEE 754 binary64 value with a single NaN.  The Standard
    Library's [spec_float] with [prec = 53] and [emax = 1024] is that type,
    and its operations are the correctly rounded ones (round to nearest,
    ties to even). *)

Module JsNumber.

Definition prec : Z := 53.
Definition emax : Z := 1024.

Definition number : Type := spec_float.

Definition NaN : number := S754_nan.
Definition zero : number := S754_zero false.
Definition neg_zero : number := S754_zero true.
Definition infinity : number := S754_infinity false.

Definition sub : number -> number -> number := SFsub prec emax.
Definition mul : number -> number -> number := SFmul prec emax.
Definition div : number -> number -> number := SFdiv prec emax.
(** [x < y], [x <= y] and [x > y] of the language: false when an operand is NaN. *)
Definition ltb : number -> number -> bool := SFltb.
Definition leb : number -> number -> bool := SFleb.
Definition gtb (x y : number) : bool := SFltb y x.
Definition eqb : number -> number -> bool := SFeqb.

Definition is_nan (x : number) : bool :=
  match x with S754_nan => true | _ => false end.

Definition is_finite (x : number) : bool :=
  match x with S754_zero _ | S754_finite _ _ _ => true | _ => false end.

(** The Number nearest to an integer. *)
Definition of_Z (z : Z) : number := binary_normalize prec emax z 0 false.

(** The Number nearest to [m * 10 ^ e], for [m >= 0]. *)
Definition of_decimal (m e : Z) : number :=
  match m with
  | Zpos p =>
      if 0 <=? e then of_Z (m * 10 ^ e)
      else SFdiv prec emax (S754_finite false p 0)
                           (S754_finite false (Z.to_pos (10 ^ (- e))) 0)
  | _ => zero
  end.

(** ToBoolean on a Number: [+0], [-0] and NaN are falsy. *)
Definition truthy (x : number) : bool :=
  match x with
  | S754_zero _ | S754_nan => false
  | _ => true
  end.

(** [x || 0] on a Number [x]. *)
Definition or_zero (x : number) : number := if truthy x then x else zero.

(** *** StringToNumber *)

(** A string is a sequence of code units below 256; the white space and line
    terminators of the language in that range. *)
Definition is_white_space (c : ascii) : bool :=
  match N_of_ascii c with
  | 9%N | 10%N | 11%N | 12%N | 13%N | 32%N | 160%N => true
  | _ => false
  end.

Fixpoint trim_start (s : string) : string :=
  match s with
  | String c s' => if is_white_space c then trim_start s' else s
  | EmptyString => EmptyString
  end.

Definition string_rev (s : string) : string :=
  string_of_list_ascii (rev (list_ascii_of_string s)).

Definition trim (s : string) : string :=
  string_rev (trim_start (string_rev (trim_start s))).

Definition digit_of (radix : Z) (c : ascii) : option Z :=
  let n := Z.of_N (N_of_ascii c) in
  let d := if (48 <=? n) && (n <=? 57) then Some (n - 48)
           else if (97 <=? n) && (n <=? 102) then Some (n - 87)
           else if (65 <=? n) && (n <=? 70) then Some (n - 55)
           else None in
  match d with
  | Some v => if v <? radix then Some v else None
  | None => None
  end.

(** The longest prefix of digits: its value (from [acc]), its length and the rest. *)
Fixpoint take_digits (radix : Z) (s : string) (acc : Z) (len : Z) : Z * Z * string :=
  match s with
  | String c s' =>
      match digit_of radix c with
      | Some d => take_digits radix s' (acc * radix + d) (len + 1)
      | None => (acc, len, s)
      end
  | EmptyString => (acc, len, s)
  end.

(** [NonDecimalIntegerLiteral] without its two-character prefix. *)
Definition parse_radix (radix : Z) (s : string) : number :=
  match take_digits radix s 0 0 with
  | (v, len, EmptyString) => if 0 <? len then of_Z v else NaN
  | _ => NaN
  end.

(** [ExponentPart], optional: [None] when the text is not one. *)
Definition parse_exponent (s : string) : option Z :=
  match s with
  | EmptyString => Some 0
  | String c s' =>
      if (Ascii.eqb c "e" || Ascii.eqb c "E")%bool then
        let '(neg, s'') :=
          match s' with
          | String "+" r => (false, r)
          | String "-" r => (true, r)
          | _ => (false, s')
          end in
        match take_digits 10 s'' 0 0 with
        | (v, len, EmptyString) =>
            if 0 <? len then Some (if neg then - v else v) else None
        | _ => None
        end
      else None
  end.

(** The digits after the point, if there is one: the mantissa with them, their
    number and the rest. *)
Definition take_fraction (m1 : Z) (r1 : string) : Z * Z * string :=
  match r1 with
  | String "." r => take_digits 10 r m1 0
  | _ => (m1, 0, r1)
  end.

(** [StrUnsignedDecimalLiteral]. *)
Definition parse_unsigned_decimal (s : string) : number :=
  if String.eqb s "Infinity" then infinity
  else
    let '(m1, l1, r1) := take_digits 10 s 0 0 in
    let '(m2, l2, r2) := take_fraction m1 r1 in
    if 0 <? l1 + l2 then
      match parse_exponent r2 with
      | Some e => of_decimal m2 (e - l2)
      | None => NaN
      end
    else NaN.

(** The radix and the digits of a [NonDecimalIntegerLiteral]. *)
Definition radix_prefix (t : string) : option (Z * string) :=
  match t with
  | String "0" (String "x" r) | String "0" (String "X" r) => Some (16, r)
  | String "0" (String "o" r) | String "0" (String "O" r) => Some (8, r)
  | String "0" (String "b" r) | String "0" (String "B" r) => Some (2, r)
  | _ => None
  end.

(** The sign of a [StrDecimalLiteral], and the literal without it. *)
Definition sign_prefix (t : string) : bool * string :=
  match t with
  | String "+" r => (false, r)
  | String "-" r => (true, r)
  | _ => (false, t)
  end.

Definition StringToNumber (s : string) : number :=
  match trim s with
  | EmptyString => zero
  | t =>
      match radix_prefix t with
      | Some (radix, r) => parse_radix radix r
      | None =>
          let '(negative, r) := sign_prefix t in
          if negative then SFopp (parse_unsigned_decimal r)
          else parse_unsigned_decimal r
      end
  end.

(** *** Number::toString, radix 10 *)

Fixpoint decimal_digits_aux (fuel : nat) (n : Z) (acc : string) : string :=
  match fuel with
  | O => acc
  | S fuel' =>
      let acc' := String (ascii_of_N (Z.to_N (48 + n mod 10))) acc in
      if n <? 10 then acc' else decimal_digits_aux fuel' (n / 10) acc'
  end.

(** The decimal digits of a non-negative integer, most significant first. *)
Definition decimal_digits (n : Z) : string :=
  decimal_digits_aux (S (Z.to_nat (Z.log2 n))) n EmptyString.

Definition string_length (s : string) : Z := Z.of_nat (String.length s).

Fixpoint zeros (n : nat) : string :=
  match n with O => EmptyString | S n' => String "0" (zeros n') end.

(** A finite positive Number [m * 2 ^ e] as the fraction [num / den]. *)
Definition numerator (m : positive) (e : Z) : Z := Zpos m * 2 ^ Z.max e 0.
Definition denominator (e : Z) : Z := 2 ^ Z.max (- e) 0.

(** The integer [n] with [10 ^ (n - 1) <= num / den < 10 ^ n]. *)
Definition decimal_exponent (num den : Z) : Z :=
  string_length (decimal_digits (num * 10 ^ 400 / den)) - 400.

(** The distance from [s * 10 ^ p] to [num / den], scaled by [den * 10 ^ 400]. *)
Definition distance (num den : Z) (c : Z * Z) : Z :=
  Z.abs (fst c * 10 ^ (snd c + 400) * den - num * 10 ^ 400).

(** The candidates [(s, n - k)] with [k] digits next to [num / den]. *)
Definition candidates (num den n k : Z) : list (Z * Z) :=
  let s := if 0 <=? k - n then num * 10 ^ (k - n) / den
           else num / (den * 10 ^ (n - k)) in
  [(s, n - k); (s + 1, n - k); (10 ^ (k - 1), n + 1 - k)].

Definition closer (num den : Z) (best : option (Z * Z)) (c : Z * Z) : option (Z * Z) :=
  match best with
  | None => Some c
  | Some b =>
      let db := distance num den b in
      let dc := distance num den c in
      if dc <? db then Some c
      else if (dc =? db) && Z.even (fst c) && negb (Z.even (fst b)) then Some c
      else Some b
  end.

(** Among the [k]-digit candidates that denote [x], the one closest to it. *)
Definition shortest_at (x : number) (num den n k : Z) : option (Z * Z) :=
  fold_left (closer num den)
    (List.filter
       (fun c => (10 ^ (k - 1) <=? fst c) && (fst c <? 10 ^ k)
                 && SFeqb (of_decimal (fst c) (snd c)) x)
       (candidates num den n k))
    None.

(** The least [k], from [k] on, with a [k]-digit decimal that denotes [x]. *)
Fixpoint shortest (fuel : nat) (x : number) (num den n k : Z) : Z * Z * Z :=
  match fuel with
  | O =>
      match candidates num den n k with
      | c :: _ => (fst c, snd c + k, k)
      | [] => (0, n, k)
      end
  | S fuel' =>
      match shortest_at x num den n k with
      | Some (s, p) => (s, p + k, k)
      | None => shortest fuel' x num den n (k + 1)
      end
  end.

Definition format_decimal (s n k : Z) : string :=
  let ds := decimal_digits s in
  if (-5 <=? n) && (n <=? 21) then
    if k <=? n then ds +:+ zeros (Z.to_nat (n - k))
    else if 0 <? n then
      String.substring 0 (Z.to_nat n) ds +:+ "." +:+
      String.substring (Z.to_nat n) (Z.to_nat (k - n)) ds
    else "0." +:+ zeros (Z.to_nat (- n)) +:+ ds
  else
    let e := n - 1 in
    let exponent := (if e <? 0 then "-" else "+") +:+ decimal_digits (Z.abs e) in
    if k =? 1 then ds +:+ "e" +:+ exponent
    else String.substring 0 1 ds +:+ "." +:+
         String.substring 1 (Z.to_nat (k - 1)) ds +:+ "e" +:+ exponent.

Definition NumberToString (x : number) : string :=
  match x with
  | S754_nan => "NaN"
  | S754_zero _ => "0"
  | S754_infinity s => if s then "-Infinity" else "Infinity"
  | S754_finite sg m e =>
      let num := numerator m e in
      let den := denominator e in
      let n := decimal_exponent num den in
      let '(s, n', k) := shortest 17 (S754_finite false m e) num den n 1 in
      (if sg then "-" else "") +:+ format_decimal s n' k
  end.

End JsNumber.

(** ** Rounding

    The operations of [spec_float] round to nearest, ties to even.  The values
    of floats are read in the rationals; a number is located by a mantissa,
    an exponent and a place in the cell of that mantissa, which is how the
    operations hand it to the rounding. *)

Module Rounding.

Import JsNumber.

(** The power of two of exponent [e]. *)
Definition bpow (e : Z) : Q := Qpower (2 # 1) e.

(** The value of the mantissa [m] at the exponent [e]. *)
Definition val (m e : Z) : Q := (inject_Z m * bpow e)%Q.

(** The positive number [x] lies in the cell of [m] at the exponent [e], at
    the place [l] of it. *)
Definition inb (m e : Z) (l : location) (x : Q) : Prop :=
  match l with
  | loc_Exact => (x == val m e)%Q
  | loc_Inexact c =>
      (val m e < x)%Q /\ (x < val (m + 1) e)%Q /\
      match c with
      | Lt => (2 * x < val (2 * m + 1) e)%Q
      | Eq => (2 * x == val (2 * m + 1) e)%Q
      | Gt => (val (2 * m + 1) e < 2 * x)%Q
      end
  end.

(** The same for a mantissa with its round and sticky bits. *)
Definition inbr (mrs : shr_record) (e : Z) (x : Q) : Prop :=
  inb (shr_m mrs) e (loc_of_shr_record mrs) x.

(** The exponent of the format for a number of [e] binary digits, and the
    least exponent of the format. *)
Definition fexp (e : Z) : Z := SpecFloat.fexp prec emax e.
Definition emin : Z := SpecFloat.emin prec emax.

(** The last step of rounding: the float of the mantissa [w] at the exponent [c]. *)
Definition finalize (s : bool) (w c : Z) : spec_float :=
  let '(mrs, e3) := shr_fexp prec emax w c loc_Exact in
  match shr_m mrs with
  | Z0 => S754_zero s
  | Zpos m => if Z.leb e3 (emax - prec) then S754_finite s m e3 else S754_infinity s
  | Zneg _ => S754_nan
  end.

(** The mantissa [m] is at the exponent of its format. *)
Definition canonical (m : positive) (e : Z) : Prop :=
  fexp (Zpos (digits2_pos m) + e) = e.

(** The value of a float. *)
Definition F2Q (f : spec_float) : Q :=
  match f with
  | S754_finite s m e => if s then (- val (Zpos m) e)%Q else val (Zpos m) e
  | _ => 0%Q
  end.

(** [f] is what rounding the number [x] gives, with the sign [s]. *)
Definition Rnd (s : bool) (x : Q) (f : spec_float) : Prop :=
  exists m e l,
    0 <= m /\ inb m e l x /\ e <= fexp (Zdigits2 m + e) /\
    f = binary_round_aux prec emax s m e l.

(** The cell of [x] at the exponent [c] of its format. *)
Record cell (x : Q) (m : Z) (l : location) (c : Z) : Prop := {
  cell_exp : emin <= c;
  cell_inb : inb m c l x;
  cell_lo : 0 <= m;
  cell_hi : m < 2 ^ prec;
  cell_normal : emin < c -> 2 ^ (prec - 1) <= m
}.

(** A float of the format: a special value, or a finite one with a canonical
    mantissa below the overflow threshold. *)
Definition valid (f : spec_float) : Prop := valid_binary prec emax f = true.

(** What a comparison says of two rationals. *)
Definition cmp_spec (c : comparison) (x y : Q) : Prop :=
  match c with
  | Lt => (x < y)%Q
  | Eq => (x == y)%Q
  | Gt => (y < x)%Q
  end.

(** Zero or a finite float: neither an infinity nor NaN. *)
Definition finite (f : spec_float) : Prop :=
  match f with
  | S754_zero _ | S754_finite _ _ _ => True
  | _ => False
  end.

(** The floats 100 and 1, and the least positive float. *)
Definition hundred : spec_float := S754_finite false 7036874417766400 (-46).
Definition one : spec_float := S754_finite false 4503599627370496 (-52).
Definition least : spec_float := S754_finite false 1 (-1074).

End Rounding.

(** ** The document

    The part of the DOM that the script reads and writes: a tree of elements,
    each with its tag name, content attributes, class tokens, inline style
    declarations, current value (of a form control), text and registered
    event listeners, and with its namespace, which decides the properties
    it has.  An element is referred to by its path from the root, the list
    of child indices; the script never changes the shape of the tree, so a
    path denotes the same element throughout.  Class names are compared as
    in a document in no-quirks mode. *)

Module Dom.
Import JsNumber.

(** The values the script reads from properties and attributes. *)
Inductive JsValue :=
  | JsUndefined
  | JsNull
  | JsString (s : string).

(** [Number(v)]: ToNumber. *)
Definition Number (v : JsValue) : number :=
  match v with
  | JsUndefined => NaN
  | JsNull => zero
  | JsString s => StringToNumber s
  end.

(** The callbacks the script registers: [(event) => onSliderInput(event)]. *)
Inductive Listener := SliderInputListener.

(** The namespace of an element decides its interface.  An HTML element has
    the properties of its tag.  The elements of the SVG and MathML
    namespaces, which the parser creates inside [svg] and [math] whatever
    their names are, have none of those but have an inline style, as the
    HTML elements have.  An element of another namespace, which only a
    script creates, has neither. *)
Inductive Namespace := HTML | SVG | MathML | OtherNamespace.

#[global] Instance Namespace_eq_dec : EqDecision Namespace.
Proof. solve_decision. Defined.

(** [tagName] is the qualified name, which [getElementsByTagName] compares:
    for the elements of a parsed page, the local name in lower case. *)
Record Element := mkElement {
  namespaceURI : Namespace;
  tagName : string;
  attributes : gmap string string;
  classList : list string;
  style : gmap string string;
  currentValue : string;
  text : string;
  listeners : list (string * Listener)
}.

#[warnings="-register-all"]
Inductive Node := mkNode (e : Element) (kids : list Node).

Definition element (n : Node) : Element := let 'mkNode e _ := n in e.
Definition childNodes (n : Node) : list Node := let 'mkNode _ kids := n in kids.

Abbreviation Path := (list nat).

Fixpoint node_at (n : Node) (p : Path) : option Node :=
  match p with
  | [] => Some n
  | i :: p' =>
      match childNodes n !! i with
      | Some c => node_at c p'
      | None => None
      end
  end.

Definition element_at (n : Node) (p : Path) : option Element :=
  element <$> node_at n p.

(** In-place update of the element at a path; nothing happens off the tree. *)
Fixpoint alter_element (f : Element -> Element) (p : Path) (n : Node) : Node :=
  match p with
  | [] => mkNode (f (element n)) (childNodes n)
  | i :: p' => mkNode (element n) (alter (alter_element f p') i (childNodes n))
  end.

Section Forest.
Context {A B : Type} (f : nat -> A -> list B).

Fixpoint flat_mapi (i : nat) (l : list A) : list B :=
  match l with
  | [] => []
  | x :: l' => f i x ++ flat_mapi (S i) l'
  end.

End Forest.

(** The proper descendants of a node in tree order, as relative paths. *)
Fixpoint paths (n : Node) : list Path :=
  match n with
  | mkNode _ kids => flat_mapi (fun i k => [i] :: map (cons i) (paths k)) 0 kids
  end.

(** The descendants of the element at [p], in tree order. *)
Definition descendant_paths (doc : Node) (p : Path) : list Path :=
  match node_at doc p with
  | Some n => app p <$> paths n
  | None => []
  end.

(** The elements of the document in tree order, the root element first. *)
Definition document_paths (doc : Node) : list Path :=
  [] :: descendant_paths doc [].

(** Tree order on paths: an element is before its descendants, and the
    subtree of a child is before the subtrees of the children after it. *)
Fixpoint precedes (p q : Path) : Prop :=
  match p, q with
  | [], [] => False
  | [], _ :: _ => True
  | _ :: _, [] => False
  | i :: p', j :: q' => (i < j)%nat \/ (i = j /\ precedes p' q')
  end.

Definition has_class (c : string) (e : Element) : Prop := c ∈ classList e.
Definition has_tag (t : string) (e : Element) : Prop := tagName e = t.

(** An element with the interface of the HTML elements of tag [t]:
    [HTMLInputElement] for [input], [HTMLDataListElement] for [datalist],
    [HTMLOptionElement] for [option]. *)
Definition is_html (t : string) (e : Element) : Prop :=
  namespaceURI e = HTML /\ tagName e = t.

(** An element with a [style] property: an HTML, SVG or MathML element. *)
Definition has_style (e : Element) : Prop := namespaceURI e <> OtherNamespace.

#[global] Typeclasses Opaque has_class has_tag is_html has_style.

#[global] Instance has_class_dec c e : Decision (has_class c e).
Proof. unfold has_class. apply _. Defined.

#[global] Instance has_tag_dec t e : Decision (has_tag t e).
Proof. unfold has_tag. apply _. Defined.

#[global] Instance is_html_dec t e : Decision (is_html t e).
Proof. unfold is_html. apply _. Defined.

#[global] Instance has_style_dec e : Decision (has_style e).
Proof. unfold has_style. apply _. Defined.

(** The element at [q] is there and satisfies [P]. *)
Definition satisfies (P : Element -> Prop) (doc : Node) (q : Path) : Prop :=
  match element_at doc q with
  | Some e => P e
  | None => False
  end.

#[global] Instance satisfies_dec P `{!forall e, Decision (P e)} doc q :
  Decision (satisfies P doc q).
Proof. unfold satisfies. destruct (element_at doc q); apply _. Defined.

Definition getElementsByTagName (doc : Node) (p : Path) (t : string) : list Path :=
  filter (satisfies (has_tag t) doc) (descendant_paths doc p).

Definition getElementsByClassName (doc : Node) (p : Path) (c : string) : list Path :=
  filter (satisfies (has_class c) doc) (descendant_paths doc p).

(** [document.getElementsByClassName(c)]: over all elements of the document. *)
Definition document_getElementsByClassName (doc : Node) (c : string) : list Path :=
  filter (satisfies (has_class c) doc) (document_paths doc).

(** [collection.item(0)] and [collection[0]]: [None] stands for [null] and
    [undefined]. *)
Definition item0 (l : list Path) : option Path := head l.

(** The element and its ancestors, from the element up to the root. *)
Fixpoint inclusive_ancestors_aux (k : nat) (p : Path) : list Path :=
  match k with
  | O => [take 0 p]
  | S k' => take k p :: inclusive_ancestors_aux k' p
  end.

Definition inclusive_ancestors (p : Path) : list Path :=
  inclusive_ancestors_aux (length p) p.

(** [element.closest('.' + c)]. *)
Definition closest (doc : Node) (p : Path) (c : string) : option Path :=
  head (filter (satisfies (has_class c) doc) (inclusive_ancestors p)).

(** [element.getAttribute(name)]. *)
Definition getAttribute (e : Element) (name : string) : JsValue :=
  match attributes e !! name with
  | Some v => JsString v
  | None => JsNull
  end.

(** The [value] property: the current value of an HTML [input], the [value]
    attribute of an HTML [option] or else its text; other interfaces of the
    documents of the framework have none, and an element named [input] or
    [option] in another namespace has none either. *)
Definition prop_value (e : Element) : JsValue :=
  if decide (is_html "input" e) then JsString (currentValue e)
  else if decide (is_html "option" e) then
    JsString (default (text e) (attributes e !! "value"))
  else JsUndefined.

(** The [min] and [max] properties of an HTML [input] reflect its
    attributes. *)
Definition reflected (name : string) (e : Element) : JsValue :=
  if decide (is_html "input" e) then JsString (default "" (attributes e !! name))
  else JsUndefined.

Definition prop_min (e : Element) : JsValue := reflected "min" e.
Definition prop_max (e : Element) : JsValue := reflected "max" e.

(** The ID of an element: its non-empty [id] attribute. *)
Definition has_id (id : string) (e : Element) : Prop :=
  id ≠ "" ∧ attributes e !! "id" = Some id.

#[global] Typeclasses Opaque has_id.

#[global] Instance has_id_dec id e : Decision (has_id id e).
Proof. unfold has_id. apply _. Defined.

(** The [list] property of an HTML [input]: the first element of the tree,
    in tree order, whose ID is the value of the [list] attribute, when that
    element is an HTML [datalist]. *)
Definition prop_list (doc : Node) (e : Element) : option Path :=
  if decide (is_html "input" e) then
    match attributes e !! "list" with
    | Some id =>
        match filter (satisfies (has_id id) doc) (document_paths doc) with
        | q :: _ => if decide (satisfies (is_html "datalist") doc q) then Some q else None
        | [] => None
        end
    | None => None
    end
  else None.

(** The [options] of an HTML [datalist]: its HTML [option] descendants. *)
Definition options (doc : Node) (p : Path) : list Path :=
  filter (satisfies (is_html "option") doc) (descendant_paths doc p).

(** The [options] property of the element at [p]: only an HTML [datalist]
    has one; on another element, as on an element named [datalist] inside
    [svg], the read gives [undefined], for which [None] stands. *)
Definition prop_options (doc : Node) (p : Path) : option (list Path) :=
  if decide (satisfies (is_html "datalist") doc p) then Some (options doc p) else None.

(** [classList.add] and [classList.remove]. *)
Definition classList_add (c : string) (e : Element) : Element :=
  mkElement (namespaceURI e) (tagName e) (attributes e)
    (if decide (c ∈ classList e) then classList e else classList e ++ [c])
    (style e) (currentValue e) (text e) (listeners e).

Definition classList_remove (c : string) (e : Element) : Element :=
  mkElement (namespaceURI e) (tagName e) (attributes e)
    (filter (fun x => x ≠ c) (classList e))
    (style e) (currentValue e) (text e) (listeners e).

(** [style.setProperty(name, v)] for a custom property and a non-empty [v]. *)
Definition style_setProperty (name v : string) (e : Element) : Element :=
  mkElement (namespaceURI e) (tagName e) (attributes e) (classList e)
    (<[name := v]> (style e)) (currentValue e) (text e) (listeners e).

(** [addEventListener(type, callback)] with a new function object. *)
Definition addEventListener (type : string) (cb : Listener) (e : Element) : Element :=
  mkElement (namespaceURI e) (tagName e) (attributes e) (classList e) (style e)
    (currentValue e) (text e) (listeners e ++ [(type, cb)]).

(** *** What the script leaves alone

    The script writes style declarations, the class token [lower] and event
    listeners, and nothing else.  Two elements are the same up to those, and
    two documents are similar when they have the same shape and elements that
    are the same up to those. *)

Record same_static (e e' : Element) : Prop := mk_same_static {
  same_namespaceURI : namespaceURI e = namespaceURI e';
  same_tagName : tagName e = tagName e';
  same_attributes : attributes e = attributes e';
  same_currentValue : currentValue e = currentValue e';
  same_text : text e = text e';
  same_classes : forall c, c ≠ "lower" -> c ∈ classList e <-> c ∈ classList e'
}.

(** A property of elements that the script cannot change. *)
Definition static (P : Element -> Prop) : Prop :=
  forall e e', same_static e e' -> P e <-> P e'.

Record similar (d d' : Node) : Prop := mk_similar {
  similar_paths : forall p, descendant_paths d p = descendant_paths d' p;
  similar_elements : forall q, option_Forall2 same_static (element_at d q) (element_at d' q)
}.

End Dom.

(** ** The slider script *)

Module Slider.
Import JsNumber Dom.

Inductive JsError := TypeError.

(** How a call ends: it returns, or it throws. *)
Inductive Completion (A : Type) :=
  | Normal (a : A)
  | Throw (e : JsError).
Arguments Normal {A} a.
Arguments Throw {A} e.

(** [max > min ? ((value - min) / (max - min)) * 100 : 0] *)
Definition progress (value min max : number) : number :=
  if gtb max min then mul (div (sub value min) (sub max min)) (of_Z 100)
  else zero.

(** The template literal [`${...}%`]. *)
Definition ratio (value min max : number) : string :=
  NumberToString (progress value min max) +:+ "%".

(** The body of the loop over [sliderList.options]; [Number(value)] is
    [value], which is a number already. *)
Definition mark_option (value : number) (option : Element) : Element :=
  if ltb (Number (prop_value option)) value
  then classList_add "lower" option
  else classList_remove "lower" option.

(** The body of the loop over the [.option] elements of a [.datalist]. *)
Definition mark_custom_option (value : number) (option : Element) : Element :=
  if ltb (Number (getAttribute option "value")) value
  then classList_add "lower" option
  else classList_remove "lower" option.

(** [for (const option of collection) body]: the script changes class tokens
    other than those the collections select on, so a collection has the same
    members throughout its loop. *)
Definition for_of (collection : list Path) (body : Element -> Element) (doc : Node) : Node :=
  fold_left (fun d option => alter_element body option d) collection doc.

(** [onSliderInput(e)], with [target] the path of [e.target]; a path off the
    tree stands for a target that is no element, on which the first property
    read throws.  The call throws as well where it uses a property that the
    element does not have: the [style] of the container, and the [options]
    of the element named [datalist] that it has found in the container.
    What it has written before it throws stays written. *)
Definition onSliderInput (doc : Node) (target : Path) : Node * Completion unit :=
  match element_at doc target with
  | None => (doc, Throw TypeError)
  | Some t =>
      let value := or_zero (Number (prop_value t)) in
      let min := or_zero (Number (prop_min t)) in
      let max := or_zero (Number (prop_max t)) in
      let ratio := ratio value min max in
      let baseElement := closest doc target "slider" in
      let written :=
        match baseElement with
        | Some b =>
            if decide (satisfies has_style doc b)
            then Normal (alter_element (style_setProperty "--slider-progress" ratio) b doc)
            else Throw TypeError
        | None => Normal doc
        end in
      match written with
      | Throw e => (doc, Throw e)
      | Normal doc1 =>
          let sliderList :=
            match prop_list doc1 t with
            | Some l => Some l
            | None =>
                match baseElement with
                | Some b => item0 (getElementsByTagName doc1 b "datalist")
                | None => None
                end
            end in
          match sliderList with
          | Some l =>
              match prop_options doc1 l with
              | Some options => (for_of options (mark_option value) doc1, Normal tt)
              | None => (doc1, Throw TypeError)
              end
          | None =>
              (match baseElement with
               | Some b =>
                   match item0 (getElementsByClassName doc1 b "datalist") with
                   | Some sliderDataList =>
                       for_of (getElementsByClassName doc1 sliderDataList "option")
                         (mark_custom_option value) doc1
                   | None => doc1
                   end
               | None => doc1
               end, Normal tt)
          end
      end
  end.

(** The loop of [bodyOnLoad] over the sliders still to visit: the document it
    leaves, and how it ends. *)
Fixpoint initialize (sliders : list Path) (doc : Node) : Node * Completion unit :=
  match sliders with
  | [] => (doc, Normal tt)
  | slider :: rest =>
      match item0 (getElementsByTagName doc slider "input") with
      | None => (doc, Throw TypeError)
      | Some input =>
          let doc1 := alter_element (addEventListener "input" SliderInputListener) input doc in
          match onSliderInput doc1 input with
          | (doc2, Normal _) => initialize rest doc2
          | (doc2, Throw e) => (doc2, Throw e)
          end
      end
  end.

(** [bodyOnLoad()]. *)
Definition bodyOnLoad (doc : Node) : Node * Completion unit :=
  initialize (document_getElementsByClassName doc "slider") doc.

(** A listener of an [input] event runs on the document that the listeners
    before it have left.  A listener that throws does not end the dispatch:
    its exception is reported, and the listeners after it run. *)
Definition run_listener (target : Path) (r : Node * list JsError) (l : string * Listener)
  : Node * list JsError :=
  if decide (l.1 = "input") then
    match l.2 with
    | SliderInputListener =>
        match onSliderInput r.1 target with
        | (doc', Normal _) => (doc', r.2)
        | (doc', Throw e) => (doc', r.2 ++ [e])
        end
    end
  else r.

(** [input] events bubble: the listeners of the target run, then those of
    its ancestors, each with the same [event.target].  The dispatch leaves a
    document and the exceptions that were reported. *)
Definition dispatch_input (doc : Node) (target : Path) : Node * list JsError :=
  fold_left
    (fun r q =>
       match element_at doc q with
       | Some e => fold_left (run_listener target) (listeners e) r
       | None => r
       end)
    (inclusive_ancestors target) (doc, []).

(** What an observer reads back. *)
Definition slider_progress (doc : Node) (p : Path) : option string :=
  match element_at doc p with
  | Some e => style e !! "--slider-progress"
  | None => None
  end.

Definition is_lower (doc : Node) (p : Path) : bool :=
  match element_at doc p with
  | Some e => bool_decide ("lower" ∈ classList e)
  | None => false
  end.

(** *** The specification's reading of [onSliderInput]

    The specification describes [synchronize] through one marker collection
    resolved per call, out of a closed set of kinds.  These definitions follow
    its words; the theorems compare them with the script. *)

Inductive MarkerCollection :=
  | NativeList (datalist : Path)
  | CustomCollection (datalist : Path).

(** The resolution order of the specification, the first match winning: the
    list associated with the control, else the first marker list in the
    enclosing slider container, else the first custom collection in it. *)
Definition resolve_markers (doc : Node) (target : Path) : option MarkerCollection :=
  match element_at doc target with
  | None => None
  | Some t =>
      match prop_list doc t with
      | Some l => Some (NativeList l)
      | None =>
          match closest doc target "slider" with
          | None => None
          | Some b =>
              match item0 (getElementsByTagName doc b "datalist") with
              | Some l => Some (NativeList l)
              | None =>
                  match item0 (getElementsByClassName doc b "datalist") with
                  | Some c => Some (CustomCollection c)
                  | None => None
                  end
              end
          end
      end
  end.

(** The markers of a collection, in order. *)
Definition markers (doc : Node) (c : MarkerCollection) : list Path :=
  match c with
  | NativeList l => options doc l
  | CustomCollection l => getElementsByClassName doc l "option"
  end.

(** The position of a marker, before it is parsed. *)
Definition position (c : MarkerCollection) (marker : Element) : JsValue :=
  match c with
  | NativeList _ => prop_value marker
  | CustomCollection _ => getAttribute marker "value"
  end.

(** The fields of the control, coerced. *)
Definition current (t : Element) : number := or_zero (Number (prop_value t)).
Definition minimum (t : Element) : number := or_zero (Number (prop_min t)).
Definition maximum (t : Element) : number := or_zero (Number (prop_max t)).

(** A marker is below when its position is strictly less than the current value. *)
Definition is_below (c : MarkerCollection) (value : number) (marker : Element) : bool :=
  ltb (Number (position c marker)) value.

Definition set_below (b : bool) (marker : Element) : Element :=
  if b then classList_add "lower" marker else classList_remove "lower" marker.

(** The marker after the loop body. *)
Definition mark (c : MarkerCollection) (value : number) (marker : Element) : Element :=
  set_below (is_below c value marker) marker.

Definition write_progress (doc : Node) (target : Path) (t : Element) : Node :=
  match closest doc target "slider" with
  | Some b =>
      alter_element
        (style_setProperty "--slider-progress" (ratio (current t) (minimum t) (maximum t)))
        b doc
  | None => doc
  end.

(** What a call with the control [t] at [target] does to the element [e] at [q]. *)
Definition synchronized (doc : Node) (target : Path) (t : Element) (q : Path)
    (e : Element) : Element :=
  let e1 :=
    if decide (closest doc target "slider" = Some q)
    then style_setProperty "--slider-progress"
           (ratio (current t) (minimum t) (maximum t)) e
    else e in
  match resolve_markers doc target with
  | Some c => if decide (q ∈ markers doc c) then mark c (current t) e1 else e1
  | None => e1
  end.

(** *** The calls that return

    The specification has no place for a call that throws.  The script has
    three: the target is no element; the enclosing container has no inline
    style to write to; the marker list taken from the container is an element
    named [datalist] that is no HTML [datalist], so has no [options]. *)

(** The enclosing container, if there is one, has a [style]. *)
Definition writable (doc : Node) (target : Path) : Prop :=
  match closest doc target "slider" with
  | Some b => satisfies has_style doc b
  | None => True
  end.

(** The native marker list, if one is resolved, has [options]. *)
Definition iterable (doc : Node) (target : Path) : Prop :=
  match resolve_markers doc target with
  | Some (NativeList l) => satisfies (is_html "datalist") doc l
  | _ => True
  end.

Definition supported (doc : Node) (target : Path) : Prop :=
  is_Some (element_at doc target) /\ writable doc target /\ iterable doc target.

#[global] Instance writable_dec doc target : Decision (writable doc target).
Proof. unfold writable. destruct (closest doc target "slider"); apply _. Defined.

#[global] Instance iterable_dec doc target : Decision (iterable doc target).
Proof.
  unfold iterable. destruct (resolve_markers doc target) as [[l|l]|]; apply _.
Defined.

#[global] Instance supported_dec doc target : Decision (supported doc target).
Proof. unfold supported. apply _. Defined.

(** [synchronize(instance)]: [None] when the instance has no control. *)
Definition synchronize (doc : Node) (target : Path) : option Node :=
  match element_at doc target with
  | None => None
  | Some t =>
      let doc1 := write_progress doc target t in
      Some
        match resolve_markers doc target with
        | Some c =>
            for_of (markers doc c) (mark c (current t)) doc1
        | None => doc1
        end
  end.

(** *** Documents for the examples *)

(** An HTML element. *)
Definition elem (tag : string) (classes : list string) (attrs : list (string * string))
    (v : string) (kids : list Node) : Node :=
  mkNode (mkElement HTML tag (list_to_map attrs) classes ∅ v "" []) kids.

(** An element of another namespace. *)
Definition foreign (ns : Namespace) (tag : string) (classes : list string)
    (attrs : list (string * string)) (kids : list Node) : Node :=
  mkNode (mkElement ns tag (list_to_map attrs) classes ∅ "" "" []) kids.

Definition div_ (classes : list string) (kids : list Node) : Node :=
  elem "div" classes [] "" kids.

(** [<input type="range" min=.. max=.. value=..>].  The DOM keeps the
    current value of a range control within its range; the examples have it
    there. *)
Definition range (mn mx v : string) : Node :=
  elem "input" [] [("type", "range"); ("min", mn); ("max", mx); ("value", v)] v [].

(** [<input type="number" min=.. max=.. value=..>], whose current value the
    DOM leaves where it is, within the range or not. *)
Definition number_input (mn mx v : string) : Node :=
  elem "input" [] [("type", "number"); ("min", mn); ("max", mx); ("value", v)] v [].

Definition option_ (v : string) : Node := elem "option" [] [("value", v)] "" [].

Definition datalist (positions : list string) : Node :=
  elem "datalist" [] [] "" (option_ <$> positions).

Definition custom_option (v : string) : Node := elem "div" ["option"] [("value", v)] "" [].

Definition custom_datalist (positions : list string) : Node :=
  elem "div" ["datalist"] [] "" (custom_option <$> positions).

Definition stops : list string := ["0"; "25"; "50"; "75"; "100"].

(** The first example of the script's documentation, at the value 25. *)
Definition native_slider : Node :=
  div_ ["slider"] [range "0" "100" "25"; datalist stops].

(** Its second example, with a degenerate range. *)
Definition degenerate_slider : Node :=
  div_ ["slider"] [number_input "0" "0" "50"; custom_datalist stops].

(** Two sliders with custom markers, side by side. *)
Definition two_sliders : Node :=
  div_ [] [div_ ["slider"] [range "0" "100" "50"; custom_datalist stops];
           div_ ["slider"] [range "0" "10" "1"; custom_datalist ["0"; "5"; "10"]]].

(** A marker whose position is no number. *)
Definition unparsed_marker : Node :=
  div_ ["slider"] [range "0" "100" "25"; datalist ["abc"; "10"]].

(** An input outside every slider. *)
Definition bare_input : Node := div_ [] [range "0" "100" "25"].

(** Values outside the range, in number controls. *)
Definition above_range : Node := div_ ["slider"] [number_input "0" "100" "150"].
Definition below_range : Node := div_ ["slider"] [number_input "0" "100" "-50"].

(** A range whose width is no finite number. *)
Definition wide_range : Node := div_ ["slider"] [range "-1e308" "1e308" "1e308"].

(** A slider without a control, before one with a control. *)
Definition missing_control : Node :=
  div_ [] [div_ ["slider"] []; div_ ["slider"] [range "0" "100" "50"]].

(** A slider in a slider. *)
Definition nested_sliders : Node :=
  div_ ["slider"] [div_ ["slider"] [range "0" "100" "50"]].

(** Two sliders whose controls name the same [datalist]. *)
Definition shared_datalist : Node :=
  div_ []
    [div_ ["slider"]
       [elem "input" []
          [("type", "range"); ("min", "0"); ("max", "100"); ("value", "10"); ("list", "stops")]
          "10" [];
        elem "datalist" [] [("id", "stops")] "" [option_ "50"]];
     div_ ["slider"]
       [elem "input" []
          [("type", "range"); ("min", "0"); ("max", "100"); ("value", "90"); ("list", "stops")]
          "90" []]].

(** A slider whose first element named [datalist] is in an [svg], so is no
    HTML [datalist]. *)
Definition foreign_datalist : Node :=
  div_ ["slider"]
    [range "0" "100" "50"; foreign SVG "svg" [] [] [foreign SVG "datalist" [] [] []]].

(** That slider before another one. *)
Definition foreign_first : Node :=
  div_ [] [foreign_datalist; div_ ["slider"] [range "0" "10" "1"]].

(** A container that a script has created in a namespace of its own. *)
Definition unstyled_slider : Node :=
  foreign OtherNamespace "div" ["slider"] [] [range "0" "100" "50"].

(** A slider without markers that has a slider with custom markers inside. *)
Definition marked_inside : Node :=
  div_ ["slider"]
    [range "0" "100" "50";
     div_ ["slider"] [range "0" "10" "1"; custom_datalist ["0"; "5"; "10"]]].

(** The document that a call of [onSliderInput] leaves, whether the call
    returns or throws. *)
Definition after_input (doc : Node) (target : Path) : Node :=
  (onSliderInput doc target).1.

(** *** The specification's reading of [bodyOnLoad] *)

(** The slider instances of the document, in document order. *)
Definition sliders (doc : Node) : list Path :=
  document_getElementsByClassName doc "slider".

(** The embedded control of a slider: its first [input] descendant. *)
Definition control (doc : Node) (slider : Path) : option Path :=
  item0 (getElementsByTagName doc slider "input").

(** The markers that a call on the control of a slider marks. *)
Definition marked (doc : Node) (slider : Path) : list Path :=
  match control doc slider with
  | Some i =>
      match resolve_markers doc i with
      | Some c => markers doc c
      | None => []
      end
  | None => []
  end.

(** Every slider has a control. *)
Definition complete (doc : Node) : Prop :=
  Forall (fun s => is_Some (control doc s)) (sliders doc).

(** The control of a slider has that slider as its enclosing container:
    no slider lies between the two. *)
Definition unnested (doc : Node) : Prop :=
  Forall (fun s => closest doc (default [] (control doc s)) "slider" = Some s)
         (sliders doc).

(** Two sliders share no marker. *)
Definition unshared (doc : Node) : Prop :=
  Forall (fun s =>
            Forall (fun s' => s = s' \/ Forall (fun q => q ∉ marked doc s') (marked doc s))
                   (sliders doc))
         (sliders doc).

(** The control of every slider that has one is a target on which
    [onSliderInput] returns. *)
Definition supported_controls (doc : Node) : Prop :=
  Forall (fun s => match control doc s with
                   | Some i => supported doc i
                   | None => True
                   end)
         (sliders doc).

(** A slider that [bodyOnLoad] gets past: it has a control, on which
    [onSliderInput] returns. *)
Definition visitable (doc : Node) (slider : Path) : Prop :=
  match control doc slider with
  | Some i => supported doc i
  | None => False
  end.

#[global] Instance visitable_dec doc slider : Decision (visitable doc slider).
Proof. unfold visitable. destruct (control doc slider); apply _. Defined.

#[global] Instance supported_controls_dec doc : Decision (supported_controls doc).
Proof.
  unfold supported_controls. apply Forall_dec. intros s. destruct (control doc s); apply _.
Defined.

#[global] Instance complete_dec doc : Decision (complete doc).
Proof. unfold complete. apply _. Defined.

#[global] Instance unnested_dec doc : Decision (unnested doc).
Proof. unfold unnested. apply _. Defined.

#[global] Instance unshared_dec doc : Decision (unshared doc).
Proof. unfold unshared. apply _. Defined.

(** The slider [s] with the control [t] at [i] shows the state of its
    control in the document [d]: its progress, its marker classes, and a
    listener on the control. *)
Definition initialized (doc : Node) (s i : Path) (t : Element) (d : Node) : Prop :=
  slider_progress d s = Some (ratio (current t) (minimum t) (maximum t)) /\
  (forall c q m, resolve_markers doc i = Some c -> q ∈ markers doc c ->
     element_at d q = Some m ->
     "lower" ∈ classList m <-> ltb (Number (position c m)) (current t) = true) /\
  (exists e, element_at d i = Some e /\ ("input", SliderInputListener) ∈ listeners e).

(** The user moves the control: its current value changes. *)
Definition set_value (v : string) (e : Element) : Element :=
  mkElement (namespaceURI e) (tagName e) (attributes e) (classList e) (style e) v (text e) (listeners e).

End Slider.

(** ** Observing the slider script

    What theorems about successive calls and about [bodyOnLoad] speak of. *)

Module SliderUse.
Import JsNumber Dom Slider.

(** What the slider script keeps of an element: all but the class token
    [lower] and the declaration of [--slider-progress]; the listeners it
    finds stay, in their order, before those it adds. *)
Record kept (e e' : Element) : Prop := mk_kept {
  kept_namespaceURI : namespaceURI e' = namespaceURI e;
  kept_tagName : tagName e' = tagName e;
  kept_attributes : attributes e' = attributes e;
  kept_currentValue : currentValue e' = currentValue e;
  kept_text : text e' = text e;
  kept_classes : forall c, c <> "lower" -> c ∈ classList e' <-> c ∈ classList e;
  kept_style : forall n, n <> "--slider-progress" -> style e' !! n = style e !! n;
  kept_listeners : listeners e `prefix_of` listeners e'
}.

(** The control of every slider that has one has that slider as its
    enclosing container. *)
Definition contained (doc : Node) : Prop :=
  Forall (fun s => match control doc s with
                   | Some i => closest doc i "slider" = Some s
                   | None => True
                   end)
         (sliders doc).

#[global] Instance contained_dec doc : Decision (contained doc).
Proof.
  unfold contained. apply Forall_dec. intros s. destruct (control doc s); apply _.
Defined.

(** The sliders among [ss] whose control is the element at [q]. *)
Definition controlled_by (doc : Node) (ss : list Path) (q : Path) : list Path :=
  filter (fun s => control doc s = Some q) ss.

(** The number of listeners that one run of [bodyOnLoad] registers on the
    element at [q]: one for each slider that has it as its control. *)
Definition registrations (doc : Node) (q : Path) : nat :=
  length (controlled_by doc (sliders doc) q).

(** The listeners that [n] registrations add. *)
Definition registered (n : nat) : list (string * Listener) :=
  replicate n ("input", SliderInputListener).

(** A slider without a control between two sliders that have one. *)
Definition interrupted : Node :=
  div_ [] [div_ ["slider"] [range "0" "100" "50"];
           div_ ["slider"] [];
           div_ ["slider"] [range "0" "10" "1"]].

(** A control at the least and at the greatest value of its range. *)
Definition at_minimum : Node := div_ ["slider"] [range "10" "30" "10"].
Definition at_maximum : Node := div_ ["slider"] [range "10" "30" "30"].

End SliderUse.

(** ** Observing the rounding

    The progress as a chain of roundings of non-negative numbers. *)

Module RoundingUse.
Import JsNumber Rounding.

(** [f] is what an operation returns whose exact result is [x >= 0]: a zero
    for 0, and else a rounding of [x] that has not overflowed. *)
Definition near (x : Q) (f : spec_float) : Prop :=
  ((x == 0)%Q /\ exists s, f = S754_zero s) \/
  ((0 < x)%Q /\ Rnd false x f /\ finite f).

(** The progress of the value [v] in the range from [a] to [b], when
    [b > a]. *)
Definition percentage (v a b : spec_float) : spec_float :=
  SFmul prec emax (SFdiv prec emax (SFsub prec emax v a) (SFsub prec emax b a)) hundred.

End RoundingUse.

(** ** The page script

    The other functions of the sample page toggle class tokens of the
    navigation elements, show and hide the navigation drawer, and move the
    active tab.  A function runs on the document and leaves a document; it
    returns, or it throws where it reads a property of [null]. *)

Module Sample.
Import JsNumber Dom Slider.

(** *** Runs *)

(** A run from a document: the document it leaves, and how it ends. *)
Definition Script (A : Type) : Type := Node -> Node * Completion A.

Definition ret {A} (a : A) : Script A := fun d => (d, Normal a).

(** Sequencing: what follows a throw does not run. *)
Definition bind {A B} (m : Script A) (k : A -> Script B) : Script B :=
  fun d =>
    match m d with
    | (d', Normal a) => k a d'
    | (d', Throw e) => (d', Throw e)
    end.

Declare Scope script_scope.
Delimit Scope script_scope with script.
Bind Scope script_scope with Script.

Notation "x <- m ;; k" := (bind m (fun x => k))
  (at level 20, m at level 99, k at level 200) : script_scope.
Notation "m ;; k" := (bind m (fun _ => k))
  (at level 100, k at level 200, right associativity) : script_scope.

Local Open Scope script_scope.

(** A reference to an element, as a variable of the script holds it: the
    path of the element, or [None] for [null] and [undefined]. *)
Abbreviation Ref := (option Path).

(** An expression that reads the document. *)
Definition eval {A} (f : Node -> A) : Script A := fun d => (d, Normal (f d)).

(** Reading a property of the element behind a reference; on [null] the
    read throws. *)
Definition get {A} (r : Ref) (property : Element -> A) : Script A :=
  fun d =>
    match r ≫= element_at d with
    | Some e => (d, Normal (property e))
    | None => (d, Throw TypeError)
    end.

(** The same for a property that is a lookup from the element. *)
Definition within {A} (r : Ref) (lookup : Node -> Path -> A) : Script A :=
  fun d =>
    match r ≫= element_at d, r with
    | Some _, Some p => (d, Normal (lookup d p))
    | _, _ => (d, Throw TypeError)
    end.

(** Calling a method that updates the element in place. *)
Definition call (r : Ref) (method : Element -> Element) : Script unit :=
  fun d =>
    match r ≫= element_at d, r with
    | Some _, Some p => (alter_element method p d, Normal tt)
    | _, _ => (d, Throw TypeError)
    end.

(** [for (const item of items) item.method()]. *)
Definition each (items : list Path) (method : Element -> Element) : Script unit :=
  fun d => (for_of items method d, Normal tt).

(** *** More of the DOM *)

(** [document.getElementById(id)]: the first element, in tree order, with
    that ID. *)
Definition getElementById (doc : Node) (id : string) : Ref :=
  head (filter (satisfies (has_id id) doc) (document_paths doc)).

(** [document.getElementsByClassName(c).item(0)]. *)
Definition first_of_class (c : string) (doc : Node) : Ref :=
  item0 (document_getElementsByClassName doc c).

(** [classList.contains(c)]. *)
Definition classList_contains (c : string) (e : Element) : bool :=
  bool_decide (c ∈ classList e).

(** [setAttribute(name, v)], for an attribute other than [class] and
    [style], which the model keeps apart. *)
Definition setAttribute (name v : string) (e : Element) : Element :=
  mkElement (namespaceURI e) (tagName e) (<[name := v]> (attributes e)) (classList e) (style e)
    (currentValue e) (text e) (listeners e).

(** [element.parentElement]: the root element has none. *)
Definition parentElement (p : Path) : Ref :=
  match p with
  | [] => None
  | _ :: _ => Some (removelast p)
  end.

(** [element.children], in tree order. *)
Definition children (doc : Node) (p : Path) : list Path :=
  match node_at doc p with
  | Some n => (fun i => p ++ [i]) <$> seq 0 (length (childNodes n))
  | None => []
  end.

(** The part of an event that the functions read. *)
Record Event := mkEvent {
  target : Ref;
  currentTarget : Ref;
  clientX : number
}.

(** *** The functions *)

Definition toggleMainMenu : Script unit :=
  mainMenu <- eval (fun d => getElementById d "main-menu") ;;
  hidden <- get mainMenu (classList_contains "hidden") ;;
  if hidden then call mainMenu (classList_remove "hidden")
  else call mainMenu (classList_add "hidden").

Definition toggleNavBarWidth (event : Event) : Script unit :=
  navBar <- eval (first_of_class "nav-bar") ;;
  wide <- get navBar (classList_contains "wide") ;;
  if wide then call navBar (classList_remove "wide")
  else call navBar (classList_add "wide").

(** The two icons of the rail button. *)
Definition menu_icon : string :=
  "M120-240v-80h720v80H120Zm0-200v-80h720v80H120Zm0-200v-80h720v80H120Z".

Definition menu_open_icon : string :=
  "M120-240v-80h520v80H120Zm664-40L584-480l200-200 56 56-144 144 144 144-56" +:+
  " 56ZM120-440v-80h400v80H120Zm0-200v-80h520v80H120Z".

Definition toggleNavRailWidth (event : Event) : Script unit :=
  navRail <- eval (first_of_class "nav-rail") ;;
  svg <- within (currentTarget event)
           (fun d p => item0 (getElementsByTagName d p "svg")) ;;
  svgPath <- within svg (fun d p => item0 (getElementsByTagName d p "path")) ;;
  wide <- get navRail (classList_contains "wide") ;;
  if wide then
    call navRail (classList_remove "wide") ;;
    call svgPath (setAttribute "d" menu_icon)
  else
    call navRail (classList_add "wide") ;;
    call svgPath (setAttribute "d" menu_open_icon).

Definition toggleNavBarNavRail : Script unit :=
  navBar <- eval (first_of_class "nav-bar") ;;
  navRail <- eval (first_of_class "nav-rail") ;;
  match navBar, navRail with
  | Some _, Some _ =>
      hidden <- get navBar (classList_contains "hidden") ;;
      if hidden then
        call navBar (classList_remove "hidden") ;;
        call navRail (classList_add "hidden")
      else
        call navBar (classList_add "hidden") ;;
        call navRail (classList_remove "hidden")
  | _, _ => ret tt
  end.

Definition navDrawerModal : Script unit :=
  navDrawer <- eval (first_of_class "nav-drawer") ;;
  modal <- get navDrawer (classList_contains "modal") ;;
  (if negb modal then call navDrawer (classList_add "modal") else ret tt) ;;
  modalButton <- eval (fun d => getElementById d "nav-drawer-modal-button") ;;
  call modalButton (classList_add "hidden") ;;
  fixButton <- eval (fun d => getElementById d "nav-drawer-fix-button") ;;
  call fixButton (classList_remove "hidden").

Definition navDrawerFix : Script unit :=
  navDrawer <- eval (first_of_class "nav-drawer") ;;
  modal <- get navDrawer (classList_contains "modal") ;;
  (if modal then call navDrawer (classList_remove "modal") else ret tt) ;;
  modalButton <- eval (fun d => getElementById d "nav-drawer-modal-button") ;;
  call modalButton (classList_remove "hidden") ;;
  fixButton <- eval (fun d => getElementById d "nav-drawer-fix-button") ;;
  call fixButton (classList_add "hidden").

Definition navDrawerShow : Script unit :=
  navDrawer <- eval (first_of_class "nav-drawer") ;;
  hidden <- get navDrawer (classList_contains "hidden") ;;
  (if hidden then
     call navDrawer (classList_remove "hidden") ;;
     navDrawerModal
   else ret tt) ;;
  showButton <- eval (fun d => getElementById d "nav-drawer-show-button") ;;
  call showButton (classList_add "hidden") ;;
  hideButton <- eval (fun d => getElementById d "nav-drawer-hide-button") ;;
  call hideButton (classList_remove "hidden").

(** [navDrawerHide(event)], with [None] for a call without an event.  The
    first part returns early, with [false], for a click that is not on the
    drawer or is left of its right edge; [right d p] is
    [getBoundingClientRect().right] of the element at [p], which the layout
    of the page gives.  What [console.log] prints is not part of the
    document; the property that it reads is read. *)
Definition navDrawerHide (right : Node -> Path -> number) (event : option Event)
  : Script unit :=
  proceed <- match event with
             | Some event =>
                 _ <- get (target event) classList ;;
                 onDrawer <- get (target event) (classList_contains "nav-drawer") ;;
                 if negb onDrawer then ret false
                 else
                   edge <- within (target event) right ;;
                   if ltb (clientX event) edge then ret false else ret true
             | None => ret true
             end ;;
  if proceed : bool then
    navDrawer <- eval (first_of_class "nav-drawer") ;;
    hidden <- get navDrawer (classList_contains "hidden") ;;
    (if negb hidden then call navDrawer (classList_add "hidden") else ret tt) ;;
    showButton <- eval (fun d => getElementById d "nav-drawer-show-button") ;;
    call showButton (classList_remove "hidden") ;;
    hideButton <- eval (fun d => getElementById d "nav-drawer-hide-button") ;;
    call hideButton (classList_add "hidden")
  else ret tt.

Definition tabItemOnClick (event : Event) : Script unit :=
  let tabItem := currentTarget event in
  tabs <- within tabItem (fun _ p => parentElement p) ;;
  items <- within tabs children ;;
  each items (classList_remove "active") ;;
  call tabItem (classList_add "active").

(** *** Observing the page *)

(** The element at [p] is there and has the class [c]. *)
Definition has (doc : Node) (p : Path) (c : string) : Prop :=
  satisfies (has_class c) doc p.

#[global] Instance has_dec doc p c : Decision (has doc p c).
Proof. unfold has. apply _. Defined.

(** Giving an element the class [c], or taking it away. *)
Definition put (c : string) (on : bool) : Element -> Element :=
  if on then classList_add c else classList_remove c.

(** A click that [navDrawerHide] acts on: no event at all, or a click on
    an element of class [nav-drawer] that is not left of its right edge. *)
Definition dismisses (right : Node -> Path -> number) (event : option Event) (doc : Node)
  : Prop :=
  match event with
  | None => True
  | Some event =>
      match target event with
      | Some p => has doc p "nav-drawer" /\ ltb (clientX event) (right doc p) = false
      | None => False
      end
  end.

(** The attribute [name] of the element at [p]. *)
Definition attribute (doc : Node) (p : Path) (name : string) : option string :=
  element_at doc p ≫= fun e => attributes e !! name.

(** [e'] is [e] but for the class tokens [cs]. *)
Record same_but_classes (cs : list string) (e e' : Element) : Prop := mk_same_but_classes {
  sbc_namespaceURI : namespaceURI e' = namespaceURI e;
  sbc_tagName : tagName e' = tagName e;
  sbc_attributes : attributes e' = attributes e;
  sbc_style : style e' = style e;
  sbc_currentValue : currentValue e' = currentValue e;
  sbc_text : text e' = text e;
  sbc_listeners : listeners e' = listeners e;
  sbc_classes : forall c, c ∉ cs -> c ∈ classList e' <-> c ∈ classList e
}.

(** [d'] is [d] but for the class tokens [cs] of the elements at [ps]. *)
Definition changes_only (ps : list Path) (cs : list string) (d d' : Node) : Prop :=
  forall q,
    (q ∉ ps -> element_at d' q = element_at d q) /\
    option_Forall2 (same_but_classes cs) (element_at d q) (element_at d' q).

(** *** A page for the examples *)

Definition button (id : string) (classes : list string) : Node :=
  elem "button" classes [("id", id)] "" [].

(** A page with a hidden main menu, a bar, a rail with its button, a hidden
    drawer with its four buttons, and three tabs. *)
Definition page : Node :=
  elem "body" [] [] ""
    [elem "nav" ["hidden"] [("id", "main-menu")] "" [];
     elem "nav" ["nav-bar"] [] "" [];
     elem "nav" ["nav-rail"] [] ""
       [elem "button" [] [] ""
          [foreign SVG "svg" [] [] [foreign SVG "path" [] [("d", menu_icon)] []]]];
     elem "aside" ["nav-drawer"; "hidden"] [] "" [];
     button "nav-drawer-show-button" [];
     button "nav-drawer-hide-button" ["hidden"];
     button "nav-drawer-modal-button" [];
     button "nav-drawer-fix-button" ["hidden"];
     div_ ["tabs"] [div_ ["tab-item"; "active"] []; div_ ["tab-item"] []; div_ ["tab-item"] []]].

(** A click on the element at [p], at the horizontal position [x]. *)
Definition click (p : Path) (x : Z) : Event := mkEvent (Some p) (Some p) (of_Z x).

(** A layout that puts the right edge of every element at 300. *)
Definition edge_at_300 (doc : Node) (p : Path) : number := of_Z 300.

(** The document that a run leaves. *)
Definition after {A} (run : Script A) (doc : Node) : Node := (run doc).1.

End Sample.

(** ** Facts about numbers *)

Module NumberFacts.
Import JsNumber.

Lemma SFcompare_antisym x y :
  SFcompare y x = option_map CompOpp (SFcompare x y).
Proof.
  destruct x as [sx|sx| |sx mx ex], y as [sy|sy| |sy my ey]; simpl;
    try done; try (by destruct sx); try (by destruct sy); try (by destruct sx, sy).
  f_equal. change (Pos.compare_cont Eq my mx) with (Pos.compare my mx).
  change (Pos.compare_cont Eq mx my) with (Pos.compare mx my).
  rewrite (Z.compare_antisym ey ex), (Pos.compare_antisym my mx).
  destruct sx, sy, (ey ?= ex), (my ?= mx)%positive; done.
Qed.

Lemma or_zero_not_nan x : is_nan (or_zero x) = false.
Proof. by destruct x. Qed.

Lemma or_zero_nan x : is_nan x = true -> or_zero x = zero.
Proof. by destruct x. Qed.

Lemma or_zero_eqb x : is_nan x = false -> eqb (or_zero x) x = true.
Proof.
  destruct x as [s|[]| |[] m e]; try done; intros _; unfold eqb, SFeqb; simpl.
  - by rewrite Z.compare_refl, Pos.compare_cont_refl.
  - by rewrite Z.compare_refl, Pos.compare_cont_refl.
Qed.

Lemma ltb_nan_l x y : is_nan x = true -> ltb x y = false.
Proof. by destruct x. Qed.

Lemma eqb_not_ltb x y : eqb x y = true -> ltb x y = false.
Proof. unfold eqb, ltb, SFeqb, SFltb. by destruct (SFcompare x y) as [[]|]. Qed.

Lemma leb_not_gtb x y : leb x y = true -> gtb x y = false.
Proof.
  unfold leb, gtb, SFleb, SFltb. rewrite (SFcompare_antisym x y).
  by destruct (SFcompare x y) as [[]|].
Qed.

Lemma not_gtb_leb x y : is_nan x = false -> is_nan y = false -> gtb x y = false -> leb x y = true.
Proof.
  unfold leb, gtb, SFleb, SFltb. rewrite (SFcompare_antisym x y).
  destruct (SFcompare x y) as [[]|] eqn:E; try done.
  destruct x as [| | |[]], y as [| | |[]]; try done.
Qed.

End NumberFacts.

(** ** Facts about rounding *)

Module RoundingFacts.
Import JsNumber Rounding.

Lemma bpow_pos e : (0 < bpow e)%Q.
Proof. apply Qpower_0_lt. reflexivity. Qed.

Lemma bpow_plus a b : (bpow (a + b) == bpow a * bpow b)%Q.
Proof. apply Qpower_plus. discriminate. Qed.

Lemma bpow_succ e : (bpow (e + 1) == 2 * bpow e)%Q.
Proof. rewrite bpow_plus. unfold bpow at 2. simpl. ring. Qed.

Lemma bpow_le a b : a <= b -> (bpow a <= bpow b)%Q.
Proof. intros H. apply Qpower_le_compat_l; [exact H|]. unfold Qle. simpl. lia. Qed.

Lemma bpow_lt a b : a < b -> (bpow a < bpow b)%Q.
Proof.
  intros H. replace b with (a + 1 + (b - a - 1)) by lia.
  assert (bpow (a + 1) <= bpow (a + 1 + (b - a - 1)))%Q by (apply bpow_le; lia).
  rewrite bpow_succ in H0. pose proof (bpow_pos a). lra.
Qed.

Lemma bpow_lt_inv a b : (bpow a < bpow b)%Q -> a < b.
Proof.
  intros H. destruct (Z_lt_le_dec a b) as [?|Hle]; [assumption|].
  apply bpow_le in Hle. lra.
Qed.

Lemma bpow_Z n : 0 <= n -> (bpow n == inject_Z (2 ^ n))%Q.
Proof.
  intros Hn. unfold bpow. rewrite <- (Z2Nat.id n Hn). generalize (Z.to_nat n). clear.
  intros k. induction k as [|k IH].
  - reflexivity.
  - rewrite Nat2Z.inj_succ, <- Z.add_1_r.
    rewrite Qpower_plus by discriminate. rewrite IH.
    rewrite Z.pow_add_r by lia. rewrite inject_Z_mult. reflexivity.
Qed.

Lemma bpow_Z_inv n : 0 <= n -> (inject_Z (2 ^ n) == bpow n)%Q.
Proof. intros. symmetry. by apply bpow_Z. Qed.

Lemma val_plus m1 m2 e : (val (m1 + m2) e == val m1 e + val m2 e)%Q.
Proof. unfold val. rewrite inject_Z_plus. ring. Qed.

Lemma val_shift m e : (val m (e + 1) == val (2 * m) e)%Q.
Proof. unfold val. rewrite bpow_succ, inject_Z_mult. ring. Qed.

Lemma val_le m1 m2 e : m1 <= m2 -> (val m1 e <= val m2 e)%Q.
Proof.
  intros H. unfold val. apply Qmult_le_compat_r; [|apply Qlt_le_weak, bpow_pos].
  rewrite <- Zle_Qle. exact H.
Qed.

Lemma val_lt m1 m2 e : m1 < m2 -> (val m1 e < val m2 e)%Q.
Proof.
  intros H. unfold val. apply Qmult_lt_compat_r; [apply bpow_pos|].
  rewrite <- Zlt_Qlt. exact H.
Qed.

Lemma val_lt_inv m1 m2 e : (val m1 e < val m2 e)%Q -> m1 < m2.
Proof.
  intros H. destruct (Z_lt_le_dec m1 m2) as [?|Hle]; [assumption|].
  apply (val_le _ _ e) in Hle. lra.
Qed.

Lemma val_le_inv m1 m2 e : (val m1 e <= val m2 e)%Q -> m1 <= m2.
Proof.
  intros H. destruct (Z_le_gt_dec m1 m2) as [?|Hgt]; [assumption|].
  apply Z.gt_lt, (val_lt _ _ e) in Hgt. lra.
Qed.

(** Binary digits. *)
Lemma digits2_pos_bounds p :
  2 ^ (Zpos (digits2_pos p) - 1) <= Zpos p < 2 ^ Zpos (digits2_pos p).
Proof.
  induction p as [p IH|p IH|]; simpl digits2_pos.
  - rewrite Pos2Z.inj_succ.
    replace (Z.succ (Z.pos (digits2_pos p)) - 1) with (Z.pos (digits2_pos p) - 1 + 1) by lia.
    rewrite Z.pow_succ_r by lia. rewrite Z.pow_add_r by lia. lia.
  - rewrite Pos2Z.inj_succ.
    replace (Z.succ (Z.pos (digits2_pos p)) - 1) with (Z.pos (digits2_pos p) - 1 + 1) by lia.
    rewrite Z.pow_succ_r by lia. rewrite Z.pow_add_r by lia. lia.
  - simpl. lia.
Qed.

Lemma Zdigits2_nonneg m : 0 <= Zdigits2 m.
Proof. destruct m; simpl; lia. Qed.

Lemma Zdigits2_bounds m :
  0 < m -> 2 ^ (Zdigits2 m - 1) <= m < 2 ^ Zdigits2 m.
Proof. destruct m as [|p|p]; try lia. intros _. apply digits2_pos_bounds. Qed.

Lemma Zdigits2_upper m : 0 <= m -> m < 2 ^ Zdigits2 m.
Proof.
  intros H. destruct (Z.eq_dec m 0) as [->|]; [simpl; lia|].
  apply Zdigits2_bounds. lia.
Qed.

Lemma Zdigits2_le m k : 0 <= m -> 0 <= k -> m < 2 ^ k -> Zdigits2 m <= k.
Proof.
  intros Hm Hk H. destruct (Z.eq_dec m 0) as [->|]; [simpl; lia|].
  destruct (Zdigits2_bounds m) as [H1 _]; [lia|].
  destruct (Z_le_gt_dec (Zdigits2 m) k) as [?|Hgt]; [assumption|].
  assert (2 ^ k <= 2 ^ (Zdigits2 m - 1)) by (apply Z.pow_le_mono_r; lia). lia.
Qed.

Lemma Zdigits2_ge m k : 0 < k -> 2 ^ (k - 1) <= m -> k <= Zdigits2 m.
Proof.
  intros Hk H. assert (0 < m) by (assert (0 < 2 ^ (k - 1)) by (apply Z.pow_pos_nonneg; lia); lia).
  destruct (Zdigits2_bounds m) as [_ H2]; [lia|].
  destruct (Z_le_gt_dec k (Zdigits2 m)) as [?|Hgt]; [assumption|].
  assert (2 ^ Zdigits2 m <= 2 ^ (k - 1)) by (apply Z.pow_le_mono_r; lia). lia.
Qed.

Lemma inb_bounds m e l x : inb m e l x -> (val m e <= x < val (m + 1) e)%Q.
Proof.
  destruct l as [|c]; simpl.
  - intros ->. split; [lra|]. apply val_lt. lia.
  - intros (? & ? & _). lra.
Qed.

Lemma shr_1_spec m r s :
  0 <= m ->
  shr_1 (Build_shr_record m r s) = Build_shr_record (m / 2) (Z.odd m) (r || s).
Proof.
  intros Hm. destruct m as [|[p|p|]|p]; try lia; try reflexivity.
  - simpl shr_1. f_equal. rewrite Pos2Z.inj_xI. apply Z.div_unique with 1; lia.
  - simpl shr_1. f_equal. rewrite Pos2Z.inj_xO. apply Z.div_unique with 0; lia.
Qed.

Lemma val_double_plus k b e :
  (val (2 * k + b) e == 2 * val k e + val b e)%Q.
Proof. unfold val. rewrite inject_Z_plus, inject_Z_mult. ring. Qed.

Lemma shr_1_inbr mrs e x :
  0 <= shr_m mrs -> inbr mrs e x ->
  inbr (shr_1 mrs) (e + 1) x /\ shr_m (shr_1 mrs) = shr_m mrs / 2.
Proof.
  destruct mrs as [m r s]. unfold inbr. intros Hm H. cbn [shr_m] in Hm, H.
  rewrite shr_1_spec by assumption. split; [|reflexivity].
  cbn [shr_m loc_of_shr_record].
  pose proof (bpow_pos e) as HP.
  pose proof (Z.div_mod m 2 ltac:(lia)) as Hdm.
  pose proof (Z.mod_pos_bound m 2 ltac:(lia)) as Hb.
  assert (Z.odd m = (m mod 2 =? 1)) as ->.
  { rewrite Hdm at 1. rewrite Z.add_comm, Z.odd_add_mul_2.
    assert (m mod 2 = 0 \/ m mod 2 = 1) as [->| ->] by lia; reflexivity. }
  set (k := m / 2) in *. set (b := m mod 2) in *.
  assert (inject_Z m == 2 * inject_Z k + inject_Z b)%Q as HM.
  { rewrite Hdm at 1. rewrite inject_Z_plus, inject_Z_mult. reflexivity. }
  assert (val 1 e == bpow e)%Q as H1 by (unfold val; ring).
  assert (val 0 e == 0)%Q as H0 by (unfold val; ring).
  assert (val m e == 2 * val k e + val b e)%Q as Em.
  { unfold val. rewrite HM. ring. }
  assert (val (m + 1) e == 2 * val k e + val b e + bpow e)%Q as Em1.
  { unfold val. rewrite inject_Z_plus, HM. change (inject_Z 1) with 1%Q. ring. }
  assert (val (2 * m + 1) e == 4 * val k e + 2 * val b e + bpow e)%Q as Em2.
  { unfold val. rewrite inject_Z_plus, inject_Z_mult, HM.
    change (inject_Z 1) with 1%Q. change (inject_Z 2) with 2%Q. ring. }
  assert (val k (e + 1) == 2 * val k e)%Q as Ek.
  { unfold val. rewrite bpow_succ. ring. }
  assert (val (k + 1) (e + 1) == 2 * val k e + 2 * bpow e)%Q as Ek1.
  { unfold val. rewrite bpow_succ, inject_Z_plus. change (inject_Z 1) with 1%Q. ring. }
  assert (val (2 * k + 1) (e + 1) == 4 * val k e + 2 * bpow e)%Q as Ek2.
  { unfold val. rewrite bpow_succ, inject_Z_plus, inject_Z_mult.
    change (inject_Z 1) with 1%Q. change (inject_Z 2) with 2%Q. ring. }
  assert (b = 0 \/ b = 1) as [Hb0|Hb1] by lia.
  - rewrite Hb0 in *. rewrite H0 in *. change (0 =? 1) with false.
    destruct r, s; cbn [inb loc_of_shr_record orb] in *;
      rewrite ?Em, ?Em1, ?Em2, ?Ek, ?Ek1, ?Ek2 in *; lra.
  - rewrite Hb1 in *. rewrite H1 in *. change (1 =? 1) with true.
    destruct r, s; cbn [inb loc_of_shr_record orb] in *;
      rewrite ?Em, ?Em1, ?Em2, ?Ek, ?Ek1, ?Ek2 in *; lra.
Qed.

Lemma iter_shr_1_inbr p mrs e x :
  0 <= shr_m mrs -> inbr mrs e x ->
  inbr (SpecFloat.iter_pos shr_1 p mrs) (e + Zpos p) x /\
  shr_m (SpecFloat.iter_pos shr_1 p mrs) = shr_m mrs / 2 ^ Zpos p.
Proof.
  revert mrs e. induction p as [p IH|p IH|]; intros mrs e Hm H; cbn [SpecFloat.iter_pos].
  - destruct (shr_1_inbr mrs e x Hm H) as [H1 E1].
    assert (0 <= shr_m (shr_1 mrs)) as Hm1 by (rewrite E1; apply Z.div_pos; lia).
    destruct (IH _ _ Hm1 H1) as [H2 E2].
    assert (0 <= shr_m (SpecFloat.iter_pos shr_1 p (shr_1 mrs))) as Hm2
      by (rewrite E2; apply Z.div_pos; [lia|apply Z.pow_pos_nonneg; lia]).
    destruct (IH _ _ Hm2 H2) as [H3 E3]. split.
    + replace (e + Z.pos p~1) with (e + 1 + Z.pos p + Z.pos p) by lia. exact H3.
    + rewrite E3, E2, E1. rewrite !Z.div_div by (try apply Z.pow_pos_nonneg; lia).
      f_equal. rewrite Pos2Z.inj_xI. rewrite Z.pow_add_r, Z.pow_mul_r by lia.
      change (2 ^ 2) with 4. change (2 ^ 1) with 2.
      replace (4 ^ Z.pos p) with (2 ^ Z.pos p * 2 ^ Z.pos p).
      * ring.
      * rewrite <- Z.pow_mul_l. reflexivity.
  - destruct (IH _ _ Hm H) as [H2 E2].
    assert (0 <= shr_m (SpecFloat.iter_pos shr_1 p mrs)) as Hm2
      by (rewrite E2; apply Z.div_pos; [lia|apply Z.pow_pos_nonneg; lia]).
    destruct (IH _ _ Hm2 H2) as [H3 E3]. split.
    + replace (e + Z.pos p~0) with (e + Z.pos p + Z.pos p) by lia. exact H3.
    + rewrite E3, E2. rewrite !Z.div_div by (try apply Z.pow_pos_nonneg; lia).
      f_equal. rewrite Pos2Z.inj_xO. rewrite <- Z.pow_add_r by lia. f_equal. lia.
  - destruct (shr_1_inbr mrs e x Hm H) as [H1 E1]. split; [exact H1|].
    rewrite E1. reflexivity.
Qed.

Lemma shr_record_of_loc_inbr m l e x : inbr (shr_record_of_loc m l) e x <-> inb m e l x.
Proof. unfold inbr. destruct l as [|[]]; reflexivity. Qed.

Lemma shr_m_record_of_loc m l : shr_m (shr_record_of_loc m l) = m.
Proof. destruct l as [|[]]; reflexivity. Qed.

Lemma fexp_spec e : fexp e = Z.max (e - 53) (-1074).
Proof. reflexivity. Qed.

(** The first step of rounding: the cell of [x] at the exponent of its format. *)
Lemma shr_fexp_spec m e l x :
  0 <= m -> inb m e l x ->
  let c := Z.max e (fexp (Zdigits2 m + e)) in
  exists m' l',
    shr_fexp prec emax m e l = (shr_record_of_loc m' l', c) /\
    inb m' c l' x /\ m' = m / 2 ^ (c - e).
Proof.
  intros Hm H c. unfold shr_fexp, shr. fold (fexp (Zdigits2 m + e)).
  assert (forall mrs, mrs = shr_record_of_loc (shr_m mrs) (loc_of_shr_record mrs)) as Heta.
  { intros [? [] []]; reflexivity. }
  destruct (fexp (Zdigits2 m + e) - e) as [|p|p] eqn:Hn.
  - exists m, l. replace c with e by lia. rewrite Z.sub_diag, Z.div_1_r. auto.
  - apply shr_record_of_loc_inbr in H.
    assert (0 <= shr_m (shr_record_of_loc m l)) as Hm' by (rewrite shr_m_record_of_loc; lia).
    destruct (iter_shr_1_inbr p _ e x Hm' H) as [H1 E1].
    eexists _, _. split; [rewrite (Heta (SpecFloat.iter_pos _ _ _)) at 1; f_equal; lia|].
    split; [replace c with (e + Z.pos p) by lia; exact H1|].
    rewrite E1, shr_m_record_of_loc. f_equal. f_equal. lia.
  - exists m, l. replace c with e by lia. rewrite Z.sub_diag, Z.div_1_r. auto.
Qed.

Lemma binary_round_aux_finalize s m e l :
  binary_round_aux prec emax s m e l
  = let '(mrs', e') := shr_fexp prec emax m e l in
    finalize s (round_nearest_even (shr_m mrs') (loc_of_shr_record mrs')) e'.
Proof. unfold binary_round_aux, finalize. destruct (shr_fexp prec emax m e l). reflexivity. Qed.

Lemma loc_of_shr_record_of_loc m l : loc_of_shr_record (shr_record_of_loc m l) = l.
Proof. destruct l as [|[]]; reflexivity. Qed.

Lemma pow2_pos k : 0 <= k -> 0 < 2 ^ k.
Proof. intros. apply Z.pow_pos_nonneg; lia. Qed.

(** Rounding, as the cell of [x] at the exponent of its format, the mantissa
    rounded to the nearest even, and the float of the result. *)
Lemma round_aux_spec s m e l x :
  0 <= m -> inb m e l x -> e <= fexp (Zdigits2 m + e) ->
  let c := fexp (Zdigits2 m + e) in
  exists m' l',
    inb m' c l' x /\ 0 <= m' < 2 ^ prec /\ (emin < c -> 2 ^ (prec - 1) <= m') /\
    binary_round_aux prec emax s m e l = finalize s (round_nearest_even m' l') c.
Proof.
  intros Hm H Hpre c.
  destruct (shr_fexp_spec m e l x Hm H) as (m' & l' & Hshr & Hin & Em').
  replace (Z.max e (fexp (Zdigits2 m + e))) with c in * by (subst c; lia).
  exists m', l'. split; [exact Hin|].
  pose proof (Zdigits2_upper m Hm) as Hup.
  pose proof (Zdigits2_nonneg m) as Hd.
  assert (0 <= c - e) as Hn by lia.
  pose proof (pow2_pos (c - e) Hn) as Hpow.
  assert (Zdigits2 m + e - 53 <= c) as Hc1 by (subst c; rewrite fexp_spec; lia).
  split; [split|split].
  - rewrite Em'. apply Z.div_pos; lia.
  - rewrite Em'. apply Z.div_lt_upper_bound; [lia|].
    rewrite <- Z.pow_add_r by (unfold prec; lia).
    assert (2 ^ Zdigits2 m <= 2 ^ (c - e + prec)) by (apply Z.pow_le_mono_r; unfold prec; lia).
    lia.
  - intros Hc. assert (c = Zdigits2 m + e - 53) as Ec.
    { subst c. rewrite fexp_spec in *. unfold emin, SpecFloat.emin, emax, prec in Hc. lia. }
    assert (m <> 0) as Hm0.
    { intros ->. simpl in Ec. lia. }
    destruct (Zdigits2_bounds m) as [Hlo _]; [lia|].
    rewrite Em'. apply Z.div_le_lower_bound; [lia|].
    rewrite <- Z.pow_add_r by (unfold prec; lia).
    replace (c - e + (prec - 1)) with (Zdigits2 m - 1) by (unfold prec; lia). exact Hlo.
  - rewrite binary_round_aux_finalize, Hshr.
    by rewrite shr_m_record_of_loc, loc_of_shr_record_of_loc.
Qed.

Lemma finalize_spec s w c :
  0 <= w <= 2 ^ prec -> emin <= c -> (emin < c -> 2 ^ (prec - 1) <= w) ->
  (w = 0 -> finalize s w c = S754_zero s) /\
  (0 < w ->
   exists m3 e3,
     finalize s w c
     = (if Z.leb e3 (emax - prec) then S754_finite s m3 e3 else S754_infinity s) /\
     (val (Zpos m3) e3 == val w c)%Q /\ canonical m3 e3 /\ c <= e3).
Proof.
  intros Hw Hc Hn. split.
  { intros ->. unfold finalize, shr_fexp. simpl Zdigits2. rewrite Z.add_0_l.
    replace (SpecFloat.fexp prec emax c - c) with 0; [reflexivity|].
    change (SpecFloat.fexp prec emax c) with (fexp c). rewrite fexp_spec.
    unfold emin, SpecFloat.emin, emax, prec in Hc, Hn.
    assert (0 < 2 ^ (53 - 1)) by (apply pow2_pos; lia). lia. }
  intros Hpos. unfold emin, SpecFloat.emin, emax in Hc, Hn. unfold prec in *.
  destruct (Z.eq_dec w (2 ^ 53)) as [->|Hne].
  - exists (Z.to_pos (2 ^ 52)), (c + 1).
    split; [|split; [|split; [|lia]]].
    + unfold finalize, shr_fexp. change (Zdigits2 (2 ^ 53)) with 54.
      change (SpecFloat.fexp prec emax) with fexp. rewrite fexp_spec.
      replace (Z.max (54 + c - 53) (-1074) - c) with 1 by lia. reflexivity.
    + rewrite val_shift. reflexivity.
    + unfold canonical. change (Z.pos (digits2_pos (Z.to_pos (2 ^ 52)))) with 53.
      rewrite fexp_spec. lia.
  - destruct w as [|p|p]; try lia.
    assert (Zdigits2 (Zpos p) <= 53) as Hd by (apply Zdigits2_le; lia).
    assert (fexp (Zdigits2 (Zpos p) + c) = c) as Hf.
    { rewrite fexp_spec. destruct (Z.eq_dec c (-1074)) as [->|]; [lia|].
      assert (53 <= Zdigits2 (Zpos p)) by (apply Zdigits2_ge; lia). lia. }
    exists p, c. split; [|split; [reflexivity|split; [exact Hf|lia]]].
    unfold finalize, shr_fexp. change (SpecFloat.fexp prec emax) with fexp.
    rewrite Hf, Z.sub_diag. reflexivity.
Qed.

Lemma round_nearest_even_bounds m l :
  m <= round_nearest_even m l <= m + 1.
Proof. destruct l as [|[]]; simpl; try lia. destruct (Z.even m); lia. Qed.

Lemma fexp_ge_emin e : emin <= fexp e.
Proof. rewrite fexp_spec. unfold emin, SpecFloat.emin, emax, prec. lia. Qed.

Lemma Rnd_cell s x f :
  Rnd s x f ->
  exists m l c, cell x m l c /\ f = finalize s (round_nearest_even m l) c.
Proof.
  intros (m & e & l & Hm & Hin & Hpre & ->).
  destruct (round_aux_spec s m e l x Hm Hin Hpre) as (m' & l' & H1 & [H2 H3] & H4 & H5).
  exists m', l', (fexp (Zdigits2 m + e)). split; [|exact H5].
  constructor; auto. apply fexp_ge_emin.
Qed.

Lemma bpow_Zpow k e : 0 <= k -> (val (2 ^ k) e == bpow (k + e))%Q.
Proof. intros Hk. unfold val. rewrite bpow_plus, (bpow_Z k Hk). reflexivity. Qed.

(** Rounding is monotone, on the rounded mantissas. *)
Lemma cell_monotone u v mu lu cu mv lv cv :
  cell u mu lu cu -> cell v mv lv cv -> (u <= v)%Q ->
  (val (round_nearest_even mu lu) cu <= val (round_nearest_even mv lv) cv)%Q.
Proof.
  intros [Hcu Hiu Hlu Hhu Hnu] [Hcv Hiv Hlv Hhv Hnv] Huv.
  pose proof (inb_bounds _ _ _ _ Hiu) as [Hu1 Hu2].
  pose proof (inb_bounds _ _ _ _ Hiv) as [Hv1 Hv2].
  pose proof (round_nearest_even_bounds mu lu) as Hwu.
  pose proof (round_nearest_even_bounds mv lv) as Hwv.
  assert (0 <= prec - 1) as Hp1 by (unfold prec; lia).
  assert (0 <= prec) as Hp by (unfold prec; lia).
  destruct (Z.lt_trichotomy cu cv) as [Hlt|[Heq|Hgt]].
  - (* the format of [v] is above that of [u] *)
    specialize (Hnv ltac:(lia)).
    assert (val (round_nearest_even mu lu) cu <= val (2 ^ prec) cu)%Q
      by (apply val_le; lia).
    assert (val (2 ^ (prec - 1)) cv <= val (round_nearest_even mv lv) cv)%Q
      by (apply val_le; lia).
    rewrite bpow_Zpow in H, H0 by assumption.
    assert (bpow (prec + cu) <= bpow (prec - 1 + cv))%Q by (apply bpow_le; lia).
    lra.
  - subst cv.
    assert (mu <= mv) as Hm.
    { assert (val mu cu < val (mv + 1) cu)%Q as Hlt by lra.
      apply val_lt_inv in Hlt. lia. }
    destruct (Z.eq_dec mu mv) as [->|Hne].
    + apply val_le.
      assert (val (2 * mv + 1) cu == 2 * val mv cu + bpow cu)%Q as Emid.
      { unfold val. rewrite inject_Z_plus, inject_Z_mult.
        change (inject_Z 1) with 1%Q. change (inject_Z 2) with 2%Q. ring. }
      assert (val (mv + 1) cu == val mv cu + bpow cu)%Q as Eup.
      { unfold val. rewrite inject_Z_plus. change (inject_Z 1) with 1%Q. ring. }
      pose proof (bpow_pos cu) as HP.
      destruct lu as [|[]], lv as [|[]]; simpl in *; try lia;
        try (destruct (Z.even mv); lia);
        exfalso; rewrite ?Emid, ?Eup in *; lra.
    + apply val_le. lia.
  - (* impossible: the format of [u] is above that of [v] *)
    exfalso. specialize (Hnu ltac:(lia)).
    assert (val (2 ^ (prec - 1)) cu <= val mu cu)%Q by (apply val_le; lia).
    assert (val (mv + 1) cv <= val (2 ^ prec) cv)%Q by (apply val_le; lia).
    rewrite bpow_Zpow in H, H0 by assumption.
    assert (bpow (prec + cv) <= bpow (prec - 1 + cu))%Q by (apply bpow_le; lia).
    lra.
Qed.

(** Canonical mantissas. *)
Lemma canonical_bounds m e :
  canonical m e ->
  emin <= e /\ Zpos m < 2 ^ prec /\ (emin < e -> 2 ^ (prec - 1) <= Zpos m).
Proof.
  unfold canonical. rewrite fexp_spec. intros H.
  destruct (digits2_pos_bounds m) as [Hlo Hhi].
  unfold emin, SpecFloat.emin, emax, prec. split; [lia|]. split.
  - assert (2 ^ Zpos (digits2_pos m) <= 2 ^ 53) by (apply Z.pow_le_mono_r; lia). lia.
  - intros He. assert (Zpos (digits2_pos m) = 53) as Hd by lia.
    rewrite Hd in Hlo. exact Hlo.
Qed.

Lemma val_pos m e : 0 < m -> (0 < val m e)%Q.
Proof.
  intros H. unfold val. apply Qmult_lt_0_compat; [|apply bpow_pos].
  change 0%Q with (inject_Z 0). rewrite <- Zlt_Qlt. exact H.
Qed.

Lemma canonical_lt m1 e1 m2 e2 :
  canonical m1 e1 -> canonical m2 e2 -> e1 < e2 ->
  (val (Zpos m1) e1 < val (Zpos m2) e2)%Q.
Proof.
  intros H1 H2 He.
  destruct (canonical_bounds _ _ H1) as (Hm1 & Hhi & _).
  destruct (canonical_bounds _ _ H2) as (_ & _ & Hlo). specialize (Hlo ltac:(lia)).
  assert (val (Zpos m1) e1 < val (2 ^ prec) e1)%Q by (apply val_lt; lia).
  assert (val (2 ^ (prec - 1)) e2 <= val (Zpos m2) e2)%Q by (apply val_le; lia).
  rewrite bpow_Zpow in H, H0 by (unfold prec; lia).
  assert (bpow (prec + e1) <= bpow (prec - 1 + e2))%Q by (apply bpow_le; lia).
  lra.
Qed.

Lemma valid_finite s m e :
  valid (S754_finite s m e) <-> canonical m e /\ e <= emax - prec.
Proof.
  unfold valid, valid_binary, bounded, canonical_mantissa, canonical.
  change (SpecFloat.fexp prec emax) with fexp.
  rewrite andb_true_iff, Z.eqb_eq, Z.leb_le. reflexivity.
Qed.

(** The comparison of the language is that of the values. *)
Lemma SFcompare_spec f1 f2 :
  valid f1 -> valid f2 -> finite f1 -> finite f2 ->
  exists c, SFcompare f1 f2 = Some c /\ cmp_spec c (F2Q f1) (F2Q f2).
Proof.
  intros V1 V2 F1 F2.
  destruct f1 as [s1| | |s1 m1 e1], f2 as [s2| | |s2 m2 e2]; try contradiction.
  - exists Eq. split; [reflexivity|]. simpl. reflexivity.
  - pose proof (val_pos (Zpos m2) e2 ltac:(lia)).
    exists (if s2 then Gt else Lt). destruct s2; (split; [reflexivity|]); simpl; lra.
  - pose proof (val_pos (Zpos m1) e1 ltac:(lia)).
    exists (if s1 then Lt else Gt). destruct s1; (split; [reflexivity|]); simpl; lra.
  - apply valid_finite in V1 as [C1 _]. apply valid_finite in V2 as [C2 _].
    pose proof (val_pos (Zpos m1) e1 ltac:(lia)).
    pose proof (val_pos (Zpos m2) e2 ltac:(lia)).
    assert (cmp_spec (match e1 ?= e2 with
                      | Lt => Lt | Gt => Gt | Eq => Pos.compare_cont Eq m1 m2 end)
                     (val (Zpos m1) e1) (val (Zpos m2) e2)) as Hc.
    { destruct (Z.compare_spec e1 e2) as [->|Hlt|Hgt].
      - change (Pos.compare_cont Eq m1 m2) with (Pos.compare m1 m2).
        destruct (Pos.compare_spec m1 m2) as [->|Hlt|Hgt]; simpl.
        + reflexivity.
        + apply val_lt. lia.
        + apply val_lt. lia.
      - simpl. by apply canonical_lt.
      - simpl. by apply canonical_lt. }
    simpl SFcompare. destruct s1, s2; eexists; (split; [reflexivity|]); simpl F2Q.
    + destruct (e1 ?= e2); [destruct (Pos.compare_cont Eq m1 m2)| |]; simpl in *; lra.
    + simpl. lra.
    + simpl. lra.
    + exact Hc.
Qed.

Lemma SFleb_le f1 f2 :
  valid f1 -> valid f2 -> finite f1 -> finite f2 ->
  SFleb f1 f2 = true <-> (F2Q f1 <= F2Q f2)%Q.
Proof.
  intros V1 V2 F1 F2. destruct (SFcompare_spec f1 f2 V1 V2 F1 F2) as (c & Hc & Hs).
  unfold SFleb. rewrite Hc. destruct c; simpl in Hs; split; intros; try done; lra.
Qed.

Lemma SFltb_lt f1 f2 :
  valid f1 -> valid f2 -> finite f1 -> finite f2 ->
  SFltb f1 f2 = true <-> (F2Q f1 < F2Q f2)%Q.
Proof.
  intros V1 V2 F1 F2. destruct (SFcompare_spec f1 f2 V1 V2 F1 F2) as (c & Hc & Hs).
  unfold SFltb. rewrite Hc. destruct c; simpl in Hs; split; intros; try done; lra.
Qed.

(** What rounding returns. *)
Lemma Rnd_result s x f :
  Rnd s x f ->
  exists m l c,
    cell x m l c /\
    ((round_nearest_even m l = 0 /\ f = S754_zero s) \/
     (0 < round_nearest_even m l /\
      exists m3 e3,
        (val (Zpos m3) e3 == val (round_nearest_even m l) c)%Q /\ canonical m3 e3 /\
        f = if Z.leb e3 (emax - prec) then S754_finite s m3 e3 else S754_infinity s)).
Proof.
  intros (m & l & c & Hcell & ->)%Rnd_cell. exists m, l, c. split; [exact Hcell|].
  destruct Hcell as [Hc _ Hlo Hhi Hn].
  pose proof (round_nearest_even_bounds m l) as Hw.
  destruct (finalize_spec s (round_nearest_even m l) c) as [H0 H1]; [lia|exact Hc| |].
  { intros He. specialize (Hn He). lia. }
  destruct (Z.eq_dec (round_nearest_even m l) 0) as [E|E].
  - left. split; [exact E|]. by apply H0.
  - right. split; [lia|]. destruct H1 as (m3 & e3 & Hf & Hv & Hcan & _); [lia|].
    exists m3, e3. auto.
Qed.

Lemma Rnd_valid s x f : Rnd s x f -> valid f.
Proof.
  intros (m & l & c & _ & [[_ ->]|(_ & m3 & e3 & _ & Hcan & ->)])%Rnd_result; [done|].
  destruct (Z.leb_spec e3 (emax - prec)); [|done]. by apply valid_finite.
Qed.

Lemma Rnd_nonneg x f : Rnd false x f -> forall m e, f <> S754_finite true m e.
Proof.
  intros (m & l & c & _ & [[_ ->]|(_ & m3 & e3 & _ & Hcan & ->)])%Rnd_result; [done|].
  intros m' e'. by destruct (Z.leb e3 (emax - prec)).
Qed.

(** Rounding is monotone. *)
Theorem Rnd_monotone u v fu fv :
  Rnd false u fu -> Rnd false v fv -> (u <= v)%Q -> finite fv ->
  finite fu /\ (F2Q fu <= F2Q fv)%Q.
Proof.
  intros (mu & lu & cu & Hcu & Hu)%Rnd_result (mv & lv & cv & Hcv & Hv)%Rnd_result Huv Hfin.
  pose proof (cell_monotone u v mu lu cu mv lv cv Hcu Hcv Huv) as Hmono.
  destruct Hu as [[Hwu ->]|(Hwu & m3u & e3u & Evu & Canu & ->)].
  - split; [done|]. simpl.
    destruct Hv as [[_ ->]|(_ & m3v & e3v & _ & _ & ->)]; [simpl; lra|].
    destruct (Z.leb e3v (emax - prec)); [|done]. simpl.
    apply Qlt_le_weak, val_pos. lia.
  - pose proof (val_pos (Zpos m3u) e3u ltac:(lia)) as Hpos.
    destruct Hv as [[Hwv ->]|(Hwv & m3v & e3v & Evv & Canv & ->)].
    { exfalso. rewrite Hwv in Hmono. unfold val at 2 in Hmono.
      change (inject_Z 0) with 0%Q in Hmono. lra. }
    destruct (Z.leb_spec e3v (emax - prec)) as [Hev|]; [|done].
    assert (e3u <= e3v) as He.
    { destruct (Z_le_gt_dec e3u e3v) as [?|Hgt]; [assumption|].
      pose proof (canonical_lt m3v e3v m3u e3u Canv Canu ltac:(lia)). lra. }
    destruct (Z.leb_spec e3u (emax - prec)); [|lia].
    split; [done|]. simpl. lra.
Qed.

(** A valid float is its own rounding. *)
Lemma Rnd_exact m e :
  valid (S754_finite false m e) -> Rnd false (val (Zpos m) e) (S754_finite false m e).
Proof.
  intros [Hcan Hb]%valid_finite. exists (Zpos m), e, loc_Exact.
  split; [lia|]. split; [simpl; reflexivity|].
  unfold canonical in Hcan. cbn [Zdigits2]. rewrite Hcan. split; [lia|].
  unfold binary_round_aux, shr_fexp. cbn [Zdigits2].
  change (SpecFloat.fexp prec emax) with fexp. rewrite Hcan, Z.sub_diag.
  cbn [shr shr_record_of_loc shr_m loc_of_shr_record round_nearest_even Zdigits2].
  rewrite Hcan, Z.sub_diag. cbn [shr shr_record_of_loc shr_m].
  destruct (Z.leb_spec e (emax - prec)); [done|lia].
Qed.

(** A rounding stays at or below the floats above the number. *)
Corollary Rnd_upper x f m e :
  Rnd false x f -> valid (S754_finite false m e) -> (x <= val (Zpos m) e)%Q ->
  finite f /\ (F2Q f <= val (Zpos m) e)%Q.
Proof.
  intros Hf Hv Hx.
  apply (Rnd_monotone x (val (Zpos m) e) f (S754_finite false m e) Hf); [|done|done].
  by apply Rnd_exact.
Qed.

(** ... and at or above the floats below it. *)
Corollary Rnd_lower x f m e :
  Rnd false x f -> valid (S754_finite false m e) -> (val (Zpos m) e <= x)%Q ->
  finite f -> (val (Zpos m) e <= F2Q f)%Q.
Proof.
  intros Hf Hv Hx Hfin.
  by apply (Rnd_monotone (val (Zpos m) e) x (S754_finite false m e) f (Rnd_exact m e Hv) Hf).
Qed.

Lemma inb_proper m e l x y : (x == y)%Q -> inb m e l x -> inb m e l y.
Proof.
  intros E. destruct l as [|[]]; simpl; rewrite E; auto.
Qed.

Lemma Rnd_proper s x y f : (x == y)%Q -> Rnd s x f -> Rnd s y f.
Proof.
  intros E (m & e & l & H1 & H2 & H3 & H4). exists m, e, l.
  split; [exact H1|]. split; [by apply (inb_proper m e l x)|]. auto.
Qed.

Lemma pos_iter_xO m d : Zpos (Pos.iter xO m d) = Zpos m * 2 ^ Zpos d.
Proof.
  induction d as [|d IH] using Pos.peano_ind.
  - simpl. lia.
  - rewrite Pos.iter_succ, Pos2Z.inj_xO, IH, Pos2Z.inj_succ, Z.pow_succ_r by lia. ring.
Qed.

Lemma val_mul_pow m k e : 0 <= k -> (val (m * 2 ^ k) e == val m (k + e))%Q.
Proof.
  intros Hk. unfold val. rewrite inject_Z_mult, bpow_plus, (bpow_Z k Hk). ring.
Qed.

Lemma shl_align_spec m e e' :
  let '(mz, ez) := shl_align m e e' in
  ez = Z.min e e' /\ Zpos mz = Zpos m * 2 ^ (e - ez).
Proof.
  unfold shl_align. destruct (e' - e) as [|p|p] eqn:E.
  - split; [lia|]. rewrite Z.sub_diag. simpl. lia.
  - split; [lia|]. rewrite Z.sub_diag. simpl. lia.
  - split; [lia|]. rewrite pos_iter_xO. f_equal. f_equal. lia.
Qed.

Lemma shl_align_val m e e' :
  (val (Zpos (fst (shl_align m e e'))) (snd (shl_align m e e')) == val (Zpos m) e)%Q.
Proof.
  pose proof (shl_align_spec m e e') as H. destruct (shl_align m e e') as [mz ez].
  destruct H as [Hez Hmz]. cbn [fst snd]. rewrite Hmz, val_mul_pow by lia.
  replace (e - ez + ez) with e by lia. reflexivity.
Qed.

Lemma Zdigits2_mul_pow m k : 0 < m -> 0 <= k -> Zdigits2 (m * 2 ^ k) = Zdigits2 m + k.
Proof.
  intros Hm Hk. destruct (Zdigits2_bounds m Hm) as [Hlo Hhi].
  pose proof (Zdigits2_nonneg m) as Hd.
  assert (0 < Zdigits2 m).
  { destruct (Z.eq_dec (Zdigits2 m) 0) as [E|]; [|lia]. rewrite E in Hhi. simpl in Hhi. lia. }
  pose proof (pow2_pos k Hk) as Hp.
  apply Z.le_antisymm.
  - apply Zdigits2_le; [lia|lia|]. rewrite Z.pow_add_r by lia. nia.
  - apply Zdigits2_ge; [lia|].
    replace (Zdigits2 m + k - 1) with (Zdigits2 m - 1 + k) by lia.
    rewrite Z.pow_add_r by lia. nia.
Qed.

Lemma binary_round_Rnd s m e : Rnd s (val (Zpos m) e) (binary_round prec emax s m e).
Proof.
  unfold binary_round. change (SpecFloat.fexp prec emax) with fexp.
  set (t := fexp (Zpos (digits2_pos m) + e)).
  pose proof (shl_align_spec m e t) as H. pose proof (shl_align_val m e t) as Hv.
  destruct (shl_align m e t) as [mz ez]. destruct H as [Hez Hmz]. simpl in Hv.
  exists (Zpos mz), ez, loc_Exact. split; [lia|]. split; [simpl; by rewrite Hv|].
  split; [|reflexivity].
  assert (Zdigits2 (Zpos mz) = Zdigits2 (Zpos m) + (e - ez)) as Hd.
  { rewrite Hmz. apply Zdigits2_mul_pow; lia. }
  rewrite Hd.
  replace (Zdigits2 (Zpos m) + (e - ez) + ez) with (Zpos (digits2_pos m) + e)
    by (simpl Zdigits2; lia).
  fold t. lia.
Qed.

Lemma valid_opp s m e : valid (S754_finite s m e) -> valid (S754_finite false m e).
Proof. intros H. exact H. Qed.

(** Subtraction of a smaller float. *)
Lemma SFsub_spec x a :
  valid x -> valid a -> finite x -> finite a -> (F2Q a <= F2Q x)%Q ->
  ((F2Q x - F2Q a == 0)%Q -> exists s, SFsub prec emax x a = S754_zero s) /\
  ((0 < F2Q x - F2Q a)%Q -> Rnd false (F2Q x - F2Q a) (SFsub prec emax x a)).
Proof.
  intros Vx Va Fx Fa Hle.
  destruct x as [sx| | |sx mx ex], a as [sa| | |sa ma ea]; try contradiction.
  - split; [|simpl; lra]. intros _. destruct sx, sa; simpl; eauto.
  - pose proof (val_pos (Zpos ma) ea ltac:(lia)) as Hp.
    destruct sa; simpl in Hle; [|lra]. simpl. split; [lra|]. intros _.
    apply (Rnd_proper false (val (Zpos ma) ea)); [ring|]. by apply Rnd_exact.
  - pose proof (val_pos (Zpos mx) ex ltac:(lia)) as Hp.
    destruct sx; simpl in Hle; [lra|]. simpl. split; [lra|]. intros _.
    apply (Rnd_proper false (val (Zpos mx) ex)); [ring|]. by apply Rnd_exact.
  - cbn [SFsub]. set (ez := Z.min ex ea).
    pose proof (shl_align_spec mx ex ez) as Hx. pose proof (shl_align_spec ma ea ez) as Ha.
    destruct (shl_align mx ex ez) as [mx' ex'], (shl_align ma ea ez) as [ma' ea'].
    destruct Hx as [Hex Hmx], Ha as [Hea Hma]. cbn [fst].
    set (z := cond_Zopp sx (Zpos mx') - cond_Zopp sa (Zpos ma')).
    assert (val z ez == F2Q (S754_finite sx mx ex) - F2Q (S754_finite sa ma ea))%Q as Hz.
    { assert (val (Zpos mx') ez == val (Zpos mx) ex)%Q as E1.
      { rewrite Hmx, val_mul_pow by lia. replace (ex - ex' + ez) with ex by lia. reflexivity. }
      assert (val (Zpos ma') ez == val (Zpos ma) ea)%Q as E2.
      { rewrite Hma, val_mul_pow by lia. replace (ea - ea' + ez) with ea by lia. reflexivity. }
      assert (forall m, val (- m) ez == - val m ez)%Q as Hopp.
      { intros m. unfold val. rewrite inject_Z_opp. ring. }
      subst z. unfold Z.sub. rewrite val_plus, Hopp.
      destruct sx, sa; cbn [cond_Zopp F2Q]; rewrite ?Hopp, E1, E2; ring. }
    unfold binary_normalize. destruct z as [|p|p].
    + split; [eauto|]. unfold val in Hz. change (inject_Z 0) with 0%Q in Hz. lra.
    + pose proof (val_pos (Zpos p) ez ltac:(lia)). split; [lra|]. intros _.
      apply (Rnd_proper false (val (Zpos p) ez)); [exact Hz|]. apply binary_round_Rnd.
    + exfalso. assert (val (Zneg p) ez < 0)%Q; [|lra].
      assert (val (Zneg p) ez == - val (Zpos p) ez)%Q as ->.
      { unfold val. change (Zneg p) with (- Zpos p). rewrite inject_Z_opp. ring. }
      pose proof (val_pos (Zpos p) ez ltac:(lia)). lra.
Qed.

Lemma new_location_spec nb r :
  0 < nb -> 0 <= r < nb ->
  new_location nb r = if r =? 0 then loc_Exact else loc_Inexact (Z.compare (2 * r) nb).
Proof.
  intros Hnb Hr. unfold new_location, new_location_even, new_location_odd.
  destruct (Z.even nb) eqn:Heven; [reflexivity|].
  destruct (Z.eqb_spec r 0); [reflexivity|]. f_equal.
  assert (Z.odd nb = true) as Hodd by (rewrite <- Z.negb_even, Heven; reflexivity).
  apply Z.odd_spec in Hodd as [k Hk].
  destruct (Z.compare_spec (2 * r + 1) nb), (Z.compare_spec (2 * r) nb); try reflexivity; lia.
Qed.

(** Division of positive floats. *)
Lemma SFdiv_Rnd m1 e1 m2 e2 x :
  (x * val (Zpos m2) e2 == val (Zpos m1) e1)%Q ->
  Rnd false x (SFdiv prec emax (S754_finite false m1 e1) (S754_finite false m2 e2)).
Proof.
  intros Hx. cbn [SFdiv xorb]. unfold SFdiv_core_binary.
  change (SpecFloat.fexp prec emax) with fexp.
  set (d1 := Zdigits2 (Zpos m1)). set (d2 := Zdigits2 (Zpos m2)).
  set (e' := Z.min (fexp (d1 + e1 - (d2 + e2))) (e1 - e2)).
  set (s := e1 - e2 - e').
  assert (0 <= s) as Hs by (subst s e'; lia).
  set (m' := match s with Z.pos _ => Z.shiftl (Zpos m1) s | 0 => Zpos m1 | Z.neg _ => 0 end).
  assert (m' = Zpos m1 * 2 ^ s) as Em'.
  { subst m'. destruct s as [|p|p]; [simpl; lia| |lia]. apply Z.shiftl_mul_pow2. lia. }
  clearbody m'.
  pose proof (Z_div_mod m' (Zpos m2) ltac:(lia)) as Hdiv.
  destruct (Z.div_eucl m' (Zpos m2)) as [q r]. destruct Hdiv as [Eq Hr].
  pose proof (pow2_pos s Hs) as Hpow.
  assert (0 <= q) as Hq by nia.
  exists q, e', (new_location (Zpos m2) r). split; [exact Hq|].
  (* the quotient, on the scale of [e'] *)
  assert (x * inject_Z (Zpos m2) == (inject_Z q * inject_Z (Zpos m2) + inject_Z r) * bpow e')%Q
    as Hxq.
  { assert (inject_Z q * inject_Z (Zpos m2) + inject_Z r == inject_Z (Zpos m1) * bpow s)%Q as ->.
    { rewrite (bpow_Z s Hs), <- !inject_Z_mult, <- inject_Z_plus.
      replace (q * Zpos m2 + r) with (Zpos m1 * 2 ^ s) by lia. reflexivity. }
    unfold val in Hx. pose proof (bpow_pos e2) as Hp2.
    assert (bpow e1 == bpow s * bpow e' * bpow e2)%Q as E1.
    { rewrite <- !bpow_plus. replace (s + e' + e2) with e1 by (subst s; lia). reflexivity. }
    rewrite E1 in Hx. nra. }
  split; [|split; [|reflexivity]].
  - rewrite new_location_spec by lia.
    assert (0 < inject_Z (Zpos m2))%Q as HM2.
    { change 0%Q with (inject_Z 0). rewrite <- Zlt_Qlt. lia. }
    assert (0 <= inject_Z r < inject_Z (Zpos m2))%Q as HR.
    { change 0%Q with (inject_Z 0). rewrite <- Zle_Qle, <- Zlt_Qlt. lia. }
    pose proof (bpow_pos e') as HE.
    assert (val q e' == inject_Z q * bpow e')%Q as Vq by reflexivity.
    assert (val (q + 1) e' == inject_Z q * bpow e' + bpow e')%Q as Vq1.
    { unfold val. rewrite inject_Z_plus. change (inject_Z 1) with 1%Q. ring. }
    assert (val (2 * q + 1) e' == 2 * (inject_Z q * bpow e') + bpow e')%Q as Vq2.
    { unfold val. rewrite inject_Z_plus, inject_Z_mult.
      change (inject_Z 1) with 1%Q. change (inject_Z 2) with 2%Q. ring. }
    set (Q0 := (inject_Z q * bpow e')%Q) in *.
    set (M := inject_Z (Zpos m2)) in *. set (R := inject_Z r) in *. set (E := bpow e') in *.
    assert (x * M == Q0 * M + R * E)%Q as Hxq' by (rewrite Hxq; subst Q0; ring).
    destruct (Z.eqb_spec r 0) as [->|Hr0].
    + simpl. rewrite Vq. change (inject_Z 0) with 0%Q in *. subst R. nra.
    + assert (0 < R)%Q as HR0.
      { subst R. change 0%Q with (inject_Z 0). rewrite <- Zlt_Qlt. lia. }
      assert (2 * inject_Z r == inject_Z (2 * r))%Q as E2r
        by (rewrite inject_Z_mult; reflexivity).
      destruct (Z.compare_spec (2 * r) (Zpos m2)) as [E0|Hlt|Hgt];
        cbn [inb]; rewrite Vq, Vq1, Vq2; (split; [nra|]); (split; [nra|]).
      * assert (2 * R == M)%Q by (subst R M; rewrite E2r, E0; reflexivity). nra.
      * assert (2 * R < M)%Q by (subst R M; rewrite E2r, <- Zlt_Qlt; lia). nra.
      * assert (M < 2 * R)%Q by (subst R M; rewrite E2r, <- Zlt_Qlt; lia). nra.
  - (* enough digits in the quotient *)
    rewrite fexp_spec.
    destruct (Z_le_gt_dec e' (-1074)) as [?|He]; [lia|].
    assert (e' <= d1 + e1 - (d2 + e2) - 53) as He'.
    { subst e'. rewrite fexp_spec in *. lia. }
    assert (53 <= Zdigits2 q); [|lia].
    apply Zdigits2_ge; [lia|].
    destruct (Zdigits2_bounds (Zpos m1) ltac:(lia)) as [H1 _].
    destruct (Zdigits2_bounds (Zpos m2) ltac:(lia)) as [_ H2].
    fold d1 in H1. fold d2 in H2.
    pose proof (Zdigits2_nonneg (Zpos m2)) as Hd2. fold d2 in Hd2.
    assert (0 < d1) as Hd1.
    { subst d1. simpl. lia. }
    assert (2 ^ (53 - 1) * Zpos m2 <= m') as Hle.
    { rewrite Em'.
      assert (2 ^ (53 - 1) * 2 ^ d2 <= 2 ^ (d1 - 1) * 2 ^ s).
      { rewrite <- !Z.pow_add_r by lia. apply Z.pow_le_mono_r; subst s; lia. }
      assert (0 < 2 ^ (53 - 1)) by (apply pow2_pos; lia).
      nia. }
    assert (q = m' / Zpos m2) as ->.
    { apply Z.div_unique with r; lia. }
    apply Z.div_le_lower_bound; lia.
Qed.

(** Multiplication of a positive float by one with a full mantissa. *)
Lemma SFmul_Rnd m1 e1 m2 e2 :
  2 ^ (prec - 1) <= Zpos m2 ->
  Rnd false (val (Zpos m1) e1 * val (Zpos m2) e2)
    (SFmul prec emax (S754_finite false m1 e1) (S754_finite false m2 e2)).
Proof.
  intros Hm2. cbn [SFmul xorb].
  exists (Zpos (m1 * m2)), (e1 + e2), loc_Exact.
  split; [lia|]. split; [|split; [|reflexivity]].
  - simpl. unfold val. rewrite Pos2Z.inj_mul, inject_Z_mult, bpow_plus. ring.
  - rewrite fexp_spec. assert (53 <= Zdigits2 (Zpos (m1 * m2))); [|lia].
    apply Zdigits2_ge; [lia|]. unfold prec in Hm2. rewrite Pos2Z.inj_mul. nia.
Qed.

(** Valid floats are multiples of the least positive one. *)
Lemma valid_grid f :
  valid f -> finite f -> exists k, (F2Q f == val k emin)%Q.
Proof.
  intros V F. destruct f as [s| | |s m e]; try contradiction.
  - exists 0. unfold val. simpl. ring.
  - apply valid_finite in V as [Hcan _]. apply canonical_bounds in Hcan as [He _].
    assert (val (Zpos m * 2 ^ (e - emin)) emin == val (Zpos m) e)%Q as E.
    { rewrite val_mul_pow by lia. replace (e - emin + emin) with e by lia. reflexivity. }
    destruct s.
    + exists (- (Zpos m * 2 ^ (e - emin))). simpl F2Q. rewrite <- E.
      unfold val. rewrite inject_Z_opp. ring.
    + exists (Zpos m * 2 ^ (e - emin)). simpl F2Q. by rewrite E.
Qed.

Lemma F2Q_hundred : (F2Q hundred == 100)%Q.
Proof. vm_compute. reflexivity. Qed.

Lemma F2Q_one : (F2Q one == 1)%Q.
Proof. vm_compute. reflexivity. Qed.

Lemma finite_F2Q_pos f :
  finite f -> (0 < F2Q f)%Q -> exists m e, f = S754_finite false m e.
Proof.
  destruct f as [| | |[] m e]; try contradiction; simpl; intros _ H; try lra.
  - pose proof (val_pos (Zpos m) e ltac:(lia)). lra.
  - eauto.
Qed.

Lemma Rnd_finite_cases x f :
  Rnd false x f -> finite f ->
  f = S754_zero false \/ exists m e, f = S754_finite false m e.
Proof.
  intros H F. pose proof (Rnd_nonneg x f H) as Hn.
  apply Rnd_result in H as (m & l & c & _ & [[_ ->]|(_ & m3 & e3 & _ & _ & ->)]); [by left|].
  right. destruct (Z.leb e3 (emax - prec)); [eauto|contradiction].
Qed.

Lemma SFmul_zero_hundred s :
  SFleb (S754_zero false) (SFmul prec emax (S754_zero s) hundred) = true /\
  SFleb (SFmul prec emax (S754_zero s) hundred) hundred = true.
Proof. by destruct s. Qed.

(** The progress of a value within a range that does not overflow is
    between 0 and 100. *)
Theorem progress_range v a b :
  valid v -> valid a -> valid b ->
  SFleb a v = true -> SFleb v b = true -> SFltb a b = true ->
  finite (SFsub prec emax b a) ->
  let r := SFmul prec emax
             (SFdiv prec emax (SFsub prec emax v a) (SFsub prec emax b a)) hundred in
  SFleb (S754_zero false) r = true /\ SFleb r hundred = true.
Proof.
  intros Vv Va Vb Hav Hvb Hab Hfin r.
  assert (finite b /\ finite a) as [Fb Fa].
  { destruct b as [| | |], a as [| | |]; try (split; exact I);
      cbn [SFsub finite] in Hfin; try contradiction;
      repeat match goal with s : bool |- _ => destruct s end; contradiction. }
  assert (finite v) as Fv.
  { destruct v as [|[]| |]; try exact I;
      destruct a as [| | |[]], b as [| | |[]]; try contradiction;
      (discriminate Hav || discriminate Hvb). }
  apply (SFleb_le a v Va Vv Fa Fv) in Hav.
  apply (SFleb_le v b Vv Vb Fv Fb) in Hvb.
  apply (SFltb_lt a b Va Vb Fa Fb) in Hab.
  (* the width of the range *)
  destruct (SFsub_spec b a Vb Va Fb Fa ltac:(lra)) as [_ H2]. specialize (H2 ltac:(lra)).
  set (n2 := SFsub prec emax b a) in *.
  assert (0 < F2Q n2)%Q as Hn2.
  { destruct (valid_grid b Vb Fb) as [kb Eb], (valid_grid a Va Fa) as [ka Ea].
    assert (ka < kb) as Hk by (apply (val_lt_inv _ _ emin); lra).
    assert (val 1 emin <= F2Q b - F2Q a)%Q as Hle.
    { rewrite Eb, Ea. assert (val (ka + 1) emin <= val kb emin)%Q by (apply val_le; lia).
      rewrite val_plus in H. lra. }
    pose proof (Rnd_lower _ n2 1 emin H2 eq_refl Hle Hfin) as Hlow.
    pose proof (val_pos 1 emin ltac:(lia)). simpl in Hlow. lra. }
  destruct (finite_F2Q_pos n2 Hfin Hn2) as (m2 & e2 & E2).
  (* the offset of the value *)
  destruct (SFsub_spec v a Vv Va Fv Fa Hav) as [H0 H1].
  set (n1 := SFsub prec emax v a) in *.
  assert (n1 = S754_zero false \/ n1 = S754_zero true \/
          (exists m1 e1, n1 = S754_finite false m1 e1 /\ (F2Q n1 <= F2Q n2)%Q)) as Hn1.
  { destruct (Qlt_le_dec 0 (F2Q v - F2Q a)) as [Hpos|Hzero].
    - specialize (H1 Hpos).
      destruct (Rnd_monotone _ _ n1 n2 H1 H2 ltac:(lra) Hfin) as [F1 Hle].
      destruct (Rnd_finite_cases _ n1 H1 F1) as [->|(m1 & e1 & E1)]; [by left|].
      right. right. exists m1, e1. by rewrite <- E1.
    - destruct H0 as [[] ->]; [lra|by right; left|by left]. }
  subst r. rewrite E2 in *.
  destruct Hn1 as [->|[->|(m1 & e1 & E1 & Hle)]];
    [apply (SFmul_zero_hundred false)|apply (SFmul_zero_hundred true)|].
  rewrite E1 in *. simpl F2Q in Hle, Hn2.
  (* the quotient *)
  set (V1 := val (Zpos m1) e1) in *. set (V2 := val (Zpos m2) e2) in *.
  assert (0 < V1)%Q as HV1 by (apply val_pos; lia).
  pose proof (SFdiv_Rnd m1 e1 m2 e2 (V1 / V2)) as Hq.
  specialize (Hq ltac:(fold V1 V2; field; lra)).
  set (q := SFdiv prec emax (S754_finite false m1 e1) (S754_finite false m2 e2)) in *.
  assert (V1 / V2 <= 1)%Q as Hx.
  { apply Qle_shift_div_r; [exact Hn2|]. lra. }
  destruct (Rnd_upper _ q _ _ Hq (eq_refl : valid one)) as [Fq Hq1].
  { rewrite F2Q_one. exact Hx. }
  rewrite F2Q_one in Hq1.
  destruct (Rnd_finite_cases _ q Hq Fq) as [->|(mq & eq & Eq)];
    [apply (SFmul_zero_hundred false)|].
  rewrite Eq in *. simpl F2Q in Hq1.
  (* the percentage *)
  pose proof (SFmul_Rnd mq eq 7036874417766400 (-46) ltac:(vm_compute; discriminate)) as Hr.
  fold hundred in Hr. change (val 7036874417766400 (-46)) with (F2Q hundred) in Hr.
  set (r := SFmul prec emax (S754_finite false mq eq) hundred) in *.
  assert (0 < val (Zpos mq) eq)%Q as HVq by (apply val_pos; lia).
  destruct (Rnd_upper _ r _ _ Hr (eq_refl : valid hundred)) as [Fr Hr1].
  { change (val 7036874417766400 (-46)) with (F2Q hundred). rewrite F2Q_hundred. nra. }
  change (val 7036874417766400 (-46)) with (F2Q hundred) in Hr1.
  pose proof (Rnd_valid _ _ _ Hr) as Vr.
  split.
  - apply (SFleb_le (S754_zero false) r); [done|done|done|done|]. simpl F2Q at 1.
    destruct (Rnd_finite_cases _ r Hr Fr) as [->|(mr & er & ->)]; simpl; [lra|].
    apply Qlt_le_weak, val_pos. lia.
  - by apply (SFleb_le r hundred).
Qed.

(** The numbers that the script computes with are valid floats. *)
Lemma valid_SFopp f : valid f -> valid (SFopp f).
Proof. by destruct f. Qed.

Lemma valid_of_Z z : valid (of_Z z).
Proof.
  unfold of_Z, binary_normalize. destruct z as [|p|p]; [done| |].
  - eapply Rnd_valid, binary_round_Rnd.
  - eapply Rnd_valid, binary_round_Rnd.
Qed.

Lemma valid_of_decimal m e : valid (of_decimal m e).
Proof.
  unfold of_decimal. destruct m as [|p|p]; [done| |done].
  destruct (Z.leb 0 e); [apply valid_of_Z|].
  set (p' := Z.to_pos (10 ^ (- e))).
  pose proof (val_pos (Zpos p') 0 ltac:(lia)) as Hp.
  apply (Rnd_valid false (val (Zpos p) 0 / val (Zpos p') 0)).
  apply SFdiv_Rnd. field. lra.
Qed.

Lemma valid_parse_radix radix s : valid (parse_radix radix s).
Proof.
  unfold parse_radix. destruct (take_digits radix s 0 0) as [[v len] rest].
  destruct rest; [|done].
  destruct (Z.ltb 0 len); [apply valid_of_Z|done].
Qed.

Lemma valid_parse_unsigned_decimal s : valid (parse_unsigned_decimal s).
Proof.
  unfold parse_unsigned_decimal. destruct (String.eqb s "Infinity"); [done|].
  destruct (take_digits 10 s 0 0) as [[m1 l1] r1].
  destruct (take_fraction m1 r1) as [[m2 l2] r2].
  destruct (Z.ltb 0 (l1 + l2)); [|done].
  destruct (parse_exponent r2); [apply valid_of_decimal|done].
Qed.

Lemma valid_StringToNumber s : valid (StringToNumber s).
Proof.
  unfold StringToNumber. destruct (trim s) as [|c t]; [done|].
  destruct (radix_prefix (String c t)) as [[radix r]|]; [apply valid_parse_radix|].
  destruct (sign_prefix (String c t)) as [[] r];
    [apply valid_SFopp|]; apply valid_parse_unsigned_decimal.
Qed.

Lemma valid_or_zero x : valid x -> valid (or_zero x).
Proof. by destruct x. Qed.

Lemma finite_is_finite x : finite x <-> is_finite x = true.
Proof. by destruct x. Qed.

Lemma of_Z_hundred : of_Z 100 = hundred.
Proof. vm_compute. reflexivity. Qed.

End RoundingFacts.

(** ** Facts about the document *)

Module DomFacts.
Import Dom.


Lemma node_eta n : mkNode (element n) (childNodes n) = n.
Proof. by destruct n. Qed.

Lemma element_at_nil n : element_at n [] = Some (element n).
Proof. done. Qed.

Lemma element_at_cons n i p :
  element_at n (i :: p) = childNodes n !! i ≫= fun c => element_at c p.
Proof. unfold element_at. simpl. by destruct (childNodes n !! i). Qed.

(** Reading after an in-place update. *)
Lemma element_at_alter f p n q :
  element_at (alter_element f p n) q
  = (if decide (q = p) then f else id) <$> element_at n q.
Proof.
  revert n q. induction p as [|i p IH]; intros n [|j q].
  - done.
  - rewrite !element_at_cons. simpl. by destruct (childNodes n !! j ≫= _).
  - simpl. by rewrite element_at_nil.
  - rewrite !element_at_cons. simpl.
    destruct (decide (i = j)) as [->|Hij].
    + rewrite list_lookup_alter_eq. destruct (childNodes n !! j) as [c|]; simpl; [|done].
      rewrite IH. repeat case_decide; congruence.
    + rewrite list_lookup_alter_ne by done.
      case_decide; [congruence|]. by destruct (childNodes n !! j ≫= _) .
Qed.

Lemma flat_mapi_alter {A B} (F : nat -> A -> list B) (g : A -> A) i s l :
  (forall j x, F j (g x) = F j x) ->
  flat_mapi F s (alter g i l) = flat_mapi F s l.
Proof.
  intros HF. revert i s. induction l as [|x l IH]; intros [|i] s; try done.
  - cbn. by rewrite HF.
  - cbn. f_equal. apply IH.
Qed.

Lemma paths_alter f p n : paths (alter_element f p n) = paths n.
Proof.
  revert n. induction p as [|i p IH]; intros [e kids]; simpl; [done|].
  apply flat_mapi_alter. intros j x. by rewrite IH.
Qed.

Lemma node_paths_alter f p' n p :
  paths <$> node_at (alter_element f p' n) p = paths <$> node_at n p.
Proof.
  revert n p'. induction p as [|j p IH]; intros n p'.
  - simpl. by rewrite paths_alter.
  - destruct p' as [|i p']; simpl; [done|].
    destruct (decide (i = j)) as [->|Hij].
    + rewrite list_lookup_alter_eq. destruct (childNodes n !! j); simpl; [apply IH|done].
    + by rewrite list_lookup_alter_ne.
Qed.

Lemma descendant_paths_alter f p' doc p :
  descendant_paths (alter_element f p' doc) p = descendant_paths doc p.
Proof.
  unfold descendant_paths. pose proof (node_paths_alter f p' doc p) as H.
  destruct (node_at (alter_element f p' doc) p), (node_at doc p); simpl in H; congruence.
Qed.


Lemma same_static_refl e : same_static e e.
Proof. by constructor. Qed.

Lemma same_static_sym e e' : same_static e e' -> same_static e' e.
Proof. intros [? ? ? ? ? H]. constructor; try done. intros c Hc. symmetry. by apply H. Qed.

Lemma same_static_trans e1 e2 e3 :
  same_static e1 e2 -> same_static e2 e3 -> same_static e1 e3.
Proof.
  intros [? ? ? ? ? H1] [? ? ? ? ? H2]. constructor; try congruence.
  intros c Hc. rewrite H1 by done. by apply H2.
Qed.

Lemma similar_refl d : similar d d.
Proof.
  constructor; [done|]. intros q. destruct (element_at d q); constructor.
  apply same_static_refl.
Qed.

Lemma similar_sym d d' : similar d d' -> similar d' d.
Proof.
  intros [Hp He]. constructor; [done|]. intros q.
  destruct (He q); constructor. by apply same_static_sym.
Qed.

Lemma similar_trans d1 d2 d3 : similar d1 d2 -> similar d2 d3 -> similar d1 d3.
Proof.
  intros [Hp1 He1] [Hp2 He2]. constructor; [congruence|]. intros q.
  specialize (He1 q). specialize (He2 q).
  destruct He1 as [e1 e2 H12|]; inversion He2 as [e2' e3 H23|]; subst;
    constructor. by eapply same_static_trans.
Qed.

Lemma similar_alter f p d :
  (forall e, same_static e (f e)) -> similar d (alter_element f p d).
Proof.
  intros Hf. constructor.
  - intros q. by rewrite descendant_paths_alter.
  - intros q. rewrite element_at_alter.
    destruct (element_at d q) as [e|]; constructor.
    case_decide; [apply Hf | apply same_static_refl].
Qed.

Lemma similar_element_at d d' q e :
  similar d d' -> element_at d q = Some e ->
  exists e', element_at d' q = Some e' /\ same_static e e'.
Proof.
  intros [_ He] Hq. specialize (He q). rewrite Hq in He.
  inversion He; subst. eauto.
Qed.

Lemma static_has_tag t : static (has_tag t).
Proof. intros e e' [_ Ht _ _ _ _]. unfold has_tag. by rewrite Ht. Qed.

Lemma static_is_html t : static (is_html t).
Proof. intros e e' [Hn Ht _ _ _ _]. unfold is_html. by rewrite Hn, Ht. Qed.

Lemma static_has_style : static has_style.
Proof. intros e e' [Hn _ _ _ _ _]. unfold has_style. by rewrite Hn. Qed.

Lemma static_has_class c : c ≠ "lower" -> static (has_class c).
Proof. intros Hc e e' H. by apply same_classes. Qed.

Lemma static_has_id id : static (has_id id).
Proof. intros e e' [_ _ Ha _ _ _]. unfold has_id. by rewrite Ha. Qed.

Lemma satisfies_similar P d d' q :
  static P -> similar d d' -> satisfies P d q <-> satisfies P d' q.
Proof.
  intros HP [_ He]. unfold satisfies. destruct (He q); [by apply HP|done].
Qed.

Lemma filter_satisfies_similar P `{!forall e, Decision (P e)} d d' (l : list Path) :
  static P -> similar d d' ->
  filter (satisfies P d) l = filter (satisfies P d') l.
Proof.
  intros HP Hs. apply list_filter_iff. intros q. by apply satisfies_similar.
Qed.

Lemma getElementsByTagName_similar d d' p t :
  similar d d' -> getElementsByTagName d p t = getElementsByTagName d' p t.
Proof.
  intros Hs. unfold getElementsByTagName. rewrite (similar_paths _ _ Hs).
  apply filter_satisfies_similar; [apply static_has_tag|done].
Qed.

Lemma getElementsByClassName_similar d d' p c :
  c ≠ "lower" -> similar d d' ->
  getElementsByClassName d p c = getElementsByClassName d' p c.
Proof.
  intros Hc Hs. unfold getElementsByClassName. rewrite (similar_paths _ _ Hs).
  apply filter_satisfies_similar; [by apply static_has_class|done].
Qed.

Lemma document_paths_similar d d' : similar d d' -> document_paths d = document_paths d'.
Proof. intros Hs. unfold document_paths. by rewrite (similar_paths _ _ Hs). Qed.

Lemma document_getElementsByClassName_similar d d' c :
  c ≠ "lower" -> similar d d' ->
  document_getElementsByClassName d c = document_getElementsByClassName d' c.
Proof.
  intros Hc Hs. unfold document_getElementsByClassName.
  rewrite (document_paths_similar _ _ Hs).
  apply filter_satisfies_similar; [by apply static_has_class|done].
Qed.

Lemma closest_similar d d' p c :
  c ≠ "lower" -> similar d d' -> closest d p c = closest d' p c.
Proof.
  intros Hc Hs. unfold closest. f_equal.
  apply filter_satisfies_similar; [by apply static_has_class|done].
Qed.

Lemma prop_value_static e e' : same_static e e' -> prop_value e = prop_value e'.
Proof.
  destruct e, e'. intros [Hn Ht Ha Hv Hx _]. unfold prop_value, is_html. simpl in *. by subst.
Qed.

Lemma reflected_static name e e' : same_static e e' -> reflected name e = reflected name e'.
Proof.
  destruct e, e'. intros [Hn Ht Ha _ _ _]. unfold reflected, is_html. simpl in *. by subst.
Qed.

Lemma getAttribute_static e e' name :
  same_static e e' -> getAttribute e name = getAttribute e' name.
Proof. intros [_ _ Ha _ _ _]. unfold getAttribute. by rewrite Ha. Qed.

Lemma prop_list_similar d d' e e' :
  similar d d' -> same_static e e' -> prop_list d e = prop_list d' e'.
Proof.
  intros Hs Hst. unfold prop_list.
  pose proof (static_is_html "input" e e' Hst) as Hi.
  rewrite <- (same_attributes _ _ Hst).
  destruct (decide (is_html "input" e)), (decide (is_html "input" e')); try tauto.
  destruct (attributes e !! "list") as [id|]; [|done].
  rewrite (document_paths_similar _ _ Hs).
  rewrite (filter_satisfies_similar (has_id id) d d') by (done || apply static_has_id).
  destruct (filter _ _) as [|q l]; [done|].
  pose proof (satisfies_similar (is_html "datalist") d d' q (static_is_html _) Hs).
  repeat case_decide; tauto.
Qed.

Lemma options_similar d d' p : similar d d' -> options d p = options d' p.
Proof.
  intros Hs. unfold options. rewrite (similar_paths _ _ Hs).
  apply filter_satisfies_similar; [apply static_is_html|done].
Qed.

Lemma prop_options_similar d d' p : similar d d' -> prop_options d p = prop_options d' p.
Proof.
  intros Hs. unfold prop_options. rewrite (options_similar d d' p Hs).
  pose proof (satisfies_similar (is_html "datalist") d d' p (static_is_html _) Hs).
  repeat case_decide; tauto.
Qed.

(** The list of a control is an HTML [datalist]. *)
Lemma prop_list_datalist d e l :
  prop_list d e = Some l -> satisfies (is_html "datalist") d l.
Proof.
  unfold prop_list. case_decide; [|done].
  destruct (attributes e !! "list") as [id|]; [|done].
  destruct (filter _ _) as [|q ?]; [done|].
  case_decide; [|done]. by intros [= <-].
Qed.

End DomFacts.

(** ** Facts about the script *)

Module SliderFacts.
Import JsNumber Dom DomFacts Slider.


Lemma Node_ind' (P : Node -> Prop) :
  (forall e kids, Forall P kids -> P (mkNode e kids)) -> forall n, P n.
Proof.
  intros H. fix IH 1. intros [e kids]. apply H.
  induction kids as [|k kids IHk]; constructor; [apply IH|apply IHk].
Qed.

(** A document is determined by the elements at its paths. *)
Lemma node_ext n n' : (forall q, element_at n q = element_at n' q) -> n = n'.
Proof.
  revert n'. induction n as [e kids IH] using Node_ind'. intros [e' kids'] H.
  f_equal.
  - specialize (H []). by inversion H.
  - apply list_eq. intros i. rewrite Forall_lookup in IH.
    pose proof (H [i]) as Hi. rewrite !element_at_cons in Hi. simpl in Hi.
    destruct (kids !! i) as [c|] eqn:Hc, (kids' !! i) as [c'|] eqn:Hc';
      simpl in Hi; try done.
    f_equal. apply (IH i c Hc). intros q.
    specialize (H (i :: q)). rewrite !element_at_cons in H. simpl in H.
    by rewrite Hc, Hc' in H.
Qed.

Lemma same_static_style name v e : same_static e (style_setProperty name v e).
Proof. by constructor. Qed.

Lemma same_static_listener type cb e : same_static e (addEventListener type cb e).
Proof. by constructor. Qed.

Lemma same_static_add e : same_static e (classList_add "lower" e).
Proof.
  constructor; try done. intros c Hc. simpl. case_decide; [done|].
  rewrite elem_of_app, list_elem_of_singleton. split; [by left|].
  intros [?|?]; [done|congruence].
Qed.

Lemma same_static_remove e : same_static e (classList_remove "lower" e).
Proof.
  constructor; try done. intros c Hc. simpl.
  rewrite list_elem_of_filter. split; [done|by intros [_ ?]].
Qed.

Lemma same_static_set_below b e : same_static e (set_below b e).
Proof. destruct b; [apply same_static_add | apply same_static_remove]. Qed.

Lemma same_static_mark_option v e : same_static e (mark_option v e).
Proof. unfold mark_option. case_match; [apply same_static_add | apply same_static_remove]. Qed.

Lemma same_static_mark_custom_option v e : same_static e (mark_custom_option v e).
Proof.
  unfold mark_custom_option. case_match; [apply same_static_add | apply same_static_remove].
Qed.

Lemma for_of_similar ps f d :
  (forall e, same_static e (f e)) -> similar d (for_of ps f d).
Proof.
  intros Hf. revert d. induction ps as [|p ps IH]; intros d; [apply similar_refl|].
  eapply similar_trans; [apply (similar_alter f p d Hf)|apply IH].
Qed.

(** The loop applies its body to the members of the collection and leaves
    the other elements as they are. *)
Lemma for_of_element_at ps f d q :
  (forall e, f (f e) = f e) ->
  element_at (for_of ps f d) q
  = (if decide (q ∈ ps) then f else id) <$> element_at d q.
Proof.
  intros Hf. revert d. induction ps as [|p ps IH]; intros d.
  - simpl. by destruct (element_at d q).
  - change (for_of (p :: ps) f d) with (for_of ps f (alter_element f p d)).
    rewrite IH, element_at_alter.
    destruct (element_at d q) as [e|]; [|done]. cbn [fmap option_fmap option_map]. f_equal.
    repeat case_decide; subst; try done; try apply Hf;
      exfalso; rewrite elem_of_cons in *; tauto.
Qed.

Lemma classList_add_idem c e : classList_add c (classList_add c e) = classList_add c e.
Proof.
  unfold classList_add. simpl. f_equal.
  destruct (decide (c ∈ classList e)) as [H|H].
  - by rewrite decide_True.
  - rewrite decide_True; [done|]. rewrite elem_of_app, list_elem_of_singleton. by right.
Qed.

Lemma classList_remove_idem c e :
  classList_remove c (classList_remove c e) = classList_remove c e.
Proof.
  unfold classList_remove. simpl. f_equal.
  induction (classList e) as [|x l IH]; [done|].
  rewrite filter_cons. case_decide; [|done].
  rewrite filter_cons, decide_True by done. by rewrite IH.
Qed.

Lemma position_static c e e' : same_static e e' -> position c e = position c e'.
Proof. destruct c; [apply prop_value_static | intros; by apply getAttribute_static]. Qed.

Lemma is_below_static c v e e' : same_static e e' -> is_below c v e = is_below c v e'.
Proof. intros H. unfold is_below. by rewrite (position_static c e e' H). Qed.

Lemma mark_idem c v e : mark c v (mark c v e) = mark c v e.
Proof.
  unfold mark. rewrite <- (is_below_static c v e) by apply same_static_set_below.
  destruct (is_below c v e); [apply classList_add_idem | apply classList_remove_idem].
Qed.

Lemma write_progress_similar doc target t : similar doc (write_progress doc target t).
Proof.
  unfold write_progress. destruct (closest doc target "slider");
    [apply similar_alter, same_static_style | apply similar_refl].
Qed.

Lemma resolve_markers_element doc target t :
  element_at doc target = Some t ->
  resolve_markers doc target
  = match prop_list doc t with
    | Some l => Some (NativeList l)
    | None =>
        match closest doc target "slider" with
        | None => None
        | Some b =>
            match item0 (getElementsByTagName doc b "datalist") with
            | Some l => Some (NativeList l)
            | None => CustomCollection <$> item0 (getElementsByClassName doc b "datalist")
            end
        end
    end.
Proof.
  intros Ht. unfold resolve_markers. rewrite Ht.
  destruct (prop_list doc t); [done|]. destruct (closest doc target "slider"); [|done].
  destruct (item0 (getElementsByTagName _ _ _)); [done|]. by destruct (item0 _).
Qed.

(** The marking of the script is the marking of the specification, on the
    document in which the progress has been written. *)
Lemma marked_synchronize doc target t doc1 :
  element_at doc target = Some t ->
  similar doc doc1 ->
  iterable doc target ->
  match
    match prop_list doc1 t with
    | Some l => Some l
    | None =>
        match closest doc target "slider" with
        | Some b => item0 (getElementsByTagName doc1 b "datalist")
        | None => None
        end
    end
  with
  | Some l =>
      match prop_options doc1 l with
      | Some options => (for_of options (mark_option (current t)) doc1, Normal tt)
      | None => (doc1, Throw TypeError)
      end
  | None =>
      (match closest doc target "slider" with
       | Some b =>
           match item0 (getElementsByClassName doc1 b "datalist") with
           | Some sliderDataList =>
               for_of (getElementsByClassName doc1 sliderDataList "option")
                 (mark_custom_option (current t)) doc1
           | None => doc1
           end
       | None => doc1
       end, Normal tt)
  end
  = (match resolve_markers doc target with
     | Some c => for_of (markers doc c) (mark c (current t)) doc1
     | None => doc1
     end, Normal tt).
Proof.
  intros Ht Hs Hi. unfold iterable in Hi.
  rewrite (resolve_markers_element doc target t Ht) in *.
  rewrite <- (prop_list_similar doc doc1 t t Hs (same_static_refl t)).
  destruct (prop_list doc t) as [l|].
  { rewrite <- (prop_options_similar doc doc1 l Hs). unfold prop_options.
    by rewrite decide_True by done. }
  destruct (closest doc target "slider") as [b|]; [|done].
  rewrite <- (getElementsByTagName_similar doc doc1 b "datalist" Hs).
  destruct (item0 (getElementsByTagName doc b "datalist")) as [l|].
  { rewrite <- (prop_options_similar doc doc1 l Hs). unfold prop_options.
    by rewrite decide_True by done. }
  rewrite <- (getElementsByClassName_similar doc doc1 b "datalist") by done.
  destruct (item0 (getElementsByClassName doc b "datalist")) as [c|]; [|done].
  simpl. by rewrite (getElementsByClassName_similar doc doc1 c "option").
Qed.

(** Where the list has no [options], the call throws on the document in
    which the progress has been written. *)
Lemma unmarked_throws doc target t doc1 :
  element_at doc target = Some t ->
  similar doc doc1 ->
  ~ iterable doc target ->
  match
    match prop_list doc1 t with
    | Some l => Some l
    | None =>
        match closest doc target "slider" with
        | Some b => item0 (getElementsByTagName doc1 b "datalist")
        | None => None
        end
    end
  with
  | Some l =>
      match prop_options doc1 l with
      | Some options => (for_of options (mark_option (current t)) doc1, Normal tt)
      | None => (doc1, Throw TypeError)
      end
  | None =>
      (match closest doc target "slider" with
       | Some b =>
           match item0 (getElementsByClassName doc1 b "datalist") with
           | Some sliderDataList =>
               for_of (getElementsByClassName doc1 sliderDataList "option")
                 (mark_custom_option (current t)) doc1
           | None => doc1
           end
       | None => doc1
       end, Normal tt)
  end
  = (doc1, Throw TypeError).
Proof.
  intros Ht Hs Hi. unfold iterable in Hi.
  rewrite (resolve_markers_element doc target t Ht) in *.
  rewrite <- (prop_list_similar doc doc1 t t Hs (same_static_refl t)).
  destruct (prop_list doc t) as [l|] eqn:Hl.
  { destruct Hi. by apply (prop_list_datalist doc t). }
  destruct (closest doc target "slider") as [b|]; [|by destruct Hi].
  rewrite <- (getElementsByTagName_similar doc doc1 b "datalist" Hs).
  destruct (item0 (getElementsByTagName doc b "datalist")) as [l|].
  { rewrite <- (prop_options_similar doc doc1 l Hs). unfold prop_options.
    by rewrite decide_False by done. }
  destruct Hi. by destruct (item0 _).
Qed.

(** The script computes what the specification describes on the calls that
    return; on the others it throws, after the progress has been written
    when the container has a place for it. *)
Lemma onSliderInput_synchronize doc target :
  onSliderInput doc target
  = match element_at doc target with
    | None => (doc, Throw TypeError)
    | Some t =>
        if decide (writable doc target) then
          if decide (iterable doc target) then
            (match resolve_markers doc target with
             | Some c =>
                 for_of (markers doc c) (mark c (current t)) (write_progress doc target t)
             | None => write_progress doc target t
             end, Normal tt)
          else (write_progress doc target t, Throw TypeError)
        else (doc, Throw TypeError)
    end.
Proof.
  unfold onSliderInput.
  destruct (element_at doc target) as [t|] eqn:Ht; [|done].
  fold (current t) (minimum t) (maximum t).
  pose proof (write_progress_similar doc target t) as Hs.
  pose proof (marked_synchronize doc target t _ Ht Hs) as Hm.
  pose proof (unmarked_throws doc target t _ Ht Hs) as Hu.
  destruct (decide (writable doc target)) as [Hw|Hw]; unfold writable in Hw;
    unfold write_progress in *; destruct (closest doc target "slider") as [b|].
  - rewrite decide_True by done.
    destruct (decide (iterable doc target)); [by apply Hm | by apply Hu].
  - destruct (decide (iterable doc target)); [by apply Hm | by apply Hu].
  - by rewrite decide_False.
  - done.
Qed.

Lemma write_progress_element_at doc target t q :
  element_at (write_progress doc target t) q
  = (if decide (closest doc target "slider" = Some q)
     then style_setProperty "--slider-progress"
            (ratio (current t) (minimum t) (maximum t))
     else id) <$> element_at doc q.
Proof.
  unfold write_progress. destruct (closest doc target "slider") as [b|].
  - rewrite element_at_alter. repeat case_decide; congruence.
  - rewrite decide_False by done. by destruct (element_at doc q).
Qed.

(** The document after a call, element by element. *)
Lemma synchronize_element_at doc target t doc' q :
  element_at doc target = Some t ->
  synchronize doc target = Some doc' ->
  element_at doc' q = synchronized doc target t q <$> element_at doc q.
Proof.
  intros Ht. unfold synchronize, synchronized. rewrite Ht. intros [= <-].
  destruct (resolve_markers doc target) as [c|].
  - rewrite for_of_element_at by apply mark_idem.
    rewrite write_progress_element_at.
    destruct (element_at doc q); [simpl|done]. repeat case_decide; done.
  - rewrite write_progress_element_at.
    destruct (element_at doc q); [simpl|done]. repeat case_decide; done.
Qed.

Lemma synchronize_element doc target t :
  element_at doc target = Some t ->
  synchronize doc target
  = Some match resolve_markers doc target with
         | Some c =>
             for_of (markers doc c) (mark c (current t)) (write_progress doc target t)
         | None => write_progress doc target t
         end.
Proof. intros Ht. unfold synchronize. by rewrite Ht. Qed.

Lemma onSliderInput_Normal doc target doc' :
  onSliderInput doc target = (doc', Normal tt)
  <-> supported doc target /\ synchronize doc target = Some doc'.
Proof.
  rewrite onSliderInput_synchronize. unfold supported.
  destruct (element_at doc target) as [t|] eqn:Ht.
  - rewrite (synchronize_element doc target t Ht).
    destruct (decide (writable doc target)), (decide (iterable doc target));
      split; try (intros [= <-]; by eauto); try (intros [(_ & ? & ?) _]; done).
    by intros [_ [= <-]].
  - split; [done|]. by intros [[[? ?] _] _].
Qed.

Lemma onSliderInput_completion doc target :
  (onSliderInput doc target).2
  = if decide (supported doc target) then Normal tt else Throw TypeError.
Proof.
  rewrite onSliderInput_synchronize.
  destruct (decide (supported doc target)) as [Hsup|Hsup]; unfold supported in Hsup.
  - destruct Hsup as ([t Ht] & Hw & Hi). rewrite Ht. by rewrite !decide_True by done.
  - destruct (element_at doc target) as [t|] eqn:Ht; [|done].
    destruct (decide (writable doc target)), (decide (iterable doc target)); try done.
    destruct Hsup. eauto.
Qed.

Lemma onSliderInput_supported doc target :
  supported doc target ->
  exists doc', onSliderInput doc target = (doc', Normal tt) /\
               synchronize doc target = Some doc'.
Proof.
  intros Hsup. pose proof Hsup as ([t Ht] & _ & _).
  eexists. split; [apply onSliderInput_Normal; split; [done|]|]; by apply synchronize_element.
Qed.

(** The three ways in which a call on an element ends. *)
Lemma after_input_cases doc target t :
  element_at doc target = Some t ->
  (supported doc target /\ synchronize doc target = Some (after_input doc target)) \/
  (~ supported doc target /\ writable doc target /\
   after_input doc target = write_progress doc target t) \/
  (~ supported doc target /\ ~ writable doc target /\ after_input doc target = doc).
Proof.
  intros Ht. unfold after_input, supported. rewrite onSliderInput_synchronize, Ht.
  rewrite (synchronize_element doc target t Ht).
  destruct (decide (writable doc target)), (decide (iterable doc target)); simpl.
  - left. eauto.
  - right. left. split; [|done]. by intros (_ & _ & ?).
  - right. right. split; [|done]. by intros (_ & ? & _).
  - right. right. split; [|done]. by intros (_ & ? & _).
Qed.

Lemma synchronize_is_Some doc target t :
  element_at doc target = Some t -> is_Some (synchronize doc target).
Proof. intros Ht. unfold synchronize. rewrite Ht. eauto. Qed.

Lemma synchronize_similar doc target doc' :
  synchronize doc target = Some doc' -> similar doc doc'.
Proof.
  unfold synchronize. destruct (element_at doc target) as [t|]; [|done].
  intros [= <-].
  assert (similar doc (write_progress doc target t)) as Hs.
  { unfold write_progress. destruct (closest doc target "slider");
      [apply similar_alter, same_static_style | apply similar_refl]. }
  destruct (resolve_markers doc target); [|done].
  eapply similar_trans; [exact Hs|]. apply for_of_similar.
  intros e. apply same_static_set_below.
Qed.

End SliderFacts.

(** ** More facts about the document *)

Module DomMore.
Import Dom DomFacts.

(** An update that a predicate does not see does not change what satisfies it. *)
Lemma satisfies_alter P f p d q :
  (forall e, P (f e) <-> P e) ->
  satisfies P (alter_element f p d) q <-> satisfies P d q.
Proof.
  intros HP. unfold satisfies. rewrite element_at_alter.
  destruct (element_at d q); simpl; [|done]. case_decide; [apply HP|done].
Qed.

Lemma filter_satisfies_alter P `{!forall e, Decision (P e)} f p d (l : list Path) :
  (forall e, P (f e) <-> P e) ->
  filter (satisfies P (alter_element f p d)) l = filter (satisfies P d) l.
Proof. intros HP. apply list_filter_iff. intros q. by apply satisfies_alter. Qed.

Lemma document_paths_alter f p d : document_paths (alter_element f p d) = document_paths d.
Proof. unfold document_paths. by rewrite descendant_paths_alter. Qed.

Lemma getElementsByTagName_alter f p d q t :
  (forall e, tagName (f e) = tagName e) ->
  getElementsByTagName (alter_element f p d) q t = getElementsByTagName d q t.
Proof.
  intros Hf. unfold getElementsByTagName. rewrite descendant_paths_alter.
  apply filter_satisfies_alter. intros e. unfold has_tag. by rewrite Hf.
Qed.

Lemma getElementsByClassName_alter f p d q c :
  (forall e, c ∈ classList (f e) <-> c ∈ classList e) ->
  getElementsByClassName (alter_element f p d) q c = getElementsByClassName d q c.
Proof.
  intros Hf. unfold getElementsByClassName. rewrite descendant_paths_alter.
  by apply filter_satisfies_alter.
Qed.

Lemma document_getElementsByClassName_alter f p d c :
  (forall e, c ∈ classList (f e) <-> c ∈ classList e) ->
  document_getElementsByClassName (alter_element f p d) c
  = document_getElementsByClassName d c.
Proof.
  intros Hf. unfold document_getElementsByClassName. rewrite document_paths_alter.
  by apply filter_satisfies_alter.
Qed.

Lemma closest_alter f p d q c :
  (forall e, c ∈ classList (f e) <-> c ∈ classList e) ->
  closest (alter_element f p d) q c = closest d q c.
Proof. intros Hf. unfold closest. f_equal. by apply filter_satisfies_alter. Qed.

Lemma is_html_alter f p d q t :
  (forall e, namespaceURI (f e) = namespaceURI e) ->
  (forall e, tagName (f e) = tagName e) ->
  satisfies (is_html t) (alter_element f p d) q <-> satisfies (is_html t) d q.
Proof.
  intros Hn Ht. apply satisfies_alter. intros e. unfold is_html. by rewrite Hn, Ht.
Qed.

Lemma has_style_alter f p d q :
  (forall e, namespaceURI (f e) = namespaceURI e) ->
  satisfies has_style (alter_element f p d) q <-> satisfies has_style d q.
Proof. intros Hn. apply satisfies_alter. intros e. unfold has_style. by rewrite Hn. Qed.

Lemma prop_list_alter f p d e :
  (forall e, namespaceURI (f e) = namespaceURI e) ->
  (forall e, tagName (f e) = tagName e) ->
  (forall e, attributes (f e) = attributes e) ->
  prop_list (alter_element f p d) e = prop_list d e.
Proof.
  intros Hn Ht Ha. unfold prop_list. case_decide; [|done].
  destruct (attributes e !! "list") as [id|]; [|done].
  rewrite document_paths_alter.
  rewrite (filter_satisfies_alter (has_id id) f p d).
  2:{ intros e'. unfold has_id. by rewrite Ha. }
  destruct (filter _ _) as [|q l]; [done|].
  pose proof (is_html_alter f p d q "datalist" Hn Ht) as H'.
  repeat case_decide; tauto.
Qed.

Lemma options_alter f p d q :
  (forall e, namespaceURI (f e) = namespaceURI e) ->
  (forall e, tagName (f e) = tagName e) ->
  options (alter_element f p d) q = options d q.
Proof.
  intros Hn Ht. unfold options. rewrite descendant_paths_alter.
  apply list_filter_iff. intros x. by apply is_html_alter.
Qed.

Lemma is_Some_alter f p d q :
  is_Some (element_at (alter_element f p d) q) <-> is_Some (element_at d q).
Proof. rewrite element_at_alter. by rewrite fmap_is_Some. Qed.

Lemma node_at_app d p q : node_at d (p ++ q) = node_at d p ≫= fun n => node_at n q.
Proof.
  revert d. induction p as [|i p IH]; intros d; simpl; [done|].
  destruct (childNodes d !! i) as [c|]; simpl; [apply IH|done].
Qed.

Lemma element_at_prefix d p q : is_Some (element_at d (p ++ q)) -> is_Some (element_at d p).
Proof.
  unfold element_at. rewrite node_at_app. destruct (node_at d p); [eauto|].
  by intros [? ?].
Qed.

End DomMore.

(** ** The claims of the specification *)

Module SliderSpec.
Import JsNumber Dom Slider NumberFacts DomFacts DomMore SliderFacts.

Lemma closest_Some doc p c b :
  closest doc p c = Some b -> satisfies (has_class c) doc b.
Proof.
  unfold closest. intros H. apply head_Some_elem_of in H.
  by apply list_elem_of_filter in H as [? _].
Qed.

Lemma satisfies_element_at P doc q :
  satisfies P doc q -> exists e, element_at doc q = Some e /\ P e.
Proof. unfold satisfies. destruct (element_at doc q); [eauto|done]. Qed.

Lemma markers_element_at doc c q :
  q ∈ markers doc c -> exists m, element_at doc q = Some m.
Proof.
  destruct c; simpl; unfold options, getElementsByClassName;
    intros [H _]%list_elem_of_filter; apply satisfies_element_at in H as (m & ? & _); eauto.
Qed.

Lemma ratio_degenerate value min max : gtb max min = false -> ratio value min max = "0%".
Proof. intros H. unfold ratio, progress. by rewrite H. Qed.

Lemma lower_set_below b m : "lower" ∈ classList (set_below b m) <-> b = true.
Proof.
  destruct b; simpl.
  - split; [done|intros _]. case_decide; [done|].
    rewrite elem_of_app, list_elem_of_singleton. by right.
  - split; [|done]. rewrite list_elem_of_filter. by intros [? _].
Qed.

Lemma style_set_below b m : style (set_below b m) = style m.
Proof. by destruct b. Qed.

Lemma classList_style_setProperty n v e : classList (style_setProperty n v e) = classList e.
Proof. done. Qed.

Lemma synchronize_progress doc target t b doc' :
  element_at doc target = Some t ->
  closest doc target "slider" = Some b ->
  synchronize doc target = Some doc' ->
  slider_progress doc' b = Some (ratio (current t) (minimum t) (maximum t)).
Proof.
  intros Ht Hb Hsync. unfold slider_progress.
  rewrite (synchronize_element_at doc target t doc' b Ht Hsync).
  destruct (satisfies_element_at _ _ _ (closest_Some _ _ _ _ Hb)) as (e & -> & _).
  simpl. unfold synchronized. rewrite decide_True by done.
  destruct (resolve_markers doc target) as [c|]; [|apply lookup_insert_eq].
  case_decide; [|apply lookup_insert_eq].
  unfold mark. rewrite style_set_below. apply lookup_insert_eq.
Qed.

(** The progress is written before the markers are looked for. *)
Lemma after_input_progress doc target t b :
  element_at doc target = Some t ->
  closest doc target "slider" = Some b ->
  satisfies has_style doc b ->
  slider_progress (after_input doc target) b
  = Some (ratio (current t) (minimum t) (maximum t)).
Proof.
  intros Ht Hb Hsty.
  destruct (after_input_cases doc target t Ht) as [[_ Hsync]|[(_ & _ & ->)|(_ & Hw & _)]].
  - by apply (synchronize_progress doc target t).
  - unfold slider_progress. rewrite write_progress_element_at, decide_True by done.
    destruct (satisfies_element_at _ _ _ Hsty) as (e & -> & _). simpl.
    apply lookup_insert_eq.
  - destruct Hw. unfold writable. by rewrite Hb.
Qed.

Lemma unwritable_throws doc target t :
  element_at doc target = Some t ->
  ~ writable doc target -> onSliderInput doc target = (doc, Throw TypeError).
Proof.
  intros Ht Hw. rewrite onSliderInput_synchronize, Ht. by rewrite decide_False.
Qed.

(** C1: the fields of the control are coerced to numbers, a value that is
    not numeric or is missing counting as 0, and the container's
    [--slider-progress] is written with the percentage
    [(current - min) / (max - min) * 100] when [max > min] and with [0%] when
    [max <= min].  The container is written to when it has a [style], also
    by a call that throws afterwards; on a container without one the call
    throws and writes nothing. *)
Theorem onSliderInput_progress doc target t b :
  element_at doc target = Some t ->
  closest doc target "slider" = Some b ->
  (forall field, field ∈ [prop_value t; prop_min t; prop_max t] ->
     is_nan (or_zero (Number field)) = false /\
     (is_nan (Number field) = true -> or_zero (Number field) = zero) /\
     (is_nan (Number field) = false -> eqb (or_zero (Number field)) (Number field) = true)) /\
  or_zero (Number JsUndefined) = zero /\
  (satisfies has_style doc b ->
     (gtb (maximum t) (minimum t) = true ->
        slider_progress (after_input doc target) b =
        Some (NumberToString
                (mul (div (sub (current t) (minimum t)) (sub (maximum t) (minimum t)))
                     (of_Z 100)) +:+ "%")) /\
     (leb (maximum t) (minimum t) = true ->
        slider_progress (after_input doc target) b = Some "0%")) /\
  (~ satisfies has_style doc b -> onSliderInput doc target = (doc, Throw TypeError)) /\
  (supported doc target -> (onSliderInput doc target).2 = Normal tt).
Proof.
  intros Ht Hb.
  split; [|split; [done|split; [|split]]].
  - intros field _. split; [apply or_zero_not_nan|].
    split; [apply or_zero_nan | apply or_zero_eqb].
  - intros Hsty. rewrite (after_input_progress doc target t b Ht Hb Hsty).
    split; intros Hc.
    + unfold ratio, progress. by rewrite Hc.
    + by rewrite ratio_degenerate by by apply leb_not_gtb.
  - intros Hsty. apply (unwritable_throws doc target t Ht). unfold writable. by rewrite Hb.
  - intros Hsup. rewrite onSliderInput_completion. by rewrite decide_True.
Qed.


Lemma lower_synchronized doc target t c q m :
  resolve_markers doc target = Some c ->
  q ∈ markers doc c ->
  "lower" ∈ classList (synchronized doc target t q m)
  <-> ltb (Number (position c m)) (current t) = true.
Proof.
  intros Hc Hq. unfold synchronized. rewrite Hc, decide_True by done.
  unfold mark. rewrite lower_set_below. unfold is_below.
  case_decide; [|done].
  by rewrite <- (position_static c m) by apply same_static_style.
Qed.

(** C2: after a call that resolves a marker collection, a marker of it has
    the class [lower] exactly when its parsed position is strictly less than
    the current value, whatever its class was before; a marker at the current
    value does not have it. *)
Theorem onSliderInput_marker_flags doc target t doc' c :
  element_at doc target = Some t ->
  onSliderInput doc target = (doc', Normal tt) ->
  resolve_markers doc target = Some c ->
  forall q, q ∈ markers doc c ->
  exists m m',
    element_at doc q = Some m /\ element_at doc' q = Some m' /\
    position c m' = position c m /\
    ("lower" ∈ classList m' <-> ltb (Number (position c m)) (current t) = true) /\
    (eqb (Number (position c m)) (current t) = true -> "lower" ∉ classList m').
Proof.
  intros Ht Hrun Hc q Hq. apply onSliderInput_Normal in Hrun as [_ Hrun].
  destruct (markers_element_at doc c q Hq) as [m Hm].
  exists m, (synchronized doc target t q m).
  split; [done|]. split.
  { rewrite (synchronize_element_at doc target t doc' q Ht Hrun), Hm. done. }
  assert (same_static m (synchronized doc target t q m)) as Hst.
  { unfold synchronized. rewrite Hc, decide_True by done.
    eapply same_static_trans; [|apply same_static_set_below].
    case_decide; [apply same_static_style | apply same_static_refl]. }
  split; [symmetry; by apply position_static|].
  pose proof (lower_synchronized doc target t c q m Hc Hq) as Hiff.
  split; [done|].
  intros Heq Hin. apply Hiff in Hin. apply eqb_not_ltb in Heq. congruence.
Qed.

(** C10: after a call that resolves a marker collection, a marker of it
    whose position parses to NaN does not have the class [lower], whatever
    the current value is. *)
Theorem onSliderInput_nan_marker doc target t doc' c :
  element_at doc target = Some t ->
  onSliderInput doc target = (doc', Normal tt) ->
  resolve_markers doc target = Some c ->
  forall q m, q ∈ markers doc c ->
  element_at doc q = Some m ->
  is_nan (Number (position c m)) = true ->
  exists m', element_at doc' q = Some m' /\ "lower" ∉ classList m'.
Proof.
  intros Ht Hrun Hc q m Hq Hm Hnan. apply onSliderInput_Normal in Hrun as [_ Hrun].
  exists (synchronized doc target t q m). split.
  { rewrite (synchronize_element_at doc target t doc' q Ht Hrun), Hm. done. }
  rewrite (lower_synchronized doc target t c q m Hc Hq).
  by rewrite ltb_nan_l.
Qed.


Lemma paths_nonempty n : [] ∉ paths n.
Proof.
  destruct n as [e kids]. simpl. generalize 0%nat.
  induction kids as [|k kids IH]; intros i; simpl; [apply not_elem_of_nil|].
  rewrite elem_of_cons, elem_of_app, list_elem_of_fmap.
  intros [?|[(? & ? & _)|?]]; [done|done|by eapply IH].
Qed.

Lemma descendant_paths_inside doc p q :
  q ∈ descendant_paths doc p -> exists r, r ≠ [] /\ q = p ++ r.
Proof.
  unfold descendant_paths. destruct (node_at doc p) as [n|]; [|by intros ?%elem_of_nil].
  intros (r & -> & Hr)%list_elem_of_fmap. exists r. split; [|done].
  intros ->. by apply paths_nonempty in Hr.
Qed.

Lemma getElementsByClassName_inside doc p c q :
  q ∈ getElementsByClassName doc p c -> exists r, r ≠ [] /\ q = p ++ r.
Proof. intros [_ H]%list_elem_of_filter. by apply (descendant_paths_inside doc). Qed.

Lemma getElementsByTagName_inside doc p t q :
  q ∈ getElementsByTagName doc p t -> exists r, r ≠ [] /\ q = p ++ r.
Proof. intros [_ H]%list_elem_of_filter. by apply (descendant_paths_inside doc). Qed.

Lemma flat_mapi_elem_of {A B} (F : nat -> A -> list B) (l : list A) s i x y :
  l !! i = Some x -> y ∈ F (s + i)%nat x -> y ∈ flat_mapi F s l.
Proof.
  revert s i. induction l as [|a l IH]; intros s [|i] Hi Hy; try done.
  - simpl in *. injection Hi as ->. rewrite Nat.add_0_r in Hy.
    rewrite elem_of_app. by left.
  - simpl. rewrite elem_of_app. right. apply (IH (S s) i); [done|].
    by replace (S s + i)%nat with (s + S i)%nat by lia.
Qed.

Lemma paths_complete n q : q ≠ [] -> is_Some (node_at n q) -> q ∈ paths n.
Proof.
  revert n. induction q as [|i q IH]; intros [e kids] Hne Hq; [done|].
  simpl in *. destruct (kids !! i) as [c|] eqn:Hc; [|by destruct Hq].
  apply (flat_mapi_elem_of _ kids 0 i c); [done|]. simpl.
  destruct q as [|j q]; [left|]. right.
  apply list_elem_of_fmap. exists (j :: q). split; [done|]. by apply IH.
Qed.

Lemma document_paths_complete doc q : is_Some (element_at doc q) -> q ∈ document_paths doc.
Proof.
  intros Hq. unfold document_paths, descendant_paths. simpl.
  destruct q as [|i q]; [left|]. right.
  apply list_elem_of_fmap. exists (i :: q). split; [done|].
  apply paths_complete; [done|]. unfold element_at in Hq.
  destruct (node_at doc (i :: q)); [eauto|by destruct Hq].
Qed.

Lemma sliders_complete doc s e :
  element_at doc s = Some e -> "slider" ∈ classList e -> s ∈ sliders doc.
Proof.
  intros He Hc. apply list_elem_of_filter. split.
  - unfold satisfies. by rewrite He.
  - apply document_paths_complete. by rewrite He.
Qed.

Lemma inclusive_ancestors_self p : exists l, inclusive_ancestors p = p :: l.
Proof.
  unfold inclusive_ancestors. destruct p as [|i p]; [by exists []|].
  simpl. rewrite take_ge by done. eauto.
Qed.

Lemma classList_set_below_other b m c :
  c ≠ "lower" -> c ∈ classList (set_below b m) <-> c ∈ classList m.
Proof. intros Hc. symmetry. by apply (same_classes _ _ (same_static_set_below b m)). Qed.

Lemma classList_synchronized_other doc target t q e :
  match resolve_markers doc target with
  | Some c => q ∉ markers doc c
  | None => True
  end ->
  classList (synchronized doc target t q e) = classList e.
Proof.
  unfold synchronized. destruct (resolve_markers doc target) as [c|].
  - intros Hq. rewrite decide_False by done. by case_decide.
  - intros _. by case_decide.
Qed.

Lemma style_synchronized_other doc target t q e :
  closest doc target "slider" ≠ Some q ->
  style (synchronized doc target t q e) = style e.
Proof.
  intros Hq. unfold synchronized. rewrite decide_False by done.
  destruct (resolve_markers doc target) as [c|]; [|done].
  case_decide; [|done]. unfold mark. apply style_set_below.
Qed.

Lemma fmap_element_at_ext {A} (f : Element -> A) (g : Element -> Element) (o : option Element) :
  (forall e, f (g e) = f e) -> f <$> (g <$> o) = f <$> o.
Proof. intros H. destruct o; simpl; [by rewrite H|done]. Qed.

(** A call, whether it returns or throws, changes the class of no element
    but the markers it resolves. *)
Lemma after_input_classList doc target t q :
  element_at doc target = Some t ->
  match resolve_markers doc target with
  | Some c => q ∉ markers doc c
  | None => True
  end ->
  classList <$> element_at (after_input doc target) q = classList <$> element_at doc q.
Proof.
  intros Ht Hq.
  destruct (after_input_cases doc target t Ht) as [[_ Hsync]|[(_ & _ & ->)|(_ & _ & ->)]].
  - rewrite (synchronize_element_at doc target t _ q Ht Hsync).
    apply fmap_element_at_ext. intros e. by apply classList_synchronized_other.
  - rewrite write_progress_element_at. apply fmap_element_at_ext. intros e. by case_decide.
  - done.
Qed.

(** C3: a call resolves one marker collection, in the order: the list
    associated with the control, else the first [datalist] in the enclosing
    [.slider], else the first [.datalist] in it; a call that returns has
    marked the markers of that collection; no call changes the class of
    another element; when no collection is found no class changes, and the
    progress of the container is written all the same. *)
Theorem onSliderInput_resolution doc target t :
  element_at doc target = Some t ->
  (forall doc', onSliderInput doc target = (doc', Normal tt) ->
     doc' = match resolve_markers doc target with
            | Some c => for_of (markers doc c) (mark c (current t))
                          (write_progress doc target t)
            | None => write_progress doc target t
            end) /\
  (supported doc target -> (onSliderInput doc target).2 = Normal tt) /\
  (forall l, prop_list doc t = Some l ->
     resolve_markers doc target = Some (NativeList l)) /\
  (forall b, prop_list doc t = None -> closest doc target "slider" = Some b ->
     forall l, item0 (getElementsByTagName doc b "datalist") = Some l ->
     resolve_markers doc target = Some (NativeList l)) /\
  (forall b, prop_list doc t = None -> closest doc target "slider" = Some b ->
     item0 (getElementsByTagName doc b "datalist") = None ->
     resolve_markers doc target
     = CustomCollection <$> item0 (getElementsByClassName doc b "datalist")) /\
  (forall q,
     match resolve_markers doc target with
     | Some c => q ∉ markers doc c
     | None => True
     end ->
     classList <$> element_at (after_input doc target) q = classList <$> element_at doc q) /\
  (forall b, closest doc target "slider" = Some b -> satisfies has_style doc b ->
     slider_progress (after_input doc target) b
     = Some (ratio (current t) (minimum t) (maximum t))).
Proof.
  intros Ht.
  split.
  { intros doc' [_ Hsync]%onSliderInput_Normal.
    rewrite (synchronize_element doc target t Ht) in Hsync. by injection Hsync as <-. }
  split. { intros Hsup. rewrite onSliderInput_completion. by rewrite decide_True. }
  rewrite (resolve_markers_element doc target t Ht).
  split. { by intros l ->. }
  split. { by intros b -> -> l ->. }
  split. { by intros b -> -> ->. }
  rewrite <- (resolve_markers_element doc target t Ht).
  split.
  - intros q Hq. by apply (after_input_classList doc target t).
  - intros b Hb Hsty. by apply after_input_progress.
Qed.


Lemma markers_similar d d' c : similar d d' -> markers d c = markers d' c.
Proof.
  intros Hs. destruct c; simpl.
  - by apply options_similar.
  - by apply getElementsByClassName_similar.
Qed.

Lemma resolve_markers_similar d d' target :
  similar d d' -> resolve_markers d target = resolve_markers d' target.
Proof.
  intros Hs. unfold resolve_markers.
  pose proof (similar_elements _ _ Hs target) as He.
  destruct He as [t t' Hst|]; [|done].
  rewrite <- (prop_list_similar d d' t t' Hs Hst).
  rewrite <- (closest_similar d d' target "slider") by done.
  destruct (prop_list d t); [done|].
  destruct (closest d target "slider") as [b|]; [|done].
  rewrite <- (getElementsByTagName_similar d d' b "datalist" Hs).
  by rewrite <- (getElementsByClassName_similar d d' b "datalist").
Qed.

(** Whether a call returns is decided by what the script leaves alone. *)
Lemma supported_similar d d' target :
  similar d d' -> supported d target <-> supported d' target.
Proof.
  intros Hs. unfold supported, writable, iterable.
  rewrite <- (resolve_markers_similar d d' target Hs).
  rewrite <- (closest_similar d d' target "slider") by done.
  assert (is_Some (element_at d target) <-> is_Some (element_at d' target)) as ->.
  { destruct (similar_elements _ _ Hs target); split; intros [? ?]; by eauto. }
  assert (forall P q, static P -> satisfies P d q <-> satisfies P d' q) as Hsat.
  { intros P q HP. by apply satisfies_similar. }
  destruct (closest d target "slider") as [b|];
    destruct (resolve_markers d target) as [[l|l]|];
    rewrite ?(Hsat has_style) by apply static_has_style;
    rewrite ?(Hsat (is_html "datalist")) by apply static_is_html; done.
Qed.

Lemma current_static t t' : same_static t t' -> current t = current t'.
Proof. intros H. unfold current. by rewrite (prop_value_static t t' H). Qed.

Lemma minimum_static t t' : same_static t t' -> minimum t = minimum t'.
Proof. intros H. unfold minimum, prop_min. by rewrite (reflected_static _ t t' H). Qed.

Lemma maximum_static t t' : same_static t t' -> maximum t = maximum t'.
Proof. intros H. unfold maximum, prop_max. by rewrite (reflected_static _ t t' H). Qed.

Lemma synchronized_similar d d' target t t' q e :
  similar d d' -> same_static t t' ->
  synchronized d' target t' q e = synchronized d target t q e.
Proof.
  intros Hs Ht. unfold synchronized.
  rewrite <- (resolve_markers_similar d d' target Hs).
  rewrite <- (closest_similar d d' target "slider") by done.
  rewrite <- (current_static t t' Ht), <- (minimum_static t t' Ht), <- (maximum_static t t' Ht).
  destruct (resolve_markers d target) as [c|]; [|done].
  by rewrite <- (markers_similar d d' c Hs).
Qed.

Lemma style_setProperty_idem n v e :
  style_setProperty n v (style_setProperty n v e) = style_setProperty n v e.
Proof. unfold style_setProperty. simpl. by rewrite insert_insert_eq. Qed.

Lemma mark_style_setProperty c v n x e :
  mark c v (style_setProperty n x e) = style_setProperty n x (mark c v e).
Proof.
  unfold mark. rewrite <- (is_below_static c v e) by apply same_static_style.
  by destruct (is_below c v e).
Qed.

Lemma synchronized_idem doc target t q e :
  synchronized doc target t q (synchronized doc target t q e)
  = synchronized doc target t q e.
Proof.
  unfold synchronized. destruct (resolve_markers doc target) as [c|].
  - repeat case_decide; try done.
    + by rewrite !mark_style_setProperty, mark_idem, style_setProperty_idem.
    + apply mark_idem.
    + apply style_setProperty_idem.
  - case_decide; [apply style_setProperty_idem|done].
Qed.

Lemma synchronize_idempotent doc target doc' :
  synchronize doc target = Some doc' -> synchronize doc' target = Some doc'.
Proof.
  intros Hsync.
  pose proof (synchronize_similar doc target doc' Hsync) as Hs.
  destruct (element_at doc target) as [t|] eqn:Ht;
    [|by unfold synchronize in Hsync; rewrite Ht in Hsync].
  destruct (similar_element_at doc doc' target t Hs Ht) as (t' & Ht' & Hst).
  destruct (synchronize_is_Some doc' target t' Ht') as [doc'' Hsync'].
  rewrite Hsync'. f_equal. apply node_ext. intros q.
  rewrite (synchronize_element_at doc' target t' doc'' q Ht' Hsync').
  rewrite (synchronize_element_at doc target t doc' q Ht Hsync).
  destruct (element_at doc q) as [e|]; [simpl|done].
  by rewrite (synchronized_similar doc doc' target t t' q _ Hs Hst), synchronized_idem.
Qed.

Lemma onSliderInput_again doc target doc' :
  onSliderInput doc target = (doc', Normal tt) ->
  onSliderInput doc' target = (doc', Normal tt).
Proof.
  rewrite !onSliderInput_Normal. intros [Hsup Hsync]. split.
  - apply (supported_similar doc doc' target); [by eapply synchronize_similar|done].
  - by apply (synchronize_idempotent doc).
Qed.

(** C6: a second call on the document that a call leaves, with the same
    control, leaves that document as it is: the same progress value and the
    same marker classes. *)
Theorem onSliderInput_idempotent doc target doc' :
  onSliderInput doc target = (doc', Normal tt) ->
  onSliderInput doc' target = (doc', Normal tt).
Proof.
  rewrite !onSliderInput_Normal. intros [Hsup Hsync].
  pose proof (synchronize_similar doc target doc' Hsync) as Hs.
  split.
  - by apply (supported_similar doc doc' target Hs).
  - by apply (synchronize_idempotent doc).
Qed.

Lemma onSliderInput_unsupported doc target :
  ~ supported doc target -> (onSliderInput doc target).2 = Throw TypeError.
Proof. intros H. rewrite onSliderInput_completion. by rewrite decide_False. Qed.

(** In a document whose elements all have a [style] and whose elements
    named [datalist] are all HTML elements, a call on an element returns. *)
Lemma supported_element doc target :
  (forall q e, element_at doc q = Some e ->
     has_style e /\ (tagName e = "datalist" -> namespaceURI e = HTML)) ->
  is_Some (element_at doc target) -> supported doc target.
Proof.
  intros Hdoc [t Ht]. split; [by eauto|]. split.
  - unfold writable. destruct (closest doc target "slider") as [b|] eqn:Hb; [|done].
    destruct (satisfies_element_at _ _ _ (closest_Some _ _ _ _ Hb)) as (e & He & _).
    unfold satisfies. rewrite He. by apply (Hdoc b).
  - unfold iterable. rewrite (resolve_markers_element doc target t Ht).
    destruct (prop_list doc t) as [l|] eqn:Hl; [by apply (prop_list_datalist doc t)|].
    destruct (closest doc target "slider") as [b|]; [|done].
    destruct (item0 (getElementsByTagName doc b "datalist")) as [l|] eqn:Hd;
      [|by destruct (item0 (getElementsByClassName doc b "datalist"))].
    apply head_Some_elem_of, list_elem_of_filter in Hd as [Hd _].
    destruct (satisfies_element_at _ _ _ Hd) as (e & He & Htag).
    unfold satisfies. rewrite He. split; [|done]. by apply (Hdoc l).
Qed.

(** C7, as the script has it: a call returns when its target is an element,
    the enclosing [.slider], if there is one, has a [style], and the native
    list that is resolved, if there is one, is an HTML [datalist]; otherwise
    it throws a [TypeError]: before it has changed anything when the target
    is no element or the container has no [style], and after it has written
    the progress when the list has no [options].  So it returns on every
    element of a document whose elements all have a [style] and whose
    elements named [datalist] are all HTML elements.  A call that returns
    has skipped what is absent: without an enclosing [.slider] no style is
    written, without a marker collection no class is changed, and with
    neither a container nor an associated list the document is left as it
    was. *)
Theorem onSliderInput_skips doc target :
  (supported doc target ->
   exists doc',
     onSliderInput doc target = (doc', Normal tt) /\
     (closest doc target "slider" = None ->
        forall q, style <$> element_at doc' q = style <$> element_at doc q) /\
     (resolve_markers doc target = None ->
        forall q, classList <$> element_at doc' q = classList <$> element_at doc q) /\
     (forall t, element_at doc target = Some t ->
        closest doc target "slider" = None -> prop_list doc t = None -> doc' = doc)) /\
  (~ supported doc target -> (onSliderInput doc target).2 = Throw TypeError) /\
  (element_at doc target = None \/ ~ writable doc target ->
     onSliderInput doc target = (doc, Throw TypeError)) /\
  (forall t, element_at doc target = Some t ->
     writable doc target -> ~ iterable doc target ->
     onSliderInput doc target = (write_progress doc target t, Throw TypeError)) /\
  ((forall q e, element_at doc q = Some e ->
      has_style e /\ (tagName e = "datalist" -> namespaceURI e = HTML)) ->
   is_Some (element_at doc target) -> supported doc target).
Proof.
  split; [|split; [apply onSliderInput_unsupported|split; [|split; [|apply supported_element]]]].
  2:{ rewrite onSliderInput_synchronize. intros [-> |Hw]; [done|].
      destruct (element_at doc target); [|done]. by rewrite decide_False. }
  2:{ intros t Ht Hw Hi. rewrite onSliderInput_synchronize, Ht.
      by rewrite decide_True, decide_False. }
  intros Hsup. pose proof Hsup as ([t Ht] & _ & _).
  destruct (onSliderInput_supported doc target Hsup) as (doc' & Hrun & Hsync).
  exists doc'. split; [done|].
  split; [|split].
  - intros Hb q. rewrite (synchronize_element_at doc target t doc' q Ht Hsync).
    apply fmap_element_at_ext. intros e. apply style_synchronized_other. by rewrite Hb.
  - intros Hc q. rewrite (synchronize_element_at doc target t doc' q Ht Hsync).
    apply fmap_element_at_ext. intros e. apply classList_synchronized_other. by rewrite Hc.
  - intros t' Ht' Hb Hl. unfold synchronize, write_progress, resolve_markers in Hsync.
    rewrite Ht' in Hsync. rewrite Hl, Hb in Hsync. by injection Hsync as <-.
Qed.

Lemma inclusive_ancestors_aux_app k p x :
  (k <= length p)%nat ->
  inclusive_ancestors_aux k (p ++ [x]) = inclusive_ancestors_aux k p.
Proof.
  induction k as [|k IH]; intros Hk; simpl; [done|].
  rewrite IH by lia. f_equal.
  destruct p as [|i p]; [simpl in Hk; lia|]. simpl. f_equal.
  by rewrite take_app_le by (simpl in Hk; lia).
Qed.

Lemma inclusive_ancestors_snoc p x :
  inclusive_ancestors (p ++ [x]) = (p ++ [x]) :: inclusive_ancestors p.
Proof.
  unfold inclusive_ancestors. rewrite length_app, Nat.add_1_r.
  cbn [inclusive_ancestors_aux].
  rewrite inclusive_ancestors_aux_app by done. f_equal.
  apply take_ge. rewrite length_app. simpl. lia.
Qed.

Lemma descendant_paths_complete doc b r :
  r ≠ [] -> is_Some (element_at doc (b ++ r)) -> b ++ r ∈ descendant_paths doc b.
Proof.
  intros Hr Hq. unfold descendant_paths. unfold element_at in Hq.
  rewrite node_at_app in Hq. destruct (node_at doc b) as [n|]; [|by destruct Hq].
  simpl in Hq. apply list_elem_of_fmap. exists r. split; [done|].
  apply paths_complete; [done|]. by apply fmap_is_Some in Hq.
Qed.

(** The closest element of a class, from inside an element of that class
    that has no other inside. *)
Lemma closest_inside doc b r c :
  satisfies (has_class c) doc b ->
  getElementsByClassName doc b c = [] ->
  is_Some (element_at doc (b ++ r)) ->
  closest doc (b ++ r) c = Some b.
Proof.
  intros Hb Hnone. induction r as [|x r IH] using rev_ind; intros Hq.
  - rewrite app_nil_r. unfold closest.
    destruct (inclusive_ancestors_self b) as [l ->]. by rewrite filter_cons, decide_True.
  - unfold closest. rewrite app_assoc, inclusive_ancestors_snoc, filter_cons.
    rewrite decide_False.
    + apply IH. rewrite app_assoc in Hq. by apply element_at_prefix in Hq.
    + intros Hc. rewrite <- app_assoc in Hc.
      assert (b ++ r ++ [x] ∈ getElementsByClassName doc b c) as Hin.
      { apply list_elem_of_filter. split; [done|].
        apply descendant_paths_complete; [by destruct r|done]. }
      rewrite Hnone in Hin. by apply elem_of_nil in Hin.
Qed.

(** C8, as the script has it: with no list associated with the control and
    no [datalist] in the enclosing [.slider], but a [.datalist] among its
    descendants, a call marks the [.option] elements of the first such
    [.datalist], all of them inside the container, and changes the class of
    no other element, so of none outside the container.  When no slider lies
    inside the container, the markers are those of this slider: the
    container is their closest [.slider]. *)
Theorem onSliderInput_custom_fallback doc target t b c doc' :
  element_at doc target = Some t ->
  prop_list doc t = None ->
  closest doc target "slider" = Some b ->
  item0 (getElementsByTagName doc b "datalist") = None ->
  item0 (getElementsByClassName doc b "datalist") = Some c ->
  onSliderInput doc target = (doc', Normal tt) ->
  (forall q, q ∈ getElementsByClassName doc c "option" ->
     exists m m', element_at doc q = Some m /\ element_at doc' q = Some m' /\
       ("lower" ∈ classList m'
        <-> ltb (Number (getAttribute m "value")) (current t) = true)) /\
  (forall q, q ∉ getElementsByClassName doc c "option" ->
     classList <$> element_at doc' q = classList <$> element_at doc q) /\
  (forall q, q ∈ getElementsByClassName doc c "option" ->
     exists r, r ≠ [] /\ q = b ++ r) /\
  (forall q, (forall r, q ≠ b ++ r) ->
     classList <$> element_at doc' q = classList <$> element_at doc q) /\
  (getElementsByClassName doc b "slider" = [] ->
   forall q, q ∈ getElementsByClassName doc c "option" -> closest doc q "slider" = Some b).
Proof.
  intros Ht Hl Hb Hd Hc Hrun.
  assert (resolve_markers doc target = Some (CustomCollection c)) as Hres.
  { unfold resolve_markers. by rewrite Ht, Hl, Hb, Hd, Hc. }
  apply onSliderInput_Normal in Hrun as [_ Hrun].
  assert (forall q, q ∈ getElementsByClassName doc c "option" ->
            exists r, r ≠ [] /\ q = b ++ r) as Hinside.
  { intros q (r & Hr & ->)%getElementsByClassName_inside.
    apply head_Some_elem_of, getElementsByClassName_inside in Hc as (r' & Hr' & ->).
    exists (r' ++ r). split; [by destruct r'|by rewrite app_assoc]. }
  assert (forall q, q ∉ getElementsByClassName doc c "option" ->
            classList <$> element_at doc' q = classList <$> element_at doc q) as Hother.
  { intros q Hq. rewrite (synchronize_element_at doc target t doc' q Ht Hrun).
    apply fmap_element_at_ext. intros e. apply classList_synchronized_other.
    by rewrite Hres. }
  split; [|split; [done|split; [done|split]]].
  - intros q Hq.
    destruct (markers_element_at doc (CustomCollection c) q Hq) as [m Hm].
    exists m, (synchronized doc target t q m). split; [done|]. split.
    + by rewrite (synchronize_element_at doc target t doc' q Ht Hrun), Hm.
    + apply (lower_synchronized doc target t (CustomCollection c) q m Hres Hq).
  - intros q Hq. apply Hother. intros (r & _ & ->)%Hinside. by apply (Hq r).
  - intros Hnone q Hq.
    destruct (markers_element_at doc (CustomCollection c) q Hq) as [m Hm].
    destruct (Hinside q Hq) as (r & _ & ->).
    apply closest_inside; [by apply (closest_Some doc target)|done|by rewrite Hm].
Qed.

Lemma complete_spec doc :
  complete doc -> forall s, s ∈ sliders doc -> is_Some (control doc s).
Proof. unfold complete. rewrite Forall_forall. auto. Qed.

Lemma visitable_all doc :
  Forall (visitable doc) (sliders doc) <-> complete doc /\ supported_controls doc.
Proof.
  unfold complete, supported_controls, visitable. rewrite !Forall_forall. split.
  - intros H. split; intros s Hs; specialize (H s Hs); by destruct (control doc s).
  - intros [H1 H2] s Hs. specialize (H1 s Hs). specialize (H2 s Hs).
    destruct (control doc s); [done|by destruct H1].
Qed.

Lemma visitable_spec doc :
  complete doc -> supported_controls doc -> forall s, s ∈ sliders doc -> visitable doc s.
Proof. intros H1 H2. apply Forall_forall, visitable_all. done. Qed.

Lemma visitable_control doc s :
  visitable doc s ->
  exists i t, control doc s = Some i /\ element_at doc i = Some t /\ supported doc i.
Proof.
  unfold visitable. destruct (control doc s) as [i|]; [|done].
  intros Hsup. pose proof Hsup as ([t Ht] & _). eauto.
Qed.

Lemma unnested_spec doc :
  unnested doc ->
  forall s i, s ∈ sliders doc -> control doc s = Some i -> closest doc i "slider" = Some s.
Proof.
  unfold unnested. rewrite Forall_forall. intros H s i Hs Hi.
  specialize (H s Hs). by rewrite Hi in H.
Qed.

Lemma unshared_spec doc :
  unshared doc ->
  forall s s' i i' c c' q,
    s ∈ sliders doc -> s' ∈ sliders doc -> s ≠ s' ->
    control doc s = Some i -> control doc s' = Some i' ->
    resolve_markers doc i = Some c -> resolve_markers doc i' = Some c' ->
    q ∈ markers doc c -> q ∉ markers doc c'.
Proof.
  unfold unshared. rewrite Forall_forall. intros H s s' i i' c c' q Hs Hs' Hne Hi Hi' Hc Hc' Hq.
  specialize (H s Hs). rewrite Forall_forall in H. destruct (H s' Hs') as [?|Hd]; [done|].
  rewrite Forall_forall in Hd. unfold marked in Hd. rewrite Hi, Hi', Hc, Hc' in Hd.
  by apply Hd.
Qed.

Lemma control_similar d d' s : similar d d' -> control d s = control d' s.
Proof. intros Hs. unfold control. by rewrite (getElementsByTagName_similar d d' s "input" Hs). Qed.

Lemma control_element_at doc s i :
  control doc s = Some i -> exists t, element_at doc i = Some t.
Proof.
  unfold control, item0. intros H%head_Some_elem_of.
  apply list_elem_of_filter in H as [H _].
  apply satisfies_element_at in H as (t & ? & _). eauto.
Qed.

Lemma after_input_similar d target : similar d (after_input d target).
Proof.
  destruct (element_at d target) as [t|] eqn:Ht.
  - destruct (after_input_cases d target t Ht) as [[_ Hsync]|[(_ & _ & ->)|(_ & _ & ->)]].
    + by apply (synchronize_similar d target).
    + apply write_progress_similar.
    + apply similar_refl.
  - unfold after_input. rewrite onSliderInput_synchronize, Ht. apply similar_refl.
Qed.

Lemma same_static_set_value s e e' :
  same_static e e' -> same_static (set_value s e) (set_value s e').
Proof. intros [? ? ? ? ? ?]. by constructor. Qed.

Lemma resolve_markers_set_value s i d target :
  resolve_markers (alter_element (set_value s) i d) target = resolve_markers d target.
Proof.
  unfold resolve_markers. rewrite element_at_alter.
  destruct (element_at d target) as [t|]; simpl; [|done].
  assert (prop_list (alter_element (set_value s) i d)
            ((if decide (target = i) then set_value s else id) t) = prop_list d t) as ->.
  { rewrite prop_list_alter by done. by case_decide. }
  rewrite closest_alter by done.
  destruct (prop_list d t); [done|].
  destruct (closest d target "slider") as [b|]; [|done].
  rewrite getElementsByTagName_alter by done.
  by rewrite getElementsByClassName_alter by done.
Qed.

(** Whether a call returns does not depend on the value of a control. *)
Lemma supported_set_value s i d target :
  supported (alter_element (set_value s) i d) target <-> supported d target.
Proof.
  unfold supported, writable, iterable.
  rewrite resolve_markers_set_value, closest_alter, is_Some_alter by done.
  destruct (closest d target "slider") as [b|];
    destruct (resolve_markers d target) as [[l|l]|];
    rewrite ?has_style_alter, ?is_html_alter by done; done.
Qed.

(** One round of the loop of [bodyOnLoad], on a document similar to [doc]. *)
Lemma round_element_at doc d i t :
  similar doc d ->
  element_at doc i = Some t ->
  supported doc i ->
  exists d',
    onSliderInput (alter_element (addEventListener "input" SliderInputListener) i d) i
    = (d', Normal tt) /\
    similar doc d' /\
    forall q,
      element_at d' q
      = (fun e => synchronized doc i t q
                    (if decide (q = i)
                     then addEventListener "input" SliderInputListener e else e))
        <$> element_at d q.
Proof.
  intros Hs Ht Hsup.
  set (d1 := alter_element (addEventListener "input" SliderInputListener) i d).
  assert (similar doc d1) as Hs1.
  { eapply similar_trans; [exact Hs|]. apply similar_alter, same_static_listener. }
  destruct (similar_element_at doc d1 i t Hs1 Ht) as (t1 & Ht1 & Hst).
  destruct (onSliderInput_supported d1 i) as (d' & Hrun & Hsync).
  { by apply (supported_similar doc d1). }
  exists d'. split; [done|].
  split. { eapply similar_trans; [exact Hs1|]. by eapply synchronize_similar. }
  intros q. rewrite (synchronize_element_at d1 i t1 d' q Ht1 Hsync).
  subst d1. rewrite element_at_alter.
  destruct (element_at d q) as [e|]; [simpl|done]. f_equal.
  rewrite (synchronized_similar doc _ i t t1 q _ Hs1 Hst).
  by case_decide.
Qed.

(** A round for a control on which [onSliderInput] throws. *)
Lemma round_throws doc d i :
  similar doc d ->
  ~ supported doc i ->
  exists d',
    onSliderInput (alter_element (addEventListener "input" SliderInputListener) i d) i
    = (d', Throw TypeError) /\
    similar doc d'.
Proof.
  intros Hs Hsup.
  set (d1 := alter_element (addEventListener "input" SliderInputListener) i d).
  assert (similar doc d1) as Hs1.
  { eapply similar_trans; [exact Hs|]. apply similar_alter, same_static_listener. }
  exists (after_input d1 i). split.
  - pose proof (onSliderInput_unsupported d1 i) as H. unfold after_input.
    destruct (onSliderInput d1 i) as [d' c]. simpl in *. f_equal. apply H.
    by rewrite <- (supported_similar doc d1).
  - eapply similar_trans; [exact Hs1|apply after_input_similar].
Qed.

Lemma initialize_completes doc ss d :
  similar doc d ->
  (forall s, s ∈ ss -> visitable doc s) ->
  exists d', initialize ss d = (d', Normal tt) /\ similar doc d'.
Proof.
  revert d. induction ss as [|s ss IH]; intros d Hs Hc; [by exists d|].
  destruct (visitable_control doc s) as (i & t & Hi & Ht & Hsup); [apply Hc; left|]. simpl.
  fold (control d s). rewrite <- (control_similar doc d s Hs), Hi.
  destruct (round_element_at doc d i t Hs Ht Hsup) as (d' & -> & Hs' & _).
  apply IH; [done|]. intros s' Hs''. apply Hc. by right.
Qed.

Lemma initialize_throws doc ss d :
  similar doc d ->
  (exists s, s ∈ ss /\ ~ visitable doc s) ->
  (initialize ss d).2 = Throw TypeError.
Proof.
  revert d. induction ss as [|s ss IH]; intros d Hs (s' & Hin & Hnone).
  { by apply elem_of_nil in Hin. }
  simpl. fold (control d s). rewrite <- (control_similar doc d s Hs).
  destruct (control doc s) as [i|] eqn:Hi; [|done].
  destruct (decide (supported doc i)) as [Hsup|Hsup].
  - destruct (control_element_at doc s i Hi) as [t Ht].
    destruct (round_element_at doc d i t Hs Ht Hsup) as (d' & -> & Hs' & _).
    apply IH; [done|]. exists s'. split; [|done].
    apply elem_of_cons in Hin as [->|?]; [|done].
    destruct Hnone. unfold visitable. by rewrite Hi.
  - by destruct (round_throws doc d i Hs Hsup) as (d' & -> & _).
Qed.

(** C5, as the script has it: [onSliderInput] returns on the targets that
    are elements whose container, if any, has a [style] and whose native
    list, if any, is an HTML [datalist], and throws a [TypeError] on the
    others; [bodyOnLoad] returns when every element of class [slider] has an
    [input] descendant, the first of which is such a target, and throws a
    [TypeError] otherwise. *)
Theorem bodyOnLoad_completes doc :
  (forall target, supported doc target -> (onSliderInput doc target).2 = Normal tt) /\
  (forall target, ~ supported doc target -> (onSliderInput doc target).2 = Throw TypeError) /\
  (complete doc -> supported_controls doc -> (bodyOnLoad doc).2 = Normal tt) /\
  (~ complete doc \/ ~ supported_controls doc -> (bodyOnLoad doc).2 = Throw TypeError).
Proof.
  split; [|split; [|split]].
  - intros target Hsup. rewrite onSliderInput_completion. by rewrite decide_True.
  - apply onSliderInput_unsupported.
  - intros Hc Hsup. pose proof (visitable_spec doc Hc Hsup) as Hv. unfold bodyOnLoad.
    destruct (initialize_completes doc (sliders doc) doc (similar_refl doc) Hv)
      as (d' & Hd & _).
    unfold sliders in Hd. by rewrite Hd.
  - intros Hnot. apply (initialize_throws doc (sliders doc) doc (similar_refl doc)).
    assert (~ Forall (visitable doc) (sliders doc)) as Hex.
    { rewrite visitable_all. tauto. }
    apply not_Forall_Exists in Hex; [|apply _].
    apply Exists_exists in Hex as (s & Hs & Hv). eauto.
Qed.


Lemma listeners_set_below b e : listeners (set_below b e) = listeners e.
Proof. by destruct b. Qed.

Lemma listeners_synchronized doc i t q e :
  listeners (synchronized doc i t q e) = listeners e.
Proof.
  unfold synchronized. destruct (resolve_markers doc i) as [c|];
    repeat case_decide; unfold mark; by rewrite ?listeners_set_below.
Qed.

Lemma progress_synchronized doc i t q e :
  closest doc i "slider" = Some q ->
  style (synchronized doc i t q e) !! "--slider-progress"
  = Some (ratio (current t) (minimum t) (maximum t)).
Proof.
  intros Hq. unfold synchronized. rewrite decide_True by done.
  destruct (resolve_markers doc i) as [c|]; [|apply lookup_insert_eq].
  case_decide; [|apply lookup_insert_eq].
  unfold mark. rewrite style_set_below. apply lookup_insert_eq.
Qed.

Lemma same_static_synchronized doc i t q e : same_static e (synchronized doc i t q e).
Proof.
  unfold synchronized.
  assert (same_static e
            (if decide (closest doc i "slider" = Some q)
             then style_setProperty "--slider-progress"
                    (ratio (current t) (minimum t) (maximum t)) e
             else e)) as H1.
  { case_decide; [apply same_static_style | apply same_static_refl]. }
  cbv zeta. destruct (resolve_markers doc i) as [c|]; [|exact H1].
  destruct (decide (q ∈ markers doc c)); [|exact H1].
  eapply same_static_trans; [exact H1|apply same_static_set_below].
Qed.

Lemma sliders_element_at doc s : s ∈ sliders doc -> exists e, element_at doc s = Some e.
Proof.
  intros [H _]%list_elem_of_filter. apply satisfies_element_at in H as (e & ? & _). eauto.
Qed.

Section Round.
Context (doc d d' : Node) (sk ik : Path) (tk : Element).
Context (Hnest : forall s i, s ∈ sliders doc -> control doc s = Some i ->
                   closest doc i "slider" = Some s).
Context (Hshare : forall s s' i i' c c' q,
                    s ∈ sliders doc -> s' ∈ sliders doc -> s ≠ s' ->
                    control doc s = Some i -> control doc s' = Some i' ->
                    resolve_markers doc i = Some c -> resolve_markers doc i' = Some c' ->
                    q ∈ markers doc c -> q ∉ markers doc c').
Context (Hsim : similar doc d).
Context (Hsk : sk ∈ sliders doc) (Hik : control doc sk = Some ik).
Context (Htk : element_at doc ik = Some tk).
Context (Hd' : forall q,
  element_at d' q
  = (fun e => synchronized doc ik tk q
                (if decide (q = ik)
                 then addEventListener "input" SliderInputListener e else e))
    <$> element_at d q).

(** A round for the slider [sk] initializes it, and leaves the other
    sliders initialized. *)
Lemma round_initialized s i t :
  s ∈ sliders doc -> control doc s = Some i -> element_at doc i = Some t ->
  sk = s \/ initialized doc s i t d ->
  initialized doc s i t d'.
Proof using All.
  intros Hs Hi Ht Hor.
  pose proof (Hnest sk ik Hsk Hik) as Hclosest.
  set (added := fun q (e : Element) =>
         if decide (q = ik) then addEventListener "input" SliderInputListener e else e).
  assert (forall q e, same_static e (added q e)) as Hadded.
  { intros q e. unfold added. case_decide; [apply same_static_listener|apply same_static_refl]. }
  assert (forall q e, style (added q e) = style e) as Hstyle.
  { intros q e. unfold added. by case_decide. }
  assert (forall q e, classList (added q e) = classList e) as Hclass.
  { intros q e. unfold added. by case_decide. }
  destruct (decide (sk = s)) as [->|Hne].
  - assert (ik = i) as -> by congruence. assert (tk = t) as -> by congruence.
    split; [|split].
    + destruct (sliders_element_at doc s Hs) as [e0 He0].
      destruct (similar_element_at doc d s e0 Hsim He0) as (e & He & _).
      unfold slider_progress. rewrite Hd', He. simpl. by apply progress_synchronized.
    + intros c q m Hc Hq Hm. rewrite Hd' in Hm.
      destruct (element_at d q) as [e|]; [|done]. injection Hm as <-.
      fold (added q e).
      rewrite (lower_synchronized doc i t c q (added q e) Hc Hq).
      by rewrite (position_static c _ _ (same_static_synchronized doc i t q (added q e))).
    + destruct (similar_element_at doc d i t Hsim Ht) as (e & He & _).
      exists (synchronized doc i t i (addEventListener "input" SliderInputListener e)).
      split. { rewrite Hd', He. simpl. by rewrite decide_True. }
      rewrite listeners_synchronized. simpl. rewrite elem_of_app, list_elem_of_singleton.
      by right.
  - destruct Hor as [?|(Hp & Hm & Hl)]; [done|]. split; [|split].
    + unfold slider_progress in *. rewrite Hd'.
      destruct (element_at d s) as [e|]; [simpl|done].
      fold (added s e). rewrite style_synchronized_other, Hstyle; [done|].
      rewrite Hclosest. congruence.
    + intros c q m Hc Hq Hq'. rewrite Hd' in Hq'.
      destruct (element_at d q) as [e|] eqn:He; [|done]. injection Hq' as <-.
      fold (added q e). specialize (Hm c q e Hc Hq He).
      rewrite <- (position_static c _ _ (same_static_synchronized doc ik tk q (added q e))).
      rewrite <- (position_static c _ _ (Hadded q e)).
      rewrite classList_synchronized_other, Hclass; [done|].
      destruct (resolve_markers doc ik) as [ck|] eqn:Hck; [|done].
      by apply (Hshare s sk i ik c ck q).
    + destruct Hl as (e & He & Hin).
      exists (synchronized doc ik tk i (added i e)). split. { by rewrite Hd', He. }
      rewrite listeners_synchronized. unfold added. case_decide; [|done].
      simpl. rewrite elem_of_app. by left.
Qed.

End Round.

Lemma initialize_initialized doc ss d s i t :
  unnested doc -> unshared doc -> similar doc d ->
  (forall s', s' ∈ ss -> s' ∈ sliders doc /\ visitable doc s') ->
  s ∈ sliders doc -> control doc s = Some i -> element_at doc i = Some t ->
  s ∈ ss \/ initialized doc s i t d ->
  initialized doc s i t (initialize ss d).1.
Proof.
  intros Hnest Hshare Hsim Hss Hs Hi Ht. revert d Hsim.
  pose proof (unnested_spec doc Hnest) as Hnest'.
  pose proof (unshared_spec doc Hshare) as Hshare'.
  induction ss as [|sk ss IH]; intros d Hsim Hor.
  { destruct Hor as [Hin|?]; [by apply elem_of_nil in Hin|done]. }
  destruct (Hss sk) as [Hsk Hvk]; [left|].
  destruct (visitable_control doc sk Hvk) as (ik & tk & Hik & Htk & Hsupk). simpl.
  fold (control d sk). rewrite <- (control_similar doc d sk Hsim), Hik.
  destruct (round_element_at doc d ik tk Hsim Htk Hsupk) as (d' & -> & Hsim' & Hd').
  apply IH; [|done|].
  { intros s' Hs'. apply Hss. by right. }
  destruct (decide (s ∈ ss)) as [?|Hnotin]; [by left|right].
  apply (round_initialized doc d d' sk ik tk Hnest' Hshare' Hsim Hsk Hik Htk Hd' s i t Hs Hi Ht).
  destruct Hor as [[->|?]%elem_of_cons|?]; [by left|done|by right].
Qed.


Section Dispatch.
Context (d d1 : Node) (target : Path).
Context (Hrun : onSliderInput d target = (d1, Normal tt)).

Lemma run_listeners ls r :
  r = (d, []) \/ r = (d1, []) ->
  let r' := fold_left (run_listener target) ls r in
  (r' = (d, []) \/ r' = (d1, [])) /\
  (r = (d1, []) \/ ("input", SliderInputListener) ∈ ls -> r' = (d1, [])).
Proof using Hrun.
  pose proof (onSliderInput_again d target d1 Hrun) as Hrun1.
  revert r. induction ls as [|[type []] ls IH]; intros r Hr; simpl.
  { split; [done|]. intros [?|Hin]; [done|by apply elem_of_nil in Hin]. }
  assert (run_listener target r (type, SliderInputListener) = (d1, []) \/
          (type ≠ "input" /\ run_listener target r (type, SliderInputListener) = r)) as Hstep.
  { unfold run_listener. simpl.
    destruct Hr as [-> | ->]; case_decide; simpl; rewrite ?Hrun, ?Hrun1; auto. }
  destruct (IH (run_listener target r (type, SliderInputListener))) as [H1 H2].
  { destruct Hstep as [->|[_ ->]]; auto. }
  split; [done|]. intros Hor. apply H2.
  destruct Hstep as [->|[Hne Heq]]; [by left|]. rewrite Heq.
  destruct Hor as [?|Hin]; [by left|].
  apply elem_of_cons in Hin as [Heq'|?]; [|by right].
  injection Heq' as <-. done.
Qed.

(** An [input] event on an element that has the listener leaves what one
    call leaves, and no exception is reported. *)
Lemma dispatch_listened e :
  element_at d target = Some e ->
  ("input", SliderInputListener) ∈ listeners e ->
  dispatch_input d target = (d1, []).
Proof using Hrun.
  intros He Hin. unfold dispatch_input.
  destruct (inclusive_ancestors_self target) as [l ->]. simpl. rewrite He.
  destruct (run_listeners (listeners e) (d, [])) as [_ H]; [by left|].
  rewrite H by by right.
  induction l as [|q l IH]; [done|]. simpl.
  destruct (element_at d q) as [e'|]; [|done].
  destruct (run_listeners (listeners e') (d1, [])) as [_ H']; [by right|].
  rewrite H' by by left. done.
Qed.

End Dispatch.

Lemma precedes_app p a b : precedes a b -> precedes (p ++ a) (p ++ b).
Proof. intros H. induction p as [|i p IH]; simpl; auto. Qed.

Lemma children_paths_sorted kids s :
  Forall (fun k => StronglySorted precedes (paths k)) kids ->
  StronglySorted precedes (flat_mapi (fun i k => [i] :: map (cons i) (paths k)) s kids) /\
  (forall q, q ∈ flat_mapi (fun i k => [i] :: map (cons i) (paths k)) s kids ->
     exists j r, q = j :: r /\ (s <= j)%nat).
Proof.
  intros Hkids. revert s. induction Hkids as [|k kids Hk _ IH]; intros s; simpl.
  { split; [constructor|]. by intros q ?%elem_of_nil. }
  destruct (IH (S s)) as [Hsorted Hfrom]. split.
  - rewrite app_comm_cons. apply StronglySorted_app. split; [|split; [|done]].
    + intros x1 x2 Hx1 (j & r & -> & Hj)%Hfrom.
      apply elem_of_cons in Hx1 as [->|(r' & -> & _)%list_elem_of_fmap]; simpl; left; lia.
    + apply StronglySorted_cons. split.
      * apply Forall_forall. intros q (r & -> & Hr)%list_elem_of_fmap. simpl. right.
        split; [done|]. destruct r; [by apply paths_nonempty in Hr|done].
      * apply (StronglySorted_fmap (cons s) precedes precedes); [|done].
        intros x y Hxy. by apply (precedes_app [s]).
  - intros q Hq. rewrite app_comm_cons in Hq. apply elem_of_app in Hq as [Hq|Hq].
    + apply elem_of_cons in Hq as [->|(r & -> & _)%list_elem_of_fmap]; eauto.
    + destruct (Hfrom q Hq) as (j & r & -> & Hj). exists j, r. split; [done|lia].
Qed.

Lemma paths_sorted n : StronglySorted precedes (paths n).
Proof.
  induction n as [e kids IH] using Node_ind'. by apply children_paths_sorted.
Qed.

Lemma filter_sorted (P : Path -> Prop) `{forall q, Decision (P q)} l :
  StronglySorted precedes l -> StronglySorted precedes (filter P l).
Proof.
  induction 1 as [|q l _ IH Hq]; [constructor|].
  rewrite filter_cons. case_decide; [|done].
  constructor; [done|]. rewrite Forall_forall in *.
  intros x [_ Hx]%list_elem_of_filter. by apply Hq.
Qed.

(** The collection of the sliders is in tree order. *)
Lemma sliders_sorted doc : StronglySorted precedes (sliders doc).
Proof.
  apply filter_sorted. unfold document_paths, descendant_paths. simpl.
  constructor.
  - apply (StronglySorted_fmap (app []) precedes precedes); [done|apply paths_sorted].
  - apply Forall_forall. intros q (r & -> & Hr)%list_elem_of_fmap. simpl.
    destruct r; [by apply paths_nonempty in Hr|done].
Qed.

(** An [input] event on a control with the listener, whatever its value
    has become. *)
Lemma next_dispatch doc d i e v :
  similar doc d -> supported doc i ->
  element_at d i = Some e -> ("input", SliderInputListener) ∈ listeners e ->
  exists d',
    onSliderInput (alter_element (set_value v) i d) i = (d', Normal tt) /\
    dispatch_input (alter_element (set_value v) i d) i = (d', []).
Proof.
  intros Hs Hsup He Hin.
  destruct (onSliderInput_supported (alter_element (set_value v) i d) i) as (d' & Hrun & _).
  { apply supported_set_value. by apply (supported_similar doc d). }
  exists d'. split; [done|].
  apply (dispatch_listened _ d' i Hrun (set_value v e)); [|done].
  by rewrite element_at_alter, He, decide_True.
Qed.

(** C9, as the script has it: when every slider has a control, on which
    [onSliderInput] returns, no slider lies between a slider and its
    control, and no two sliders share a marker, [bodyOnLoad] returns after
    visiting every element of class [slider], one round of the loop for
    each, in tree order; each slider then has the progress of its control,
    its markers have the class [lower] exactly below the value of its
    control, and its control has a listener by which an [input] event, the
    value changed, leaves what a call of [onSliderInput] leaves. *)
Theorem bodyOnLoad_initializes doc :
  complete doc -> supported_controls doc -> unnested doc -> unshared doc ->
  exists doc',
    bodyOnLoad doc = (doc', Normal tt) /\
    bodyOnLoad doc = initialize (sliders doc) doc /\
    StronglySorted precedes (sliders doc) /\
    (forall s e, element_at doc s = Some e -> "slider" ∈ classList e -> s ∈ sliders doc) /\
    (forall s, s ∈ sliders doc ->
       exists i t,
         control doc s = Some i /\ element_at doc i = Some t /\
         initialized doc s i t doc' /\
         forall v, exists d,
           onSliderInput (alter_element (set_value v) i doc') i = (d, Normal tt) /\
           dispatch_input (alter_element (set_value v) i doc') i = (d, [])).
Proof.
  intros Hcomplete Hsupported Hnest Hshare.
  pose proof (visitable_spec doc Hcomplete Hsupported) as Hv.
  destruct (initialize_completes doc (sliders doc) doc (similar_refl doc) Hv)
    as (doc' & Hdoc' & Hsim).
  exists doc'. split; [done|]. split; [done|]. split; [apply sliders_sorted|].
  split; [apply sliders_complete|].
  intros s Hs. destruct (visitable_control doc s (Hv s Hs)) as (i & t & Hi & Ht & Hsup).
  exists i, t. split; [done|]. split; [done|].
  assert (initialized doc s i t doc') as Hinit.
  { replace doc' with (initialize (sliders doc) doc).1 by by rewrite Hdoc'.
    apply initialize_initialized; try done; [apply similar_refl| |by left].
    intros s' Hs'. split; [done|by apply Hv]. }
  split; [done|]. intros v.
  destruct Hinit as (_ & _ & e & He & Hin).
  by apply (next_dispatch doc doc' i e v).
Qed.

Lemma valid_Number v : Rounding.valid (Number v).
Proof. destruct v; [done|done|apply RoundingFacts.valid_StringToNumber]. Qed.

Lemma valid_current t : Rounding.valid (current t).
Proof. apply RoundingFacts.valid_or_zero, valid_Number. Qed.

Lemma valid_minimum t : Rounding.valid (minimum t).
Proof. apply RoundingFacts.valid_or_zero, valid_Number. Qed.

Lemma valid_maximum t : Rounding.valid (maximum t).
Proof. apply RoundingFacts.valid_or_zero, valid_Number. Qed.

(** C4, as the script has it: the progress is not clamped.  For [max > min]
    it is [(current - min) / (max - min) * 100], which lies between 0 and 100
    when [min <= current <= max] and the width [max - min] is a finite
    number; for [max <= min] it is 0.  It is written whenever the container
    has a [style]. *)
Theorem progress_within_range doc target t b :
  element_at doc target = Some t ->
  closest doc target "slider" = Some b ->
  satisfies has_style doc b ->
  exists r,
    slider_progress (after_input doc target) b = Some (NumberToString r +:+ "%") /\
    (gtb (maximum t) (minimum t) = true ->
       r = mul (div (sub (current t) (minimum t)) (sub (maximum t) (minimum t)))
               (of_Z 100)) /\
    (leb (maximum t) (minimum t) = true -> r = zero) /\
    (gtb (maximum t) (minimum t) = true ->
     leb (minimum t) (current t) = true ->
     leb (current t) (maximum t) = true ->
     is_finite (sub (maximum t) (minimum t)) = true ->
     leb zero r = true /\ leb r (of_Z 100) = true).
Proof.
  intros Ht Hb Hsty.
  exists (progress (current t) (minimum t) (maximum t)).
  split; [by apply after_input_progress|].
  unfold progress. split; [by intros ->|]. split.
  - intros Hle. by rewrite (leb_not_gtb _ _ Hle).
  - intros Hgt Hlo Hhi Hfin. rewrite Hgt, RoundingFacts.of_Z_hundred.
    apply RoundingFacts.progress_range;
      auto using valid_current, valid_minimum, valid_maximum.
    by apply RoundingFacts.finite_is_finite.
Qed.

(** *** Instances *)

Ltac evaluate := vm_compute; reflexivity.
Ltac decided := apply (bool_decide_unpack _); vm_compute; exact I.

(** C1 on the first example of the documentation: 25 in 0..100 gives [25%]. *)
Lemma onSliderInput_progress_witness :
  element_at native_slider [0%nat] = Some (element (range "0" "100" "25")) /\
  closest native_slider [0%nat] "slider" = Some [] /\
  satisfies has_style native_slider [] /\
  slider_progress (after_input native_slider [0%nat]) [] = Some "25%".
Proof.
  assert (element_at native_slider [0%nat] = Some (element (range "0" "100" "25")))
    as H1 by evaluate.
  assert (closest native_slider [0%nat] "slider" = Some []) as H2 by evaluate.
  assert (satisfies has_style native_slider []) as H3 by decided.
  split; [exact H1|]. split; [exact H2|]. split; [exact H3|].
  destruct (onSliderInput_progress _ _ _ _ H1 H2) as (_ & _ & Hwritten & _).
  destruct (Hwritten H3) as [Hgt _]. rewrite Hgt by evaluate. evaluate.
Defined.

(** C2 on the first example: the marker at 0 is below 25. *)
Lemma onSliderInput_marker_flags_witness :
  resolve_markers native_slider [0%nat] = Some (NativeList [1%nat]) /\
  [1; 0]%nat ∈ markers native_slider (NativeList [1%nat]) /\
  exists m',
    element_at (after_input native_slider [0%nat]) [1; 0]%nat = Some m' /\
    "lower" ∈ classList m'.
Proof.
  assert (element_at native_slider [0%nat] = Some (element (range "0" "100" "25")))
    as H1 by evaluate.
  assert (onSliderInput native_slider [0%nat]
          = (after_input native_slider [0%nat], Normal tt))
    as H2 by evaluate.
  assert (resolve_markers native_slider [0%nat] = Some (NativeList [1%nat])) as H3 by evaluate.
  assert ([1; 0]%nat ∈ markers native_slider (NativeList [1%nat])) as H4 by decided.
  split; [exact H3|]. split; [exact H4|].
  destruct (onSliderInput_marker_flags _ _ _ _ _ H1 H2 H3 _ H4)
    as (m & m' & Hm & Hm' & _ & Hiff & _).
  exists m'. split; [exact Hm'|]. apply Hiff.
  assert (element_at native_slider [1; 0]%nat = Some (element (option_ "0"))) as H by evaluate.
  assert (m = element (option_ "0")) as -> by congruence.
  evaluate.
Defined.

(** C10 on a marker whose position is [abc]. *)
Lemma onSliderInput_nan_marker_witness :
  is_nan (Number (position (NativeList [1%nat]) (element (option_ "abc")))) = true /\
  exists m',
    element_at (after_input unparsed_marker [0%nat]) [1; 0]%nat = Some m' /\
    "lower" ∉ classList m'.
Proof.
  split; [evaluate|].
  apply (onSliderInput_nan_marker unparsed_marker [0%nat] (element (range "0" "100" "25"))
           (after_input unparsed_marker [0%nat]) (NativeList [1%nat]))
    with (m := element (option_ "abc")); try evaluate.
  decided.
Defined.

(** C3 on the degenerate example: the custom collection is resolved, and
    the progress is [0%]. *)
Lemma onSliderInput_resolution_witness :
  onSliderInput degenerate_slider [0%nat]
  = (after_input degenerate_slider [0%nat], Normal tt) /\
  resolve_markers degenerate_slider [0%nat] = Some (CustomCollection [1%nat]) /\
  slider_progress (after_input degenerate_slider [0%nat]) [] = Some "0%".
Proof.
  destruct (onSliderInput_resolution degenerate_slider [0%nat]
              (element (number_input "0" "0" "50")))
    as (_ & _ & _ & _ & Hcustom & _ & Hp); [evaluate|].
  split; [evaluate|]. split.
  - rewrite (Hcustom []) by evaluate. evaluate.
  - rewrite (Hp []); [evaluate|evaluate|decided].
Defined.

(** C6 on the first example. *)
Lemma onSliderInput_idempotent_witness :
  onSliderInput (after_input native_slider [0%nat]) [0%nat]
  = (after_input native_slider [0%nat], Normal tt).
Proof. apply (onSliderInput_idempotent native_slider). evaluate. Defined.

(** C7 on an input outside every slider: nothing changes. *)
Lemma onSliderInput_skips_witness :
  supported bare_input [0%nat] /\
  closest bare_input [0%nat] "slider" = None /\
  onSliderInput bare_input [0%nat] = (bare_input, Normal tt).
Proof.
  assert (supported bare_input [0%nat]) as H by decided.
  split; [exact H|]. split; [evaluate|].
  destruct (onSliderInput_skips bare_input [0%nat]) as (Hreturns & _ & _).
  destruct (Hreturns H) as (doc' & Hrun & _ & _ & Hsame).
  rewrite Hrun. f_equal. apply (Hsame (element (range "0" "100" "25"))); evaluate.
Defined.

(** C8 on two sliders: the markers of the first are marked, and are its
    own; those of the second are left alone. *)
Lemma onSliderInput_custom_fallback_witness :
  (exists m',
     element_at (after_input two_sliders [0; 0]%nat) [0; 1; 0]%nat = Some m' /\
     "lower" ∈ classList m') /\
  classList <$> element_at (after_input two_sliders [0; 0]%nat) [1; 1; 0]%nat
  = classList <$> element_at two_sliders [1; 1; 0]%nat /\
  closest two_sliders [0; 1; 0]%nat "slider" = Some [0%nat].
Proof.
  destruct (onSliderInput_custom_fallback two_sliders [0; 0]%nat
              (element (range "0" "100" "50")) [0%nat] [0; 1]%nat
              (after_input two_sliders [0; 0]%nat))
    as (Hin & _ & _ & Hout & Hown); try evaluate.
  split; [|split].
  - destruct (Hin [0; 1; 0]%nat) as (m & m' & Hm & Hm' & Hiff); [decided|].
    exists m'. split; [exact Hm'|]. apply Hiff.
    assert (element_at two_sliders [0; 1; 0]%nat = Some (element (custom_option "0")))
      as H by evaluate.
    assert (m = element (custom_option "0")) as -> by congruence.
    evaluate.
  - apply Hout. intros r. destruct r; discriminate.
  - apply Hown; [evaluate|decided].
Defined.

(** C5 on two sliders, each with its control. *)
Lemma bodyOnLoad_completes_witness :
  complete two_sliders /\ supported_controls two_sliders /\
  (bodyOnLoad two_sliders).2 = Normal tt.
Proof.
  assert (complete two_sliders) as H1 by decided.
  assert (supported_controls two_sliders) as H2 by decided.
  split; [exact H1|]. split; [exact H2|].
  destruct (bodyOnLoad_completes two_sliders) as (_ & _ & Hreturns & _).
  exact (Hreturns H1 H2).
Defined.

(** C9 on two sliders, each with its control and its markers: [50%] and
    [10%]. *)
Lemma bodyOnLoad_initializes_witness :
  complete two_sliders /\ supported_controls two_sliders /\
  unnested two_sliders /\ unshared two_sliders /\
  exists doc',
    bodyOnLoad two_sliders = (doc', Normal tt) /\
    slider_progress doc' [0%nat] = Some "50%" /\
    slider_progress doc' [1%nat] = Some "10%".
Proof.
  assert (complete two_sliders) as H1 by decided.
  assert (supported_controls two_sliders) as H0 by decided.
  assert (unnested two_sliders) as H2 by decided.
  assert (unshared two_sliders) as H3 by decided.
  split; [exact H1|]. split; [exact H0|]. split; [exact H2|]. split; [exact H3|].
  destruct (bodyOnLoad_initializes two_sliders H1 H0 H2 H3)
    as (doc' & Hrun & _ & _ & _ & Hall).
  exists doc'. split; [exact Hrun|]. split.
  - destruct (Hall [0%nat]) as (i & t & Hi & Ht & (Hp & _) & _); [decided|].
    assert (control two_sliders [0%nat] = Some [0; 0]%nat) as Hc by evaluate.
    assert (i = [0; 0]%nat) as -> by congruence.
    assert (element_at two_sliders [0; 0]%nat = Some (element (range "0" "100" "50")))
      as He by evaluate.
    assert (t = element (range "0" "100" "50")) as -> by congruence.
    rewrite Hp. evaluate.
  - destruct (Hall [1%nat]) as (i & t & Hi & Ht & (Hp & _) & _); [decided|].
    assert (control two_sliders [1%nat] = Some [1; 0]%nat) as Hc by evaluate.
    assert (i = [1; 0]%nat) as -> by congruence.
    assert (element_at two_sliders [1; 0]%nat = Some (element (range "0" "10" "1")))
      as He by evaluate.
    assert (t = element (range "0" "10" "1")) as -> by congruence.
    rewrite Hp. evaluate.
Defined.

(** C4 on the first example: the progress 25 is within 0..100. *)
Lemma progress_within_range_witness :
  exists r,
    slider_progress (after_input native_slider [0%nat]) [] = Some (NumberToString r +:+ "%") /\
    leb zero r = true /\ leb r (of_Z 100) = true.
Proof.
  destruct (progress_within_range native_slider [0%nat]
              (element (range "0" "100" "25")) [])
    as (r & Hp & _ & _ & Hrange); [evaluate|evaluate|decided|].
  exists r. split; [exact Hp|].
  apply Hrange; evaluate.
Defined.

(** C4 fails: in a number control, a value above the range gives [150%] and
    one below it [-50%]; in a range control, a value within a range too wide
    for a finite number gives [NaN%]. *)
Lemma progress_outside_range :
  let above := element (number_input "0" "100" "150") in
  let below := element (number_input "0" "100" "-50") in
  element_at above_range [0%nat] = Some above /\
  gtb (maximum above) (minimum above) = true /\
  onSliderInput above_range [0%nat] = (after_input above_range [0%nat], Normal tt) /\
  slider_progress (after_input above_range [0%nat]) [] = Some "150%" /\
  leb (progress (current above) (minimum above) (maximum above)) (of_Z 100) = false /\
  element_at below_range [0%nat] = Some below /\
  gtb (maximum below) (minimum below) = true /\
  onSliderInput below_range [0%nat] = (after_input below_range [0%nat], Normal tt) /\
  slider_progress (after_input below_range [0%nat]) [] = Some "-50%" /\
  leb zero (progress (current below) (minimum below) (maximum below)) = false /\
  let wide := element (range "-1e308" "1e308" "1e308") in
  element_at wide_range [0%nat] = Some wide /\
  gtb (maximum wide) (minimum wide) = true /\
  leb (minimum wide) (current wide) = true /\
  leb (current wide) (maximum wide) = true /\
  onSliderInput wide_range [0%nat] = (after_input wide_range [0%nat], Normal tt) /\
  slider_progress (after_input wide_range [0%nat]) [] = Some "NaN%" /\
  is_nan (progress (current wide) (minimum wide) (maximum wide)) = true.
Proof. repeat split; evaluate. Qed.

(** C5 fails: [bodyOnLoad] throws on a slider without an [input]; it throws
    as well, as [onSliderInput] does, on a slider whose first element named
    [datalist] is inside an [svg]. *)
Lemma bodyOnLoad_throws :
  ([0%nat] ∈ sliders missing_control /\
   control missing_control [0%nat] = None /\
   (bodyOnLoad missing_control).2 = Throw TypeError) /\
  (complete foreign_first /\
   control foreign_first [0%nat] = Some [0; 0]%nat /\
   element_at foreign_first [0; 0]%nat = Some (element (range "0" "100" "50")) /\
   (onSliderInput foreign_first [0; 0]%nat).2 = Throw TypeError /\
   (bodyOnLoad foreign_first).2 = Throw TypeError).
Proof.
  split.
  - split; [decided|]. split; evaluate.
  - split; [decided|]. repeat split; evaluate.
Qed.

(** C7 fails: a call throws when its target is no element; when the first
    element named [datalist] in the container is inside an [svg], after it
    has written the progress; and when the container has no [style]. *)
Lemma onSliderInput_throws :
  (element_at bare_input [5%nat] = None /\
   onSliderInput bare_input [5%nat] = (bare_input, Throw TypeError)) /\
  (element_at foreign_datalist [0%nat] = Some (element (range "0" "100" "50")) /\
   closest foreign_datalist [0%nat] "slider" = Some [] /\
   item0 (getElementsByTagName foreign_datalist [] "datalist") = Some [1; 0]%nat /\
   (namespaceURI <$> element_at foreign_datalist [1; 0]%nat) = Some SVG /\
   prop_options foreign_datalist [1; 0]%nat = None /\
   (onSliderInput foreign_datalist [0%nat]).2 = Throw TypeError /\
   slider_progress foreign_datalist [] = None /\
   slider_progress (after_input foreign_datalist [0%nat]) [] = Some "50%") /\
  (element_at unstyled_slider [0%nat] = Some (element (range "0" "100" "50")) /\
   closest unstyled_slider [0%nat] "slider" = Some [] /\
   (namespaceURI <$> element_at unstyled_slider []) = Some OtherNamespace /\
   onSliderInput unstyled_slider [0%nat] = (unstyled_slider, Throw TypeError)).
Proof. repeat split; evaluate. Qed.

(** C8 fails: the outer of two sliders has no markers, the inner one has a
    custom collection; a call for the control of the outer slider, at 50,
    marks the markers of the inner slider, whose control is at 1: the marker
    at 10 gets the class [lower]. *)
Lemma onSliderInput_marks_inner_slider :
  element_at marked_inside [0%nat] = Some (element (range "0" "100" "50")) /\
  prop_list marked_inside (element (range "0" "100" "50")) = None /\
  closest marked_inside [0%nat] "slider" = Some [] /\
  item0 (getElementsByTagName marked_inside [] "datalist") = None /\
  item0 (getElementsByClassName marked_inside [] "datalist") = Some [1; 1]%nat /\
  onSliderInput marked_inside [0%nat] = (after_input marked_inside [0%nat], Normal tt) /\
  [1; 1; 2]%nat ∈ getElementsByClassName marked_inside [1; 1]%nat "option" /\
  closest marked_inside [1; 1; 2]%nat "slider" = Some [1%nat] /\
  control marked_inside [1%nat] = Some [1; 0]%nat /\
  resolve_markers marked_inside [1; 0]%nat = Some (CustomCollection [1; 1]%nat) /\
  (current <$> element_at marked_inside [1; 0]%nat) = Some (of_Z 1) /\
  (Number ∘ (fun m => getAttribute m "value") <$> element_at marked_inside [1; 1; 2]%nat)
  = Some (of_Z 10) /\
  ltb (of_Z 10) (of_Z 1) = false /\
  is_lower marked_inside [1; 1; 2]%nat = false /\
  is_lower (after_input marked_inside [0%nat]) [1; 1; 2]%nat = true.
Proof.
  repeat split; try evaluate. decided.
Qed.

(** C9 fails: a slider after one without a control is never visited; the
    outer of two nested sliders gets no progress; of two sliders that name
    the same [datalist], the first has a marker at 50 marked as below its
    value 10; a slider after one whose first element named [datalist] is
    inside an [svg] is never visited, although every slider has a control,
    none is nested and none shares a marker. *)
Lemma bodyOnLoad_leaves_sliders_out :
  ((bodyOnLoad missing_control).2 = Throw TypeError /\
   control missing_control [1%nat] = Some [1; 0]%nat /\
   slider_progress (bodyOnLoad missing_control).1 [1%nat] = None) /\
  ((bodyOnLoad nested_sliders).2 = Normal tt /\
   [] ∈ sliders nested_sliders /\
   control nested_sliders [] = Some [0; 0]%nat /\
   slider_progress (bodyOnLoad nested_sliders).1 [] = None) /\
  ((bodyOnLoad shared_datalist).2 = Normal tt /\
   control shared_datalist [0%nat] = Some [0; 0]%nat /\
   resolve_markers shared_datalist [0; 0]%nat = Some (NativeList [0; 1]%nat) /\
   [0; 1; 0]%nat ∈ markers shared_datalist (NativeList [0; 1]%nat) /\
   (current <$> element_at shared_datalist [0; 0]%nat) = Some (of_Z 10) /\
   (Number ∘ prop_value <$> element_at shared_datalist [0; 1; 0]%nat) = Some (of_Z 50) /\
   ltb (of_Z 50) (of_Z 10) = false /\
   is_lower (bodyOnLoad shared_datalist).1 [0; 1; 0]%nat = true) /\
  (complete foreign_first /\ unnested foreign_first /\ unshared foreign_first /\
   (bodyOnLoad foreign_first).2 = Throw TypeError /\
   sliders foreign_first = [[0%nat]; [1%nat]] /\
   control foreign_first [1%nat] = Some [1; 0]%nat /\
   slider_progress (bodyOnLoad foreign_first).1 [1%nat] = None /\
   (listeners <$> element_at (bodyOnLoad foreign_first).1 [1; 0]%nat) = Some []).
Proof.
  split; [|split; [|split]].
  - repeat split; evaluate.
  - split; [evaluate|]. split; [decided|]. split; evaluate.
  - split; [evaluate|]. split; [evaluate|]. split; [evaluate|]. split; [decided|].
    repeat split; evaluate.
  - split; [decided|]. split; [decided|]. split; [decided|]. repeat split; evaluate.
Qed.

End SliderSpec.

(** ** Facts about the progress *)

Module ProgressFacts.
Import JsNumber Rounding RoundingUse NumberFacts RoundingFacts.

(** A rounding of a float of the format is that float. *)
Lemma Rnd_exact_unique m e f :
  Rnd false (val (Zpos m) e) f -> valid (S754_finite false m e) ->
  f = S754_finite false m e.
Proof.
  intros H Hv.
  destruct (Rnd_upper _ f m e H Hv ltac:(lra)) as [Ff Hle].
  pose proof (Rnd_lower _ f m e H Hv ltac:(lra) Ff) as Hge.
  pose proof (val_pos (Zpos m) e ltac:(lia)) as Hpos.
  destruct (finite_F2Q_pos f Ff ltac:(lra)) as (m' & e' & ->).
  pose proof (Rnd_valid _ _ _ H) as Hv'.
  destruct (SFcompare_spec _ _ Hv' Hv I I) as (c & Hc & Hs).
  simpl F2Q in *. destruct c; simpl in Hs; try lra.
  cbn [SFcompare] in Hc.
  destruct (Z.compare_spec e' e) as [->|?|?]; try discriminate.
  change (Pos.compare_cont Eq m' m) with (Pos.compare m' m) in Hc.
  destruct (Pos.compare_spec m' m) as [->|?|?]; try discriminate. done.
Qed.

(** The width of a range of finite bounds. *)
Lemma width_spec a b :
  valid a -> valid b -> finite a -> finite b -> (F2Q a < F2Q b)%Q ->
  SFsub prec emax b a = S754_infinity false \/
  exists m e, SFsub prec emax b a = S754_finite false m e /\
              Rnd false (F2Q b - F2Q a) (S754_finite false m e).
Proof.
  intros Va Vb Fa Fb Hab.
  destruct (SFsub_spec b a Vb Va Fb Fa ltac:(lra)) as [_ H2]. specialize (H2 ltac:(lra)).
  set (n2 := SFsub prec emax b a) in *.
  destruct (Rnd_result _ _ _ H2) as (m & l & c & _ & [[_ E]|(_ & m3 & e3 & _ & _ & E)]).
  - exfalso.
    destruct (valid_grid b Vb Fb) as [kb Eb], (valid_grid a Va Fa) as [ka Ea].
    assert (ka < kb) as Hk by (apply (val_lt_inv _ _ emin); lra).
    assert (val 1 emin <= F2Q b - F2Q a)%Q as Hle.
    { rewrite Eb, Ea. assert (val (ka + 1) emin <= val kb emin)%Q by (apply val_le; lia).
      rewrite val_plus in H. lra. }
    assert (finite n2) as Hfin by by rewrite E.
    pose proof (Rnd_lower _ n2 1 emin H2 eq_refl Hle Hfin) as Hlow.
    pose proof (val_pos 1 emin ltac:(lia)). rewrite E in Hlow. simpl in Hlow. lra.
  - destruct (Z.leb e3 (emax - prec)); [right|by left].
    exists m3, e3. split; [done|]. by rewrite <- E.
Qed.

Lemma finite_bounds a b :
  finite (SFsub prec emax b a) -> finite a /\ finite b.
Proof.
  intros Hfin.
  destruct b as [| | |], a as [| | |]; try (split; exact I);
    cbn [SFsub finite] in Hfin; try contradiction;
    repeat match goal with s : bool |- _ => destruct s end; contradiction.
Qed.

(** The progress of the least value of the range is zero. *)
Lemma percentage_min a b :
  valid a -> valid b -> finite a -> SFltb a b = true ->
  exists s, percentage a a b = S754_zero s.
Proof.
  intros Va Vb Fa Hab. unfold percentage.
  destruct (SFsub_spec a a Va Va Fa Fa ltac:(lra)) as [[s1 ->] _]; [ring|].
  assert (SFsub prec emax b a = S754_infinity false \/
          exists m e, SFsub prec emax b a = S754_finite false m e) as [->|(m & e & ->)].
  { destruct b as [sb|sb| |sb mb eb] eqn:Eb.
    - rewrite <- Eb in *. apply (SFltb_lt a b Va Vb Fa) in Hab; [|by rewrite Eb].
      destruct (width_spec a b Va Vb Fa) as [?|(m & e & ? & _)]; [by rewrite Eb|done| |]; eauto.
    - left. destruct sb; [by destruct a as [| | |[]]|]. by destruct a as [[]| | |[]].
    - by destruct a.
    - rewrite <- Eb in *. apply (SFltb_lt a b Va Vb Fa) in Hab; [|by rewrite Eb].
      destruct (width_spec a b Va Vb Fa) as [?|(m & e & ? & _)]; [by rewrite Eb|done| |]; eauto. }
  - exists s1. by destruct s1.
  - exists s1. by destruct s1.
Qed.

(** The progress of the greatest value of the range is 100. *)
Lemma percentage_max a b :
  valid a -> valid b -> SFltb a b = true -> finite (SFsub prec emax b a) ->
  percentage b a b = hundred.
Proof.
  intros Va Vb Hab Hfin. destruct (finite_bounds a b Hfin) as [Fa Fb].
  apply (SFltb_lt a b Va Vb Fa Fb) in Hab. unfold percentage.
  destruct (width_spec a b Va Vb Fa Fb Hab) as [E|(m & e & E & _)];
    [by rewrite E in Hfin|]. rewrite E.
  pose proof (SFdiv_Rnd m e m e 1 ltac:(ring)) as Hq.
  apply (Rnd_proper _ _ (val 4503599627370496 (-52))) in Hq;
    [|vm_compute; reflexivity].
  apply Rnd_exact_unique in Hq; [|reflexivity]. rewrite Hq. reflexivity.
Qed.

(** *** Monotonicity *)

Lemma near_finite x f : near x f -> valid f /\ finite f /\ (0 <= F2Q f)%Q.
Proof.
  intros [[_ [s ->]]|(Hx & HR & Hf)]; [simpl; repeat split; lra|].
  split; [by eapply Rnd_valid|]. split; [done|].
  destruct (Rnd_finite_cases _ _ HR Hf) as [->|(m & e & ->)]; simpl; [lra|].
  apply Qlt_le_weak, val_pos. lia.
Qed.

Lemma near_cases x f :
  near x f ->
  (exists s, f = S754_zero s) \/ (exists m e, f = S754_finite false m e /\ (0 < x)%Q /\ Rnd false x f).
Proof.
  intros [[_ [s ->]]|(Hx & HR & Hf)]; [eauto|].
  destruct (Rnd_finite_cases _ _ HR Hf) as [->|(m & e & ->)]; [eauto|].
  right. eauto 6.
Qed.

Lemma near_monotone u v fu fv :
  near u fu -> near v fv -> (u <= v)%Q -> (F2Q fu <= F2Q fv)%Q.
Proof.
  intros Hu Hv Huv. destruct (near_finite _ _ Hv) as (_ & _ & Hv0).
  destruct Hu as [[_ [s ->]]|(Hu0 & HRu & _)]; [exact Hv0|].
  destruct Hv as [[Hv1 _]|(_ & HRv & Fv)]; [lra|].
  by apply (Rnd_monotone u v fu fv).
Qed.

(** The difference of [v] and a smaller [a], below a width [w] that does
    not overflow. *)
Lemma near_sub v a w n2 :
  valid v -> valid a -> finite v -> finite a -> (F2Q a <= F2Q v)%Q ->
  Rnd false w n2 -> finite n2 -> (0 < F2Q n2)%Q -> (F2Q v - F2Q a <= w)%Q ->
  near (F2Q v - F2Q a) (SFsub prec emax v a) /\
  (F2Q (SFsub prec emax v a) <= F2Q n2)%Q.
Proof.
  intros Vv Va Fv Fa Hav HR F2 Hpos Hle.
  destruct (SFsub_spec v a Vv Va Fv Fa Hav) as [H0 H1].
  destruct (Qlt_le_dec 0 (F2Q v - F2Q a)) as [Hp|Hz].
  - destruct (Rnd_monotone _ _ _ n2 (H1 Hp) HR Hle F2) as [F1 Hm].
    split; [|done]. right. split; [done|]. split; [by apply H1|done].
  - destruct H0 as [s ->]; [lra|]. split; [|simpl; lra].
    left. split; [lra|eauto].
Qed.

(** The quotient by a positive float that is not smaller. *)
Lemma near_div x f m2 e2 :
  near x f -> (F2Q f <= val (Zpos m2) e2)%Q ->
  let q := SFdiv prec emax f (S754_finite false m2 e2) in
  near (F2Q f / val (Zpos m2) e2) q /\ (F2Q q <= 1)%Q.
Proof.
  intros Hf Hle q. pose proof (val_pos (Zpos m2) e2 ltac:(lia)) as H2.
  destruct (near_cases _ _ Hf) as [[s ->]|(m1 & e1 & -> & _ & _)].
  - subst q. simpl. split; [|lra]. left. split; [|eauto].
    unfold Qdiv. ring.
  - simpl F2Q in *. pose proof (val_pos (Zpos m1) e1 ltac:(lia)) as H1.
    set (V1 := val (Zpos m1) e1) in *. set (V2 := val (Zpos m2) e2) in *.
    pose proof (SFdiv_Rnd m1 e1 m2 e2 (V1 / V2)) as Hq.
    specialize (Hq ltac:(fold V1 V2; field; lra)). fold q in Hq.
    assert (V1 / V2 <= 1)%Q as Hx by (apply Qle_shift_div_r; lra).
    destruct (Rnd_upper _ q _ _ Hq (eq_refl : valid one)) as [Fq Hq1].
    { rewrite F2Q_one. exact Hx. }
    rewrite F2Q_one in Hq1. split; [|done]. right.
    split; [|done]. apply Qlt_shift_div_l; lra.
Qed.

(** The percentage of a quotient that is at most 1. *)
Lemma near_mul x f :
  near x f -> (F2Q f <= 1)%Q ->
  near (F2Q f * 100) (SFmul prec emax f hundred).
Proof.
  intros Hf Hle.
  destruct (near_cases _ _ Hf) as [[s ->]|(m & e & -> & _ & _)].
  - left. split; [simpl; ring|]. simpl. eauto.
  - simpl F2Q in *. pose proof (val_pos (Zpos m) e ltac:(lia)) as Hp.
    pose proof (SFmul_Rnd m e 7036874417766400 (-46) ltac:(vm_compute; discriminate)) as Hr.
    fold hundred in Hr. change (val 7036874417766400 (-46)) with (F2Q hundred) in Hr.
    apply (Rnd_proper _ _ (val (Zpos m) e * 100)) in Hr; [|by rewrite F2Q_hundred].
    destruct (Rnd_upper _ _ _ _ Hr (eq_refl : valid hundred)) as [Fr _].
    { change (val 7036874417766400 (-46)) with (F2Q hundred). rewrite F2Q_hundred. lra. }
    right. split; [lra|done].
Qed.

(** The progress of a value within the range, step by step. *)
Lemma percentage_near v a b :
  valid v -> valid a -> valid b ->
  SFleb a v = true -> SFleb v b = true -> SFltb a b = true ->
  finite (SFsub prec emax b a) ->
  exists n q m2 e2,
    SFsub prec emax b a = S754_finite false m2 e2 /\
    near (F2Q v - F2Q a) n /\
    near (F2Q n / val (Zpos m2) e2) q /\
    near (F2Q q * 100) (percentage v a b).
Proof.
  intros Vv Va Vb Hav Hvb Hab Hfin.
  destruct (finite_bounds a b Hfin) as [Fa Fb].
  assert (finite v) as Fv.
  { destruct v as [|[]| |]; try exact I;
      destruct a as [| | |[]], b as [| | |[]]; try contradiction;
      (discriminate Hav || discriminate Hvb). }
  apply (SFleb_le a v Va Vv Fa Fv) in Hav.
  apply (SFleb_le v b Vv Vb Fv Fb) in Hvb.
  apply (SFltb_lt a b Va Vb Fa Fb) in Hab.
  unfold percentage.
  destruct (width_spec a b Va Vb Fa Fb Hab) as [E|(m2 & e2 & E & HR)];
    [by rewrite E in Hfin|]. rewrite E.
  pose proof (val_pos (Zpos m2) e2 ltac:(lia)) as H2.
  destruct (near_sub v a _ _ Vv Va Fv Fa Hav HR I H2 ltac:(lra)) as [Hn Hn2].
  destruct (near_div _ _ m2 e2 Hn Hn2) as [Hq Hq1].
  exists (SFsub prec emax v a), (SFdiv prec emax (SFsub prec emax v a) (S754_finite false m2 e2)),
    m2, e2.
  split; [done|]. split; [done|]. split; [done|]. by apply (near_mul _ _ Hq).
Qed.

(** The progress grows with the value. *)
Theorem percentage_monotone v1 v2 a b :
  valid v1 -> valid v2 -> valid a -> valid b ->
  SFleb a v1 = true -> SFleb v1 v2 = true -> SFleb v2 b = true -> SFltb a b = true ->
  finite (SFsub prec emax b a) ->
  SFleb (percentage v1 a b) (percentage v2 a b) = true.
Proof.
  intros V1 V2 Va Vb Ha1 H12 H2b Hab Hfin.
  destruct (finite_bounds a b Hfin) as [Fa Fb].
  assert (finite v1 /\ finite v2) as [F1 F2].
  { destruct v1 as [|[]| |], v2 as [|[]| |]; try (split; exact I);
      destruct a as [| | |[]], b as [| | |[]]; try contradiction;
      (discriminate Ha1 || discriminate H12 || discriminate H2b). }
  pose proof Ha1 as Ha1'. pose proof H12 as H12'. pose proof H2b as H2b'.
  apply (SFleb_le a v1 Va V1 Fa F1) in Ha1'.
  apply (SFleb_le v1 v2 V1 V2 F1 F2) in H12'.
  apply (SFleb_le v2 b V2 Vb F2 Fb) in H2b'.
  assert (SFleb a v2 = true) as Ha2 by (apply (SFleb_le a v2 Va V2 Fa F2); lra).
  assert (SFleb v1 b = true) as H1b by (apply (SFleb_le v1 b V1 Vb F1 Fb); lra).
  destruct (percentage_near v1 a b V1 Va Vb Ha1 H1b Hab Hfin)
    as (n1 & q1 & m2 & e2 & E1 & Hn1 & Hq1 & Hr1).
  destruct (percentage_near v2 a b V2 Va Vb Ha2 H2b Hab Hfin)
    as (n2 & q2 & m2' & e2' & E2 & Hn2 & Hq2 & Hr2).
  assert (m2' = m2 /\ e2' = e2) as [-> ->] by (split; congruence).
  pose proof (val_pos (Zpos m2) e2 ltac:(lia)) as Hw.
  pose proof (near_monotone _ _ _ _ Hn1 Hn2 ltac:(lra)) as Hn.
  assert (F2Q n1 / val (Zpos m2) e2 <= F2Q n2 / val (Zpos m2) e2)%Q as Hd.
  { unfold Qdiv. apply Qmult_le_compat_r; [done|].
    by apply Qlt_le_weak, Qinv_lt_0_compat. }
  pose proof (near_monotone _ _ _ _ Hq1 Hq2 Hd) as Hq.
  pose proof (near_monotone _ _ _ _ Hr1 Hr2 ltac:(lra)) as Hr.
  destruct (near_finite _ _ Hr1) as (Vr1 & Fr1 & _).
  destruct (near_finite _ _ Hr2) as (Vr2 & Fr2 & _).
  by apply (SFleb_le _ _ Vr1 Vr2 Fr1 Fr2).
Qed.

(** *** Order *)

(** A number below [x] is below the numbers that [x] is not above. *)
Lemma SFltb_leb_trans p x y :
  valid p -> valid x -> valid y ->
  SFltb p x = true -> SFleb x y = true -> SFltb p y = true.
Proof.
  intros Vp Vx Vy Hpx Hxy.
  destruct (is_finite p) eqn:Ep, (is_finite x) eqn:Ex, (is_finite y) eqn:Ey;
    try (clear Vp Vx Vy;
         destruct p as [[]|[]| |[] ? ?], x as [[]|[]| |[] ? ?], y as [[]|[]| |[] ? ?];
         done).
  apply finite_is_finite in Ep, Ex, Ey.
  apply (SFltb_lt p x Vp Vx Ep Ex) in Hpx. apply (SFleb_le x y Vx Vy Ex Ey) in Hxy.
  apply (SFltb_lt p y Vp Vy Ep Ey). lra.
Qed.

End ProgressFacts.

(** ** More about the slider script *)

Module SliderMore.
Import JsNumber Dom Slider SliderUse RoundingUse NumberFacts DomFacts DomMore SliderFacts
  SliderSpec ProgressFacts.

Lemma kept_refl e : kept e e.
Proof. by constructor. Qed.

Lemma kept_trans e1 e2 e3 : kept e1 e2 -> kept e2 e3 -> kept e1 e3.
Proof.
  intros [? ? ? ? ? Hc1 Hs1 Hl1] [? ? ? ? ? Hc2 Hs2 Hl2]. constructor; try congruence.
  - intros c Hc. rewrite Hc2 by done. by apply Hc1.
  - intros n Hn. rewrite Hs2 by done. by apply Hs1.
  - by etrans.
Qed.

Lemma style_synchronized_frame doc i t q e n :
  n <> "--slider-progress" -> style (synchronized doc i t q e) !! n = style e !! n.
Proof.
  intros Hn. unfold synchronized.
  assert (forall e1 : Element,
            style (if decide (closest doc i "slider" = Some q)
                   then style_setProperty "--slider-progress"
                          (ratio (current t) (minimum t) (maximum t)) e1
                   else e1) !! n = style e1 !! n) as H1.
  { intros e1. case_decide; [|done]. simpl. by rewrite lookup_insert_ne. }
  cbv zeta. destruct (resolve_markers doc i) as [c|]; [|apply H1].
  destruct (decide (q ∈ markers doc c)); [|apply H1].
  unfold mark. rewrite style_set_below. apply H1.
Qed.

Lemma kept_synchronized doc i t q e :
  kept e (synchronized doc i t q e) /\ listeners (synchronized doc i t q e) = listeners e.
Proof.
  pose proof (same_static_synchronized doc i t q e) as [? ? ? ? ? Hc].
  pose proof (listeners_synchronized doc i t q e) as Hl.
  split; [|done]. constructor; try done.
  - intros c Hne. symmetry. by apply Hc.
  - intros n Hn. by apply style_synchronized_frame.
  - by rewrite Hl.
Qed.

Lemma kept_progress v e :
  kept e (style_setProperty "--slider-progress" v e) /\
  listeners (style_setProperty "--slider-progress" v e) = listeners e.
Proof.
  split; [|done]. constructor; try done. intros n Hn. simpl. by rewrite lookup_insert_ne.
Qed.

(** What a call keeps, whether it returns or throws. *)
Lemma after_input_kept doc target q :
  option_Forall2 (fun e e' => kept e e' /\ listeners e' = listeners e)
    (element_at doc q) (element_at (after_input doc target) q).
Proof.
  assert (option_Forall2 (fun e e' => kept e e' /\ listeners e' = listeners e)
            (element_at doc q) (element_at doc q)) as Hrefl.
  { destruct (element_at doc q); constructor. split; [apply kept_refl|done]. }
  destruct (element_at doc target) as [t|] eqn:Ht.
  - destruct (after_input_cases doc target t Ht) as [[_ Hsync]|[(_ & _ & ->)|(_ & _ & ->)]];
      [| |done].
    + rewrite (synchronize_element_at doc target t _ q Ht Hsync).
      destruct (element_at doc q) as [e|]; constructor. apply kept_synchronized.
    + rewrite write_progress_element_at.
      destruct (element_at doc q) as [e|]; constructor.
      case_decide; [apply kept_progress|]. split; [apply kept_refl|done].
  - unfold after_input. by rewrite onSliderInput_synchronize, Ht.
Qed.

(** X1: a call, whether it returns or throws, changes nothing but the class
    token [lower] and the declaration of [--slider-progress]: the tree keeps
    its shape, and every element its namespace, tag name, attributes,
    current value, text, listeners, other class tokens and other style
    declarations. *)
Theorem onSliderInput_frame doc target q :
  option_Forall2 (fun e e' => kept e e' /\ listeners e' = listeners e)
    (element_at doc q) (element_at (onSliderInput doc target).1 q).
Proof. apply after_input_kept. Qed.

(** *** Registration *)

Lemma initialize_app ss1 ss2 d :
  initialize (ss1 ++ ss2) d
  = match initialize ss1 d with
    | (d', Normal _) => initialize ss2 d'
    | r => r
    end.
Proof.
  revert d. induction ss1 as [|s ss1 IH]; intros d; simpl; [done|].
  destruct (item0 _) as [i|]; [|done].
  destruct (onSliderInput _ i) as [d' [[]|e]]; [apply IH|done].
Qed.

Lemma replicate_cons_app {A} n (x : A) : x :: replicate n x = replicate n x ++ [x].
Proof. induction n as [|n IH]; simpl; [done|]. by rewrite <- IH. Qed.

(** The listeners after the rounds for the sliders [ss], each with a control. *)
Lemma initialize_listeners doc ss d :
  similar doc d ->
  (forall s, s ∈ ss -> visitable doc s) ->
  forall q,
    listeners <$> element_at (initialize ss d).1 q
    = (fun e => listeners e ++ registered (length (controlled_by doc ss q)))
      <$> element_at d q.
Proof.
  revert d. induction ss as [|s ss IH]; intros d Hs Hc q.
  { simpl. destruct (element_at d q); simpl; [|done]. by rewrite app_nil_r. }
  destruct (visitable_control doc s) as (i & t & Hi & Ht & Hsup); [apply Hc; left|]. simpl.
  fold (control d s). rewrite <- (control_similar doc d s Hs), Hi.
  destruct (round_element_at doc d i t Hs Ht Hsup) as (d' & -> & Hs' & Hd').
  rewrite IH; [|done|intros s' Hs''; apply Hc; by right].
  rewrite Hd'. destruct (element_at d q) as [e|]; simpl; [|done]. f_equal.
  rewrite listeners_synchronized. unfold controlled_by. rewrite filter_cons.
  destruct (decide (q = i)) as [->|Hne].
  - rewrite decide_True by done. simpl. unfold registered. simpl.
    by rewrite <- app_assoc.
  - rewrite decide_False by congruence. done.
Qed.

(** X2: [bodyOnLoad] does not guard against a second run: on a document
    where every slider has a control on which [onSliderInput] returns, each
    run adds to a control one listener for each slider it is the control of,
    so that two runs leave it with twice as many; an [input] event on a
    control still leaves what one call of [onSliderInput] leaves. *)
Theorem bodyOnLoad_twice doc :
  complete doc -> supported_controls doc ->
  exists d1 d2,
    bodyOnLoad doc = (d1, Normal tt) /\
    bodyOnLoad d1 = (d2, Normal tt) /\
    (forall q e, element_at doc q = Some e ->
       listeners <$> element_at d1 q
       = Some (listeners e ++ registered (registrations doc q)) /\
       listeners <$> element_at d2 q
       = Some (listeners e ++ registered (2 * registrations doc q))) /\
    (forall s i, s ∈ sliders doc -> control doc s = Some i ->
       (1 <= registrations doc i)%nat /\
       forall v, exists d,
         onSliderInput (alter_element (set_value v) i d2) i = (d, Normal tt) /\
         dispatch_input (alter_element (set_value v) i d2) i = (d, [])).
Proof.
  intros Hcomplete Hsupported.
  pose proof (visitable_spec doc Hcomplete Hsupported) as Hc.
  destruct (initialize_completes doc (sliders doc) doc (similar_refl doc) Hc)
    as (d1 & Hd1 & Hs1).
  assert (sliders d1 = sliders doc) as Hsl.
  { symmetry. by apply document_getElementsByClassName_similar. }
  destruct (initialize_completes doc (sliders doc) d1 Hs1 Hc) as (d2 & Hd2 & Hs2).
  exists d1, d2. split; [done|]. split.
  { unfold bodyOnLoad. fold (sliders d1). by rewrite Hsl. }
  pose proof (initialize_listeners doc (sliders doc) doc (similar_refl doc) Hc) as L1.
  pose proof (initialize_listeners doc (sliders doc) d1 Hs1 Hc) as L2.
  rewrite Hd1 in L1. rewrite Hd2 in L2. simpl in L1, L2.
  assert (forall q e, element_at doc q = Some e ->
            listeners <$> element_at d1 q
            = Some (listeners e ++ registered (registrations doc q)) /\
            listeners <$> element_at d2 q
            = Some (listeners e ++ registered (2 * registrations doc q))) as HL.
  { intros q e He.
    assert (listeners <$> element_at d1 q
            = Some (listeners e ++ registered (registrations doc q))) as H1.
    { by rewrite L1, He. }
    split; [done|]. rewrite L2.
    destruct (element_at d1 q) as [e1|]; [|done]. simpl in *. injection H1 as ->.
    rewrite <- app_assoc. unfold registered, registrations.
    by rewrite <- replicate_add, Nat.add_0_r. }
  split; [done|]. intros s i Hs Hi.
  assert (1 <= registrations doc i)%nat as Hn.
  { unfold registrations, controlled_by.
    assert (s ∈ filter (fun s => control doc s = Some i) (sliders doc)) as Hin
      by by apply list_elem_of_filter.
    destruct (filter _ _); [by apply elem_of_nil in Hin|simpl; lia]. }
  split; [done|]. intros v.
  destruct (visitable_control doc s (Hc s Hs)) as (i' & t & Hi' & Ht & Hsup).
  assert (i' = i) as -> by congruence.
  destruct (HL i t Ht) as [_ H2].
  destruct (element_at d2 i) as [e2|] eqn:He2; [|done]. simpl in H2. injection H2 as H2.
  apply (next_dispatch doc d2 i e2 v); try done.
  rewrite H2, elem_of_app. right.
  unfold registered. destruct (registrations doc i); [lia|]. simpl. left.
Qed.

(** *** A run of [bodyOnLoad], to its end or to a throw *)

Lemma kept_listener type cb e : kept e (addEventListener type cb e).
Proof. constructor; try done. simpl. by apply prefix_app_r. Qed.

Lemma kept_refl_at d q : option_Forall2 kept (element_at d q) (element_at d q).
Proof. destruct (element_at d q); constructor. apply kept_refl. Qed.

Lemma initialize_kept doc ss d :
  similar doc d ->
  similar doc (initialize ss d).1 /\
  forall q, option_Forall2 kept (element_at d q) (element_at (initialize ss d).1 q).
Proof.
  revert d. induction ss as [|s ss IH]; intros d Hs.
  { split; [done|]. intros q. apply kept_refl_at. }
  simpl. fold (control d s). rewrite <- (control_similar doc d s Hs).
  destruct (control doc s) as [i|] eqn:Hi.
  - set (d1 := alter_element (addEventListener "input" SliderInputListener) i d).
    assert (similar doc (after_input d1 i)) as Hs'.
    { eapply similar_trans; [exact Hs|]. eapply similar_trans; [|apply after_input_similar].
      apply similar_alter, same_static_listener. }
    assert (forall q, option_Forall2 kept (element_at d q) (element_at (after_input d1 i) q))
      as Hround.
    { intros q. pose proof (after_input_kept d1 i q) as Hk. subst d1.
      rewrite element_at_alter in Hk.
      destruct (element_at d q) as [e|]; simpl in Hk; inversion Hk as [? e' [Hk' _]|]; subst;
        constructor.
      eapply kept_trans; [|exact Hk'].
      case_decide; [apply kept_listener|apply kept_refl]. }
    unfold after_input in *. destruct (onSliderInput d1 i) as [d' [[]|err]]; simpl in *.
    + destruct (IH d' Hs') as [Hsim Hkept]. split; [done|]. intros q.
      specialize (Hkept q). specialize (Hround q).
      destruct Hround as [e e' Hk|]; inversion Hkept as [? e'' Hk'|]; subst; constructor.
      by eapply kept_trans.
    + done.
  - split; [done|]. intros q. apply kept_refl_at.
Qed.

(** X3: a run of [bodyOnLoad], whether it returns or throws, changes nothing
    but the class token [lower], the declaration of [--slider-progress] and
    the listeners, to which it only adds: the tree keeps its shape, and every
    element its namespace, tag name, attributes, current value, text, other
    class tokens, other style declarations and the listeners it had. *)
Theorem bodyOnLoad_frame doc q :
  option_Forall2 kept (element_at doc q) (element_at (bodyOnLoad doc).1 q).
Proof. apply (initialize_kept doc), similar_refl. Qed.

Lemma contained_spec doc :
  contained doc ->
  forall s i, s ∈ sliders doc -> control doc s = Some i -> closest doc i "slider" = Some s.
Proof.
  unfold contained. rewrite Forall_forall. intros H s i Hs Hi.
  specialize (H s Hs). by rewrite Hi in H.
Qed.

(** The sliders visited are initialized, whatever the others are. *)
Lemma initialize_initialized_among doc ss d s i t :
  contained doc -> unshared doc -> similar doc d ->
  (forall s', s' ∈ ss -> s' ∈ sliders doc /\ visitable doc s') ->
  s ∈ sliders doc -> control doc s = Some i -> element_at doc i = Some t ->
  s ∈ ss \/ initialized doc s i t d ->
  initialized doc s i t (initialize ss d).1.
Proof.
  intros Hnest Hshare Hsim Hss Hs Hi Ht. revert d Hsim.
  pose proof (contained_spec doc Hnest) as Hnest'.
  pose proof (unshared_spec doc Hshare) as Hshare'.
  induction ss as [|sk ss IH]; intros d Hsim Hor.
  { destruct Hor as [Hin|?]; [by apply elem_of_nil in Hin|done]. }
  destruct (Hss sk) as [Hsk Hvk]; [left|].
  destruct (visitable_control doc sk Hvk) as (ik & tk & Hik & Htk & Hsupk). simpl.
  fold (control d sk). rewrite <- (control_similar doc d sk Hsim), Hik.
  destruct (round_element_at doc d ik tk Hsim Htk Hsupk) as (d' & -> & Hsim' & Hd').
  apply IH; [|done|].
  { intros s' Hs'. apply Hss. by right. }
  destruct (decide (s ∈ ss)) as [?|Hnotin]; [by left|right].
  apply (round_initialized doc d d' sk ik tk Hnest' Hshare' Hsim Hsk Hik Htk Hd' s i t Hs Hi Ht).
  destruct Hor as [[->|?]%elem_of_cons|?]; [by left|done|by right].
Qed.

(** What a call that throws keeps of an element: all but the progress of
    the container. *)
Lemma unsupported_element_at d target q :
  ~ supported d target ->
  option_Forall2
    (fun e e' => same_static e e' /\ classList e' = classList e /\
                 listeners e' = listeners e /\
                 (closest d target "slider" <> Some q -> style e' = style e))
    (element_at d q) (element_at (after_input d target) q).
Proof.
  intros Hsup.
  assert (option_Forall2
            (fun e e' => same_static e e' /\ classList e' = classList e /\
                         listeners e' = listeners e /\
                         (closest d target "slider" <> Some q -> style e' = style e))
            (element_at d q) (element_at d q)) as Hrefl.
  { destruct (element_at d q); constructor. split; [apply same_static_refl|done]. }
  destruct (element_at d target) as [t|] eqn:Ht.
  - destruct (after_input_cases d target t Ht) as [[? _]|[(_ & _ & ->)|(_ & _ & ->)]];
      [done| |done].
    rewrite write_progress_element_at.
    destruct (element_at d q) as [e|]; constructor.
    case_decide; [|split; [apply same_static_refl|done]].
    split; [apply same_static_style|]. by repeat split.
  - unfold after_input. by rewrite onSliderInput_synchronize, Ht.
Qed.

(** A round that throws leaves the sliders with other containers
    initialized. *)
Lemma interrupted_initialized doc d i0 s i t :
  similar doc d ->
  ~ supported doc i0 ->
  closest doc i0 "slider" <> Some s ->
  initialized doc s i t d ->
  initialized doc s i t
    (after_input (alter_element (addEventListener "input" SliderInputListener) i0 d) i0).
Proof.
  intros Hs Hsup Hne (Hp & Hm & e & He & Hin).
  set (d1 := alter_element (addEventListener "input" SliderInputListener) i0 d).
  assert (similar doc d1) as Hs1.
  { eapply similar_trans; [exact Hs|]. apply similar_alter, same_static_listener. }
  assert (~ supported d1 i0) as Hsup1 by by rewrite <- (supported_similar doc d1).
  assert (closest d1 i0 "slider" <> Some s) as Hne1.
  { by rewrite <- (closest_similar doc d1 i0 "slider"). }
  assert (forall q x, element_at d q = Some x ->
            exists x', element_at (after_input d1 i0) q = Some x' /\
              same_static x x' /\ classList x' = classList x /\
              listeners x `prefix_of` listeners x' /\
              (q = s -> style x' = style x)) as Hkeep.
  { intros q x Hx. pose proof (unsupported_element_at d1 i0 q Hsup1) as Hk.
    subst d1. rewrite element_at_alter, Hx in Hk. simpl in Hk.
    inversion Hk as [? x' (Hst & Hcl & Hl & Hsty) Heq1 Heq2|]. subst.
    exists x'. split; [done|].
    assert (forall y, y = x \/ y = addEventListener "input" SliderInputListener x ->
              same_static x y /\ classList y = classList x /\
              listeners x `prefix_of` listeners y /\ style y = style x) as Hy.
    { intros y [->| ->]; (split; [|split; [done|split; [|done]]]).
      - apply same_static_refl.
      - done.
      - apply same_static_listener.
      - by apply prefix_app_r. }
    destruct (Hy ((if decide (q = i0)
                   then addEventListener "input" SliderInputListener else id) x))
      as (Hst' & Hcl' & Hl' & Hsty').
    { case_decide; auto. }
    split; [by eapply same_static_trans|]. split; [congruence|].
    split; [by rewrite Hl|]. intros ->. rewrite Hsty by done. done. }
  split; [|split].
  - unfold slider_progress in *.
    destruct (element_at d s) as [x|] eqn:Hx; [|done].
    destruct (Hkeep s x Hx) as (x' & -> & _ & _ & _ & Hsty). by rewrite Hsty.
  - intros c q m Hc Hq Hm'.
    destruct (markers_element_at doc c q Hq) as [m0 Hm0].
    destruct (similar_element_at doc d q m0 Hs Hm0) as (x & Hx & _).
    destruct (Hkeep q x Hx) as (x' & Hx' & Hst & Hcl & _).
    assert (m = x') as -> by congruence.
    rewrite Hcl, <- (position_static c x x' Hst). by apply (Hm c q x).
  - destruct (Hkeep i e He) as (x' & Hx' & _ & _ & Hl & _).
    exists x'. split; [done|]. destruct Hl as [k ->]. rewrite elem_of_app. by left.
Qed.

(** X4: [bodyOnLoad] stops at the first slider that has no [input], or on
    whose [input] a call of [onSliderInput] throws: it throws a [TypeError]
    there; a listener has been registered for each slider before it and,
    when it has an [input], for that slider, and none for the sliders after
    it; the sliders before it are initialized as by a complete run (when
    the controls have their sliders as enclosing containers and no two
    sliders share a marker). *)
Theorem bodyOnLoad_stops doc pre s0 post :
  sliders doc = pre ++ s0 :: post ->
  (forall s, s ∈ pre -> visitable doc s) ->
  ~ visitable doc s0 ->
  exists d,
    bodyOnLoad doc = (d, Throw TypeError) /\
    (forall q,
       listeners <$> element_at d q
       = (fun e => listeners e ++ registered (length (controlled_by doc (pre ++ [s0]) q)))
         <$> element_at doc q) /\
    (contained doc -> unshared doc ->
     forall s, s ∈ pre ->
       exists i t, control doc s = Some i /\ element_at doc i = Some t /\
                   initialized doc s i t d).
Proof.
  intros Hsl Hpre Hs0.
  destruct (initialize_completes doc pre doc (similar_refl doc) Hpre) as (dp & Hdp & Hsp).
  pose proof (initialize_listeners doc pre doc (similar_refl doc) Hpre) as HL.
  rewrite Hdp in HL. simpl in HL.
  assert (forall s', s' ∈ pre -> s' ∈ sliders doc) as Hin.
  { intros s' Hs'. rewrite Hsl, elem_of_app. by left. }
  assert (contained doc -> unshared doc ->
          forall s, s ∈ pre ->
            exists i t, control doc s = Some i /\ element_at doc i = Some t /\
                        initialized doc s i t dp) as Hinit.
  { intros Hnest Hshare s Hs.
    destruct (visitable_control doc s (Hpre s Hs)) as (i & t & Hi & Ht & _).
    exists i, t. split; [done|]. split; [done|].
    replace dp with (initialize pre doc).1 by by rewrite Hdp.
    apply initialize_initialized_among; try done; [apply similar_refl| | |by left]; auto. }
  assert (bodyOnLoad doc = initialize [s0] dp /\
          (initialize [s0] dp).2 = Throw TypeError) as [Hrun Hthrow].
  { unfold bodyOnLoad. fold (sliders doc). rewrite Hsl, initialize_app, Hdp.
    pose proof (initialize_throws doc [s0] dp Hsp) as Hthrow.
    assert ((initialize [s0] dp).2 = Throw TypeError) as Ht.
    { apply Hthrow. exists s0. split; [left|done]. }
    split; [|done]. simpl in *. fold (control dp s0) in *.
    destruct (control dp s0) as [i0|]; [|done].
    by destruct (onSliderInput _ i0) as [d' [[]|err]]. }
  exists (initialize [s0] dp).1. split.
  { rewrite Hrun. destruct (initialize [s0] dp) as [d c]. simpl in *. by subst. }
  clear Hrun Hthrow. simpl. fold (control dp s0).
  rewrite <- (control_similar doc dp s0 Hsp).
  unfold visitable in Hs0.
  assert (forall q, controlled_by doc (pre ++ [s0]) q
                    = controlled_by doc pre q
                      ++ (if decide (control doc s0 = Some q) then [s0] else [])) as Hby.
  { intros q. unfold controlled_by. by rewrite filter_app. }
  destruct (control doc s0) as [i0|] eqn:Hi0.
  - set (d1 := alter_element (addEventListener "input" SliderInputListener) i0 dp).
    assert (~ supported d1 i0) as Hsup1.
    { rewrite <- (supported_similar doc d1); [done|].
      eapply similar_trans; [exact Hsp|]. apply similar_alter, same_static_listener. }
    assert ((onSliderInput d1 i0).2 = Throw TypeError) as Hc
      by by apply onSliderInput_unsupported.
    assert ((let (doc2, c) := onSliderInput d1 i0 in
             match c with
             | Normal _ => (doc2, Normal tt)
             | Throw e => (doc2, Throw e)
             end).1 = after_input d1 i0) as ->.
    { unfold after_input. by destruct (onSliderInput d1 i0) as [d' [[]|err]]. }
    split.
    + intros q. pose proof (unsupported_element_at d1 i0 q Hsup1) as Hk.
      subst d1. rewrite element_at_alter in Hk.
      specialize (HL q). rewrite Hby, length_app.
      destruct (element_at doc q) as [e|]; simpl in HL;
        destruct (element_at dp q) as [x|]; simpl in *; try done;
        inversion Hk as [? x' (_ & _ & Hl & _)|]; subst; simpl; [|done].
      injection HL as HL. f_equal. rewrite Hl. unfold registered in *.
      rewrite replicate_add, app_assoc, <- HL.
      destruct (decide (q = i0)) as [->|Hne].
      * by rewrite decide_True.
      * rewrite decide_False by congruence. simpl. by rewrite app_nil_r.
    + intros Hnest Hshare s Hs.
      destruct (Hinit Hnest Hshare s Hs) as (i & t & Hi & Ht & Hinit').
      exists i, t. split; [done|]. split; [done|].
      apply interrupted_initialized; try done.
      rewrite (contained_spec doc Hnest s0 i0); [|rewrite Hsl, elem_of_app; right; left|done].
      intros [= <-]. specialize (Hpre s0 Hs). unfold visitable in Hpre.
      by rewrite Hi0 in Hpre.
  - split; [|done]. intros q. rewrite HL, Hby.
    rewrite decide_False by done. by rewrite app_nil_r.
Qed.

(** *** The next input *)

Lemma markers_set_value s i d c :
  markers (alter_element (set_value s) i d) c = markers d c.
Proof.
  destruct c; simpl.
  - by apply options_alter.
  - by apply getElementsByClassName_alter.
Qed.

(** The position of a marker is not its current value. *)
Lemma position_set_value doc c q m s :
  q ∈ markers doc c -> element_at doc q = Some m ->
  position c (set_value s m) = position c m.
Proof.
  destruct c as [l|l]; simpl; [|done].
  intros [Hq _]%list_elem_of_filter Hm. unfold satisfies in Hq. rewrite Hm in Hq.
  unfold prop_value. rewrite !(decide_True (P := is_html "option" _)) by done.
  destruct Hq as [Hn Ht].
  rewrite !decide_False; [done| |]; unfold is_html; simpl; rewrite ?Ht; by intros [_ ?].
Qed.

Lemma is_lower_element_at d q e :
  element_at d q = Some e -> is_lower d q = true <-> "lower" ∈ classList e.
Proof. intros H. unfold is_lower. rewrite H. apply bool_decide_eq_true. Qed.

(** What an input leaves when the value of the control has been set to [s],
    after a first call. *)
Lemma next_input doc target t s doc1 :
  element_at doc target = Some t ->
  onSliderInput doc target = (doc1, Normal tt) ->
  exists doc2,
    onSliderInput (alter_element (set_value s) target doc1) target = (doc2, Normal tt) /\
    (forall b, closest doc target "slider" = Some b ->
       slider_progress doc2 b
       = Some (ratio (current (set_value s t)) (minimum t) (maximum t))) /\
    (forall c q m, resolve_markers doc target = Some c -> q ∈ markers doc c ->
       element_at doc q = Some m ->
       is_lower doc2 q = true
       <-> ltb (Number (position c m)) (current (set_value s t)) = true).
Proof.
  intros Ht [Hsup Hrun]%onSliderInput_Normal.
  pose proof (synchronize_similar doc target doc1 Hrun) as Hs1.
  destruct (similar_element_at doc doc1 target t Hs1 Ht) as (t1 & Ht1 & Hst).
  set (D := alter_element (set_value s) target doc1).
  assert (element_at D target = Some (set_value s t1)) as HD.
  { subst D. by rewrite element_at_alter, Ht1, decide_True. }
  destruct (onSliderInput_supported D target) as (doc2 & Hrun2 & Hsync).
  { subst D. apply supported_set_value. by apply (supported_similar doc doc1). }
  exists doc2. split; [done|].
  pose proof (same_static_set_value s t t1 Hst) as Hst'.
  assert (current (set_value s t1) = current (set_value s t)) as Hcur.
  { symmetry. by apply current_static. }
  assert (minimum (set_value s t1) = minimum t) as Hmin.
  { symmetry. rewrite (minimum_static t t1 Hst). done. }
  assert (maximum (set_value s t1) = maximum t) as Hmax.
  { symmetry. rewrite (maximum_static t t1 Hst). done. }
  split.
  - intros b Hb.
    rewrite (synchronize_progress D target (set_value s t1) b doc2 HD); [|
      |done].
    + by rewrite Hcur, Hmin, Hmax.
    + subst D. rewrite closest_alter by done.
      by rewrite <- (closest_similar doc doc1 target "slider").
  - intros c q m Hc Hq Hm.
    assert (resolve_markers D target = Some c) as HcD.
    { subst D. by rewrite resolve_markers_set_value, <- (resolve_markers_similar doc doc1 target Hs1). }
    assert (markers D c = markers doc c) as HmD.
    { subst D. by rewrite markers_set_value, <- (markers_similar doc doc1 c Hs1). }
    destruct (similar_element_at doc doc1 q m Hs1 Hm) as (m1 & Hm1 & Hsm).
    set (mD := (if decide (q = target) then set_value s else id) m1).
    assert (element_at D q = Some mD) as HmD'.
    { subst D mD. by rewrite element_at_alter, Hm1. }
    assert (element_at doc2 q = Some (synchronized D target (set_value s t1) q mD)) as H2.
    { by rewrite (synchronize_element_at D target _ doc2 q HD Hsync), HmD'. }
    rewrite (is_lower_element_at doc2 q _ H2).
    rewrite (lower_synchronized D target (set_value s t1) c q mD HcD) by by rewrite HmD.
    rewrite Hcur.
    assert (position c mD = position c m) as ->; [|done].
    subst mD. rewrite (position_static c m m1 Hsm).
    case_decide; [|done].
    apply (position_set_value doc1 c q); [|done].
    by rewrite <- (markers_similar doc doc1 c Hs1).
Qed.

Lemma progress_percentage v a b :
  gtb b a = true -> progress v a b = percentage v a b.
Proof.
  intros H. unfold progress, percentage. rewrite H, RoundingFacts.of_Z_hundred. done.
Qed.

(** X5: at the ends of a range with [max > min] the progress is exact: on
    a container with a [style], a value equal to a finite [min] gives [0%],
    and a value equal to [max] gives [100%] when the width [max - min] is a
    finite number. *)
Theorem onSliderInput_endpoints doc target t b :
  element_at doc target = Some t ->
  closest doc target "slider" = Some b ->
  satisfies has_style doc b ->
  gtb (maximum t) (minimum t) = true ->
  (current t = minimum t -> is_finite (minimum t) = true ->
     slider_progress (after_input doc target) b = Some "0%") /\
  (current t = maximum t -> is_finite (sub (maximum t) (minimum t)) = true ->
     slider_progress (after_input doc target) b = Some "100%").
Proof.
  intros Ht Hb Hsty Hgt.
  rewrite (after_input_progress doc target t b Ht Hb Hsty).
  unfold ratio. rewrite (progress_percentage _ _ _ Hgt).
  pose proof (valid_minimum t) as Va. pose proof (valid_maximum t) as Vb.
  split.
  - intros -> Hfin. apply RoundingFacts.finite_is_finite in Hfin.
    destruct (percentage_min _ _ Va Vb Hfin Hgt) as [s ->]. by destruct s.
  - intros -> Hfin. apply RoundingFacts.finite_is_finite in Hfin.
    by rewrite (percentage_max _ _ Va Vb Hgt Hfin).
Qed.

(** X6: within a range with [max > min] whose width is a finite number, the
    progress grows with the value: when the value of the control is raised
    and stays within the range, the next input writes a progress that is not
    less than the one before. *)
Theorem progress_grows_with_value doc target t b s doc1 :
  element_at doc target = Some t ->
  closest doc target "slider" = Some b ->
  onSliderInput doc target = (doc1, Normal tt) ->
  gtb (maximum t) (minimum t) = true ->
  is_finite (sub (maximum t) (minimum t)) = true ->
  leb (minimum t) (current t) = true ->
  leb (current t) (current (set_value s t)) = true ->
  leb (current (set_value s t)) (maximum t) = true ->
  exists doc2 r1 r2,
    onSliderInput (alter_element (set_value s) target doc1) target = (doc2, Normal tt) /\
    slider_progress doc1 b = Some (NumberToString r1 +:+ "%") /\
    slider_progress doc2 b = Some (NumberToString r2 +:+ "%") /\
    leb r1 r2 = true.
Proof.
  intros Ht Hb Hrun Hgt Hfin Hlo Hup Hhi.
  destruct (next_input doc target t s doc1 Ht Hrun) as (doc2 & Hrun2 & Hp2 & _).
  exists doc2, (percentage (current t) (minimum t) (maximum t)),
    (percentage (current (set_value s t)) (minimum t) (maximum t)).
  split; [done|]. split; [|split].
  - apply onSliderInput_Normal in Hrun as [_ Hrun].
    rewrite (synchronize_progress doc target t b doc1 Ht Hb Hrun).
    unfold ratio. by rewrite (progress_percentage _ _ _ Hgt).
  - rewrite (Hp2 b Hb). unfold ratio. by rewrite (progress_percentage _ _ _ Hgt).
  - apply percentage_monotone; try done; auto using valid_current, valid_minimum, valid_maximum.
    by apply RoundingFacts.finite_is_finite.
Qed.

Lemma valid_position c m : Rounding.valid (Number (position c m)).
Proof. apply valid_Number. Qed.

(** X7: the markers follow the value: when the value of the control is
    raised, the next input leaves below every marker that was below, and when
    it is lowered, it marks no marker that was not. *)
Theorem markers_follow_value doc target t s c doc1 :
  element_at doc target = Some t ->
  resolve_markers doc target = Some c ->
  onSliderInput doc target = (doc1, Normal tt) ->
  exists doc2,
    onSliderInput (alter_element (set_value s) target doc1) target = (doc2, Normal tt) /\
    (leb (current t) (current (set_value s t)) = true ->
     forall q, q ∈ markers doc c -> is_lower doc1 q = true -> is_lower doc2 q = true) /\
    (leb (current (set_value s t)) (current t) = true ->
     forall q, q ∈ markers doc c -> is_lower doc2 q = true -> is_lower doc1 q = true).
Proof.
  intros Ht Hc Hrun.
  destruct (next_input doc target t s doc1 Ht Hrun) as (doc2 & Hrun2 & _ & Hm2).
  exists doc2. split; [done|].
  apply onSliderInput_Normal in Hrun as [_ Hrun].
  assert (forall q m, q ∈ markers doc c -> element_at doc q = Some m ->
            is_lower doc1 q = true <-> ltb (Number (position c m)) (current t) = true) as Hm1.
  { intros q m Hq Hm.
    rewrite (is_lower_element_at doc1 q (synchronized doc target t q m))
      by by rewrite (synchronize_element_at doc target t doc1 q Ht Hrun), Hm.
    by apply lower_synchronized. }
  split; intros Hle q Hq Hlow; destruct (markers_element_at doc c q Hq) as [m Hm].
  - apply (Hm2 c q m Hc Hq Hm). apply (Hm1 q m Hq Hm) in Hlow.
    apply (SFltb_leb_trans _ (current t)); auto using valid_position, valid_current.
  - apply (Hm1 q m Hq Hm). apply (Hm2 c q m Hc Hq Hm) in Hlow.
    apply (SFltb_leb_trans _ (current (set_value s t))); auto using valid_position, valid_current.
Qed.

(** *** Independent sliders *)

Lemma synchronized_commute doc i1 t1 i2 t2 q e :
  (forall b, closest doc i1 "slider" = Some b -> closest doc i2 "slider" <> Some b) ->
  (forall c1 c2, resolve_markers doc i1 = Some c1 -> resolve_markers doc i2 = Some c2 ->
     forall q, q ∈ markers doc c1 -> q ∉ markers doc c2) ->
  synchronized doc i2 t2 q (synchronized doc i1 t1 q e)
  = synchronized doc i1 t1 q (synchronized doc i2 t2 q e).
Proof.
  intros Hb Hm. unfold synchronized.
  destruct (decide (closest doc i1 "slider" = Some q)) as [H1|H1],
           (decide (closest doc i2 "slider" = Some q)) as [H2|H2];
    try (by destruct (Hb q H1));
    destruct (resolve_markers doc i1) as [c1|] eqn:E1,
             (resolve_markers doc i2) as [c2|] eqn:E2; cbv zeta; try done;
    repeat match goal with
      | |- context [decide (q ∈ markers doc ?c)] => destruct (decide (q ∈ markers doc c))
      end;
    try done;
    try (by destruct (Hm c1 c2 eq_refl eq_refl q));
    by rewrite ?mark_style_setProperty.
Qed.

(** X8: calls for two controls on which [onSliderInput] returns, that
    write to different containers and resolve disjoint markers, commute: in
    either order they return and leave the same document. *)
Theorem onSliderInput_commute doc i1 i2 t1 t2 :
  element_at doc i1 = Some t1 ->
  element_at doc i2 = Some t2 ->
  supported doc i1 ->
  supported doc i2 ->
  (forall b, closest doc i1 "slider" = Some b -> closest doc i2 "slider" <> Some b) ->
  (forall c1 c2, resolve_markers doc i1 = Some c1 -> resolve_markers doc i2 = Some c2 ->
     forall q, q ∈ markers doc c1 -> q ∉ markers doc c2) ->
  exists d1 d2 d,
    onSliderInput doc i1 = (d1, Normal tt) /\ onSliderInput d1 i2 = (d, Normal tt) /\
    onSliderInput doc i2 = (d2, Normal tt) /\ onSliderInput d2 i1 = (d, Normal tt).
Proof.
  intros Ht1 Ht2 Hsup1 Hsup2 Hb Hm.
  destruct (synchronize_is_Some doc i1 t1 Ht1) as [d1 Hd1].
  destruct (synchronize_is_Some doc i2 t2 Ht2) as [d2 Hd2].
  pose proof (synchronize_similar doc i1 d1 Hd1) as Hs1.
  pose proof (synchronize_similar doc i2 d2 Hd2) as Hs2.
  destruct (similar_element_at doc d1 i2 t2 Hs1 Ht2) as (t2' & Ht2' & Hst2).
  destruct (similar_element_at doc d2 i1 t1 Hs2 Ht1) as (t1' & Ht1' & Hst1).
  destruct (synchronize_is_Some d1 i2 t2' Ht2') as [d Hd].
  destruct (synchronize_is_Some d2 i1 t1' Ht1') as [d' Hd'].
  exists d1, d2, d. rewrite !onSliderInput_Normal.
  rewrite <- (supported_similar doc d1 i2 Hs1), <- (supported_similar doc d2 i1 Hs2).
  split; [done|]. split; [done|]. split; [done|]. split; [done|].
  rewrite Hd'. f_equal. apply node_ext. intros q.
  rewrite (synchronize_element_at d2 i1 t1' d' q Ht1' Hd').
  rewrite (synchronize_element_at doc i2 t2 d2 q Ht2 Hd2).
  rewrite (synchronize_element_at d1 i2 t2' d q Ht2' Hd).
  rewrite (synchronize_element_at doc i1 t1 d1 q Ht1 Hd1).
  destruct (element_at doc q) as [e|]; [simpl|done]. f_equal.
  rewrite (synchronized_similar doc d2 i1 t1 t1' q _ Hs2 Hst1).
  rewrite (synchronized_similar doc d1 i2 t2 t2' q _ Hs1 Hst2).
  symmetry. by apply synchronized_commute.
Qed.

(** *** Instances *)

(** X1 on the first example: the control keeps its attributes and has no
    listener more. *)
Lemma onSliderInput_frame_witness :
  option_Forall2 (fun e e' => kept e e' /\ listeners e' = listeners e)
    (element_at native_slider [0%nat])
    (element_at (after_input native_slider [0%nat]) [0%nat]).
Proof. apply (onSliderInput_frame native_slider [0%nat]). Defined.

(** X2 on two sliders: after two runs the first control has two listeners. *)
Lemma bodyOnLoad_twice_witness :
  complete two_sliders /\ supported_controls two_sliders /\
  exists d1 d2,
    bodyOnLoad two_sliders = (d1, Normal tt) /\ bodyOnLoad d1 = (d2, Normal tt) /\
    listeners <$> element_at d2 [0; 0]%nat
    = Some [("input", SliderInputListener); ("input", SliderInputListener)].
Proof.
  assert (complete two_sliders) as H by decided.
  assert (supported_controls two_sliders) as H' by decided.
  split; [exact H|]. split; [exact H'|].
  destruct (bodyOnLoad_twice two_sliders H H') as (d1 & d2 & H1 & H2 & HL & _).
  exists d1, d2. split; [exact H1|]. split; [exact H2|].
  destruct (HL [0; 0]%nat (element (range "0" "100" "50"))) as [_ ->]; evaluate.
Defined.

(** X4 on a page whose second slider has no control: the first slider shows
    [50%], and the control of the third has no listener; and on a page whose
    first slider has its first [datalist] in an [svg]: its control has got
    its listener, the control of the second has none. *)
Lemma bodyOnLoad_stops_witness :
  (sliders interrupted = [[0%nat]] ++ [1%nat] :: [[2%nat]] /\
   visitable interrupted [0%nat] /\
   ~ visitable interrupted [1%nat] /\
   contained interrupted /\ unshared interrupted /\
   exists d,
     bodyOnLoad interrupted = (d, Throw TypeError) /\
     slider_progress d [0%nat] = Some "50%" /\
     listeners <$> element_at d [2; 0]%nat = Some []) /\
  (sliders foreign_first = [] ++ [0%nat] :: [[1%nat]] /\
   control foreign_first [0%nat] = Some [0; 0]%nat /\
   ~ visitable foreign_first [0%nat] /\
   exists d,
     bodyOnLoad foreign_first = (d, Throw TypeError) /\
     listeners <$> element_at d [0; 0]%nat = Some [("input", SliderInputListener)] /\
     listeners <$> element_at d [1; 0]%nat = Some []).
Proof.
  split.
  2:{ assert (sliders foreign_first = [] ++ [0%nat] :: [[1%nat]]) as H1 by evaluate.
      assert (~ visitable foreign_first [0%nat]) as H2 by decided.
      split; [exact H1|]. split; [evaluate|]. split; [exact H2|].
      destruct (bodyOnLoad_stops foreign_first [] [0%nat] [[1%nat]] H1) as (d & Hd & HL & _).
      { intros s Hs. by apply elem_of_nil in Hs. }
      { exact H2. }
      exists d. split; [exact Hd|]. split; rewrite HL; evaluate. }
  assert (sliders interrupted = [[0%nat]] ++ [1%nat] :: [[2%nat]]) as H1 by evaluate.
  assert (visitable interrupted [0%nat]) as H0 by decided.
  assert (~ visitable interrupted [1%nat]) as H2 by decided.
  assert (contained interrupted) as H3 by decided.
  assert (unshared interrupted) as H4 by decided.
  split; [exact H1|]. split; [exact H0|]. split; [exact H2|].
  split; [exact H3|]. split; [exact H4|].
  destruct (bodyOnLoad_stops interrupted [[0%nat]] [1%nat] [[2%nat]] H1) as (d & Hd & HL & Hinit).
  { intros s Hs%list_elem_of_singleton. by subst s. }
  { exact H2. }
  exists d. split; [exact Hd|]. split.
  - destruct (Hinit H3 H4 [0%nat]) as (i & t & Hi & Ht & Hp & _); [left|].
    assert (control interrupted [0%nat] = Some [0; 0]%nat) as Hc by evaluate.
    assert (i = [0; 0]%nat) as -> by congruence.
    assert (element_at interrupted [0; 0]%nat = Some (element (range "0" "100" "50")))
      as He by evaluate.
    assert (t = element (range "0" "100" "50")) as -> by congruence.
    rewrite Hp. evaluate.
  - rewrite HL. evaluate.
Defined.

(** X5: 10 in 10..30 gives [0%], and 30 gives [100%]. *)
Lemma onSliderInput_endpoints_witness :
  slider_progress (after_input at_minimum [0%nat]) [] = Some "0%" /\
  slider_progress (after_input at_maximum [0%nat]) [] = Some "100%".
Proof.
  split.
  - destruct (onSliderInput_endpoints at_minimum [0%nat] (element (range "10" "30" "10")) [])
      as (H0 & _); [evaluate|evaluate|decided|evaluate|].
    apply H0; evaluate.
  - destruct (onSliderInput_endpoints at_maximum [0%nat] (element (range "10" "30" "30")) [])
      as (_ & H100); [evaluate|evaluate|decided|evaluate|].
    apply H100; evaluate.
Defined.

(** X6 on the first example, the value raised from 25 to 75. *)
Lemma progress_grows_with_value_witness :
  exists doc2 r1 r2,
    onSliderInput (alter_element (set_value "75") [0%nat] (after_input native_slider [0%nat]))
      [0%nat] = (doc2, Normal tt) /\
    slider_progress (after_input native_slider [0%nat]) [] = Some (NumberToString r1 +:+ "%") /\
    slider_progress doc2 [] = Some (NumberToString r2 +:+ "%") /\
    leb r1 r2 = true.
Proof.
  apply (progress_grows_with_value native_slider [0%nat] (element (range "0" "100" "25")));
    evaluate.
Defined.

(** X7 on the first example, the value raised from 25 to 75: the marker at 0
    stays below. *)
Lemma markers_follow_value_witness :
  exists doc2,
    onSliderInput (alter_element (set_value "75") [0%nat] (after_input native_slider [0%nat]))
      [0%nat] = (doc2, Normal tt) /\
    is_lower doc2 [1; 0]%nat = true.
Proof.
  destruct (markers_follow_value native_slider [0%nat] (element (range "0" "100" "25")) "75"
              (NativeList [1%nat]) (after_input native_slider [0%nat]))
    as (doc2 & Hrun & Hup & _); [evaluate|evaluate|evaluate|].
  exists doc2. split; [exact Hrun|]. apply Hup; [evaluate|decided|evaluate].
Defined.

(** X8 on two sliders side by side. *)
Lemma onSliderInput_commute_witness :
  exists d1 d2 d,
    onSliderInput two_sliders [0; 0]%nat = (d1, Normal tt) /\
    onSliderInput d1 [1; 0]%nat = (d, Normal tt) /\
    onSliderInput two_sliders [1; 0]%nat = (d2, Normal tt) /\
    onSliderInput d2 [0; 0]%nat = (d, Normal tt).
Proof.
  apply (onSliderInput_commute two_sliders [0; 0]%nat [1; 0]%nat
           (element (range "0" "100" "50")) (element (range "0" "10" "1"))).
  - evaluate.
  - evaluate.
  - decided.
  - decided.
  - intros b Hb. assert (closest two_sliders [0; 0]%nat "slider" = Some [0%nat]) as H by evaluate.
    assert (b = [0%nat]) as -> by congruence.
    assert (closest two_sliders [1; 0]%nat "slider" = Some [1%nat]) as -> by evaluate.
    discriminate.
  - intros c1 c2 H1 H2 q.
    assert (resolve_markers two_sliders [0; 0]%nat = Some (CustomCollection [0; 1]%nat))
      as E1 by evaluate.
    assert (resolve_markers two_sliders [1; 0]%nat = Some (CustomCollection [1; 1]%nat))
      as E2 by evaluate.
    assert (c1 = CustomCollection [0; 1]%nat) as -> by congruence.
    assert (c2 = CustomCollection [1; 1]%nat) as -> by congruence.
    intros (r1 & _ & ->)%getElementsByClassName_inside (r2 & _ & Heq)%getElementsByClassName_inside.
    discriminate.
Defined.

End SliderMore.

(** ** Facts about the page script *)

Module SampleFacts.
Import JsNumber Dom Slider Sample DomFacts DomMore SliderFacts SliderSpec.
Local Open Scope script_scope.

(** *** Running a script *)

Lemma run_bind {A B} (m : Script A) (k : A -> Script B) d d' a :
  m d = (d', Normal a) -> bind m k d = k a d'.
Proof. intros H. unfold bind. by rewrite H. Qed.

Lemma run_bind_throw {A B} (m : Script A) (k : A -> Script B) d d' e :
  m d = (d', Throw e) -> bind m k d = (d', Throw e).
Proof. intros H. unfold bind. by rewrite H. Qed.

Lemma run_get {A} (f : Element -> A) p e d :
  element_at d p = Some e -> get (Some p) f d = (d, Normal (f e)).
Proof. intros H. unfold get. simpl. by rewrite H. Qed.

Lemma run_get_null {A} (f : Element -> A) r d :
  r ≫= element_at d = None -> get r f d = (d, Throw TypeError).
Proof. intros H. unfold get. by rewrite H. Qed.

Lemma run_within {A} (f : Node -> Path -> A) p e d :
  element_at d p = Some e -> within (Some p) f d = (d, Normal (f d p)).
Proof. intros H. unfold within. simpl. by rewrite H. Qed.

Lemma run_within_null {A} (f : Node -> Path -> A) r d :
  r ≫= element_at d = None -> within r f d = (d, Throw TypeError).
Proof. intros H. unfold within. by rewrite H. Qed.

Lemma run_call f p e d :
  element_at d p = Some e -> call (Some p) f d = (alter_element f p d, Normal tt).
Proof. intros H. unfold call. simpl. by rewrite H. Qed.

Lemma run_call_present f p d :
  is_Some (element_at d p) -> call (Some p) f d = (alter_element f p d, Normal tt).
Proof. intros [e He]. by apply (run_call f p e). Qed.

Lemma run_call_null f r d :
  r ≫= element_at d = None -> call r f d = (d, Throw TypeError).
Proof. intros H. unfold call. by rewrite H. Qed.

(** *** Class tokens *)

Lemma elem_of_classList_add c x e :
  x ∈ classList (classList_add c e) <-> x = c \/ x ∈ classList e.
Proof.
  simpl. case_decide.
  - split; [by right|]. by intros [->|?].
  - rewrite elem_of_app, list_elem_of_singleton. tauto.
Qed.

Lemma elem_of_classList_remove c x e :
  x ∈ classList (classList_remove c e) <-> x <> c /\ x ∈ classList e.
Proof. simpl. by rewrite list_elem_of_filter. Qed.

Lemma classList_contains_true c e : classList_contains c e = true <-> c ∈ classList e.
Proof. apply bool_decide_eq_true. Qed.

Lemma classList_contains_false c e : classList_contains c e = false <-> c ∉ classList e.
Proof. apply bool_decide_eq_false. Qed.

Lemma classList_remove_add c e :
  c ∉ classList e -> classList_remove c (classList_add c e) = e.
Proof.
  intros Hc. destruct e as [ns t a cl st v x ls]. unfold classList_remove, classList_add.
  simpl in *. f_equal. rewrite decide_False by done.
  rewrite filter_app, filter_cons, decide_False by (by intros ?).
  rewrite filter_nil, app_nil_r.
  induction cl as [|y cl IH]; [done|].
  rewrite not_elem_of_cons in Hc. destruct Hc as [? ?].
  rewrite filter_cons, decide_True by done. f_equal. by apply IH.
Qed.

Lemma has_element_at d p c e : element_at d p = Some e -> has d p c <-> c ∈ classList e.
Proof. intros H. unfold has, satisfies. by rewrite H. Qed.

Lemma has_alter f p d q c :
  (q <> p \/ forall e, c ∈ classList (f e) <-> c ∈ classList e) ->
  has (alter_element f p d) q c <-> has d q c.
Proof.
  intros H. unfold has, satisfies. rewrite element_at_alter.
  destruct (element_at d q) as [e|]; simpl; [|done].
  case_decide; [|done]. destruct H as [?|H]; [done|]. apply H.
Qed.

(** *** What a change leaves *)

Lemma same_but_classes_refl cs e : same_but_classes cs e e.
Proof. by constructor. Qed.

Lemma same_but_classes_trans cs e1 e2 e3 :
  same_but_classes cs e1 e2 -> same_but_classes cs e2 e3 -> same_but_classes cs e1 e3.
Proof.
  intros [? ? ? ? ? ? ? H1] [? ? ? ? ? ? ? H2]. constructor; try congruence.
  intros c Hc. rewrite H2 by done. by apply H1.
Qed.

Lemma same_but_classes_mono cs cs' e e' :
  cs ⊆ cs' -> same_but_classes cs e e' -> same_but_classes cs' e e'.
Proof.
  intros Hsub [? ? ? ? ? ? ? H]. constructor; try done.
  intros c Hc. apply H. intros ?. apply Hc. by apply Hsub.
Qed.

Lemma same_but_classes_add c e : same_but_classes [c] e (classList_add c e).
Proof.
  constructor; try done. intros x Hx. rewrite elem_of_classList_add.
  rewrite list_elem_of_singleton in Hx. tauto.
Qed.

Lemma same_but_classes_remove c e : same_but_classes [c] e (classList_remove c e).
Proof.
  constructor; try done. intros x Hx. rewrite elem_of_classList_remove.
  rewrite list_elem_of_singleton in Hx. tauto.
Qed.

Lemma changes_only_refl ps cs d : changes_only ps cs d d.
Proof.
  intros q. split; [done|]. destruct (element_at d q); constructor.
  apply same_but_classes_refl.
Qed.

Lemma changes_only_trans ps cs d1 d2 d3 :
  changes_only ps cs d1 d2 -> changes_only ps cs d2 d3 -> changes_only ps cs d1 d3.
Proof.
  intros H1 H2 q. destruct (H1 q) as [E1 F1], (H2 q) as [E2 F2]. split.
  - intros Hq. by rewrite E2, E1.
  - destruct F1 as [e1 e2 S1|]; inversion F2 as [e2' e3 S2|]; subst; constructor.
    by eapply same_but_classes_trans.
Qed.

Lemma changes_only_mono ps ps' cs cs' d d' :
  ps ⊆ ps' -> cs ⊆ cs' -> changes_only ps cs d d' -> changes_only ps' cs' d d'.
Proof.
  intros Hp Hc H q. destruct (H q) as [E F]. split.
  - intros Hq. apply E. intros ?. apply Hq. by apply Hp.
  - destruct F; constructor. by eapply same_but_classes_mono.
Qed.

Lemma changes_only_alter f p cs d :
  (forall e, same_but_classes cs e (f e)) ->
  changes_only [p] cs d (alter_element f p d).
Proof.
  intros Hf q. rewrite element_at_alter. split.
  - rewrite list_elem_of_singleton. intros Hq. rewrite decide_False by done.
    by destruct (element_at d q).
  - destruct (element_at d q) as [e|]; constructor.
    case_decide; [apply Hf|apply same_but_classes_refl].
Qed.

Lemma changes_only_has ps cs d d' q c :
  changes_only ps cs d d' -> q ∉ ps \/ c ∉ cs -> has d' q c <-> has d q c.
Proof.
  intros H Hor. destruct (H q) as [E F]. unfold has, satisfies.
  destruct Hor as [Hq|Hc]; [by rewrite E|].
  destruct F as [e e' S|]; [|done]. by apply (sbc_classes _ _ _ S).
Qed.

(** *** Lookups *)

Lemma first_of_class_alter f p d c :
  (forall e, c ∈ classList (f e) <-> c ∈ classList e) ->
  first_of_class c (alter_element f p d) = first_of_class c d.
Proof.
  intros H. unfold first_of_class. by rewrite document_getElementsByClassName_alter.
Qed.

Lemma getElementById_alter f p d id :
  (forall e, attributes (f e) = attributes e) ->
  getElementById (alter_element f p d) id = getElementById d id.
Proof.
  intros H. unfold getElementById. rewrite document_paths_alter.
  rewrite (filter_satisfies_alter (has_id id) f p d); [done|].
  intros e. unfold has_id. by rewrite H.
Qed.

Lemma first_of_class_element c d p :
  first_of_class c d = Some p -> exists e, element_at d p = Some e /\ c ∈ classList e.
Proof.
  unfold first_of_class, item0. intros H%head_Some_elem_of.
  apply list_elem_of_filter in H as [H _]. by apply satisfies_element_at in H.
Qed.

Lemma getElementById_element id d p :
  getElementById d id = Some p ->
  exists e, element_at d p = Some e /\ attributes e !! "id" = Some id.
Proof.
  unfold getElementById. intros H%head_Some_elem_of.
  apply list_elem_of_filter in H as [H _].
  apply satisfies_element_at in H as (e & He & _ & Hid). eauto.
Qed.

Lemma getElementById_inj d id1 id2 p :
  getElementById d id1 = Some p -> getElementById d id2 = Some p -> id1 = id2.
Proof.
  intros (e1 & He1 & H1)%getElementById_element (e2 & He2 & H2)%getElementById_element.
  congruence.
Qed.

Lemma singleton_subseteq {A} (x : A) (l : list A) : x ∈ l -> [x] ⊆ l.
Proof. intros H y Hy%list_elem_of_singleton. by subst. Qed.

(** *** Steps *)

Lemma elem_of_classList_put c on x e :
  x ∈ classList (put c on e) <-> (x = c /\ on = true) \/ (x <> c /\ x ∈ classList e).
Proof.
  destruct on; unfold put.
  - rewrite elem_of_classList_add. destruct (decide (x = c)); [|tauto].
    split; [intros _; by left|intros _; by left].
  - rewrite elem_of_classList_remove. split; [tauto|]. intros [[_ ?]|?]; [done|tauto].
Qed.

Lemma attributes_put c on e : attributes (put c on e) = attributes e.
Proof. by destruct on. Qed.

Lemma same_but_classes_put c on e : same_but_classes [c] e (put c on e).
Proof. destruct on; [apply same_but_classes_add|apply same_but_classes_remove]. Qed.

(** An element that has the class, or lacks it, as asked is left as it is. *)
Lemma put_noop c on e : (c ∈ classList e <-> on = true) -> put c on e = e.
Proof.
  intros H. destruct e as [ns t a cl st v x ls]. destruct on; simpl in *.
  - unfold classList_add. simpl. rewrite decide_True by by apply H. done.
  - unfold classList_remove. simpl. f_equal.
    assert (c ∉ cl) as Hc by (intros ?; by apply H in H0).
    clear H. induction cl as [|y cl IH]; [done|].
    rewrite not_elem_of_cons in Hc. destruct Hc as [? ?].
    rewrite filter_cons, decide_True by done. f_equal. by apply IH.
Qed.

Lemma alter_element_noop f p d e :
  element_at d p = Some e -> f e = e -> alter_element f p d = d.
Proof.
  intros He Hf. apply node_ext. intros q. rewrite element_at_alter.
  destruct (decide (q = p)) as [->|]; [|by destruct (element_at d q)].
  rewrite He. simpl. by rewrite Hf.
Qed.

Lemma has_put_eq c on p d :
  is_Some (element_at d p) -> has (alter_element (put c on) p d) p c <-> on = true.
Proof.
  intros [e He]. unfold has, satisfies. rewrite element_at_alter, He. simpl.
  rewrite decide_True by done. unfold has_class. rewrite elem_of_classList_put.
  split; [intros [[_ ?]|[? _]]; done|intros ?; by left].
Qed.

Lemma has_put_ne c on p d q x :
  q <> p \/ x <> c -> has (alter_element (put c on) p d) q x <-> has d q x.
Proof.
  intros H. apply has_alter. destruct H as [?|Hx]; [by left|right].
  intros e. rewrite elem_of_classList_put. split; [intros [[? _]|[_ ?]]; done|tauto].
Qed.

Lemma changes_only_put c on p d : changes_only [p] [c] d (alter_element (put c on) p d).
Proof. apply changes_only_alter. intros e. apply same_but_classes_put. Qed.

Lemma first_of_class_put x c on p d :
  x <> c -> first_of_class x (alter_element (put c on) p d) = first_of_class x d.
Proof.
  intros Hx. apply first_of_class_alter. intros e. rewrite elem_of_classList_put.
  split; [intros [[? _]|[_ ?]]; done|tauto].
Qed.

Lemma getElementById_put id c on p d :
  getElementById (alter_element (put c on) p d) id = getElementById d id.
Proof. apply getElementById_alter. intros e. apply attributes_put. Qed.

Lemma run_eval {A B} (f : Node -> A) (k : A -> Script B) d :
  bind (eval f) k d = k (f d) d.
Proof. done. Qed.

Lemma run_ret {A B} (a : A) (k : A -> Script B) d : bind (ret a) k d = k a d.
Proof. done. Qed.

(** [r.classList.add(c)] and [r.classList.remove(c)]. *)
Lemma run_put {B} c on p (k : unit -> Script B) d :
  is_Some (element_at d p) ->
  bind (call (Some p) (put c on)) k d = k tt (alter_element (put c on) p d).
Proof. intros [e He]. unfold bind. by rewrite (run_call _ p e d He). Qed.

Lemma run_put_null {B} f r (k : unit -> Script B) d :
  r ≫= element_at d = None -> bind (call r f) k d = (d, Throw TypeError).
Proof. intros H. unfold bind. by rewrite run_call_null. Qed.

(** [if (!r.classList.contains(c)) r.classList.add(c)]. *)
Lemma run_ensure {B} c p (k : unit -> Script B) d :
  is_Some (element_at d p) ->
  bind (get (Some p) (classList_contains c))
    (fun x => bind (if negb x then call (Some p) (classList_add c) else ret tt) k) d
  = k tt (alter_element (put c true) p d).
Proof.
  intros [e He]. unfold bind at 1. rewrite (run_get _ p e d He).
  destruct (classList_contains c e) eqn:E; simpl.
  - rewrite run_ret. f_equal. symmetry. apply (alter_element_noop _ p d e He).
    apply (put_noop c true). by apply classList_contains_true in E.
  - apply (run_put c true). eauto.
Qed.

(** [if (r.classList.contains(c)) r.classList.remove(c)]. *)
Lemma run_drop {B} c p (k : unit -> Script B) d :
  is_Some (element_at d p) ->
  bind (get (Some p) (classList_contains c))
    (fun x => bind (if x then call (Some p) (classList_remove c) else ret tt) k) d
  = k tt (alter_element (put c false) p d).
Proof.
  intros [e He]. unfold bind at 1. rewrite (run_get _ p e d He).
  destruct (classList_contains c e) eqn:E; simpl.
  - apply (run_put c false). eauto.
  - rewrite run_ret. f_equal. symmetry. apply (alter_element_noop _ p d e He).
    apply (put_noop c false). apply classList_contains_false in E. split; [done|discriminate].
Qed.

Lemma run_get_throw {A B} (f : Element -> A) r (k : A -> Script B) d :
  r ≫= element_at d = None -> bind (get r f) k d = (d, Throw TypeError).
Proof. intros H. unfold bind. by rewrite run_get_null. Qed.

Lemma bind_assoc {A B C} (m : Script A) (f : A -> Script B) (k : B -> Script C) d :
  bind (bind m f) k d = bind m (fun a => bind (f a) k) d.
Proof. unfold bind. by destruct (m d) as [d' [a|e]]. Qed.

(** *** Parents and children *)

Lemma children_spec d par q :
  q ∈ children d par <-> exists i, q = par ++ [i] /\ is_Some (element_at d q).
Proof.
  unfold children, element_at. split.
  - destruct (node_at d par) as [n|] eqn:Hn; [|by intros ?%elem_of_nil].
    intros (i & -> & Hi)%list_elem_of_fmap. exists i. split; [done|].
    apply elem_of_seq in Hi. rewrite node_at_app, Hn. simpl.
    destruct (lookup_lt_is_Some_2 (childNodes n) i ltac:(lia)) as [c ->]. eauto.
  - intros (i & -> & Hq). rewrite node_at_app in Hq.
    destruct (node_at d par) as [n|]; [|by destruct Hq]. simpl in Hq.
    apply list_elem_of_fmap. exists i. split; [done|]. apply elem_of_seq.
    destruct (childNodes n !! i) as [c|] eqn:Hc; [|by destruct Hq].
    apply lookup_lt_Some in Hc. lia.
Qed.

Lemma children_alter f p d par : children (alter_element f p d) par = children d par.
Proof.
  unfold children.
  assert (forall q n, node_at d q = Some n ->
            exists n', node_at (alter_element f p d) q = Some n' /\
                       length (childNodes n') = length (childNodes n)) as H.
  { clear par. intros q. revert d p. induction q as [|j q IH]; intros d p n Hn.
    - simpl in *. injection Hn as <-. destruct p; simpl; eauto.
      eexists. split; [done|]. simpl. by rewrite length_alter.
    - simpl in Hn. destruct (childNodes d !! j) as [c|] eqn:Hc; [|done].
      destruct p as [|i p]; simpl.
      + rewrite Hc. eauto.
      + destruct (decide (i = j)) as [->|Hij].
        * rewrite list_lookup_alter_eq, Hc. simpl. by apply IH.
        * rewrite list_lookup_alter_ne, Hc by done. eauto. }
  assert (forall q, node_at d q = None -> node_at (alter_element f p d) q = None) as H'.
  { clear par H. intros q. revert d p. induction q as [|j q IH]; intros d p Hn; [done|].
    simpl in Hn. destruct p as [|i p]; simpl; [done|].
    destruct (decide (i = j)) as [->|Hij].
    - rewrite list_lookup_alter_eq. destruct (childNodes d !! j) as [c|]; simpl; [|done].
      by apply IH.
    - by rewrite list_lookup_alter_ne. }
  destruct (node_at d par) as [n|] eqn:Hn.
  - destruct (H par n Hn) as (n' & -> & ->). done.
  - by rewrite (H' par Hn).
Qed.

Lemma children_for_of ps f d par : children (for_of ps f d) par = children d par.
Proof.
  revert d. induction ps as [|p ps IH]; intros d; [done|].
  change (for_of (p :: ps) f d) with (for_of ps f (alter_element f p d)).
  by rewrite IH, children_alter.
Qed.

Lemma is_Some_for_of ps f d q :
  is_Some (element_at (for_of ps f d) q) <-> is_Some (element_at d q).
Proof.
  revert d. induction ps as [|p ps IH]; intros d; [done|].
  change (for_of (p :: ps) f d) with (for_of ps f (alter_element f p d)).
  by rewrite IH, is_Some_alter.
Qed.

Lemma parentElement_last par i : parentElement (par ++ [i]) = Some par.
Proof. unfold parentElement. rewrite removelast_last. by destruct par. Qed.

Lemma classList_remove_add' c e :
  classList_remove c (classList_add c e) = classList_remove c e.
Proof.
  unfold classList_remove, classList_add. simpl. f_equal.
  case_decide; [done|].
  rewrite filter_app, filter_cons, decide_False by (by intros ?).
  by rewrite filter_nil, app_nil_r.
Qed.

End SampleFacts.

(** ** The page script, verified *)

Module SampleSpec.
Import JsNumber Dom Slider Sample DomFacts DomMore SliderFacts SliderSpec SampleFacts.
Local Open Scope script_scope.

(** *** Toggles *)

(** A function that looks an element up and flips one of its class tokens. *)
Lemma toggle_spec (lookup : Node -> Ref) (c : string) (d : Node) :
  (forall f p d, (forall e, attributes (f e) = attributes e) ->
                 (forall e x, x <> c -> x ∈ classList (f e) <-> x ∈ classList e) ->
                 lookup (alter_element f p d) = lookup d) ->
  (forall d p, lookup d = Some p -> is_Some (element_at d p)) ->
  let toggle : Script unit :=
    r <- eval lookup ;;
    on <- get r (classList_contains c) ;;
    if on then call r (classList_remove c) else call r (classList_add c) in
  match lookup d with
  | None => toggle d = (d, Throw TypeError)
  | Some p =>
      exists d',
        toggle d = (d', Normal tt) /\
        (has d' p c <-> ~ has d p c) /\
        changes_only [p] [c] d d' /\
        exists d'',
          toggle d' = (d'', Normal tt) /\
          (~ has d p c -> d'' = d) /\
          changes_only [p] [] d d''
  end.
Proof.
  intros Hinv Hel toggle.
  assert (forall d p e, lookup d = Some p -> element_at d p = Some e ->
            toggle d = (alter_element
                          (if classList_contains c e then classList_remove c
                           else classList_add c) p d, Normal tt)) as Hrun.
  { intros d0 p e Hp He. unfold toggle, bind, eval. rewrite Hp.
    rewrite (run_get _ p e d0 He).
    destruct (classList_contains c e); by rewrite (run_call _ p e d0 He). }
  destruct (lookup d) as [p|] eqn:Hp; [|by unfold toggle, bind, eval; rewrite Hp].
  destruct (Hel d p Hp) as [e He].
  set (f := if classList_contains c e then classList_remove c else classList_add c).
  assert (forall e0 x, x <> c -> x ∈ classList (f e0) <-> x ∈ classList e0) as Hf.
  { intros e0 x Hx. subst f. destruct (classList_contains c e).
    - rewrite elem_of_classList_remove. tauto.
    - rewrite elem_of_classList_add. tauto. }
  assert (forall e0, attributes (f e0) = attributes e0) as Hfa.
  { intros e0. subst f. by destruct (classList_contains c e). }
  assert (c ∈ classList (f e) <-> c ∉ classList e) as Hflip.
  { subst f. destruct (classList_contains c e) eqn:E.
    - apply classList_contains_true in E. rewrite elem_of_classList_remove. tauto.
    - apply classList_contains_false in E. rewrite elem_of_classList_add. tauto. }
  set (d' := alter_element f p d).
  assert (element_at d' p = Some (f e)) as He'.
  { subst d'. by rewrite element_at_alter, He, decide_True. }
  exists d'. split; [by apply Hrun|]. split; [|split].
  - by rewrite (has_element_at d' p c _ He'), (has_element_at d p c _ He).
  - apply changes_only_alter. intros e0. subst f.
    destruct (classList_contains c e); [apply same_but_classes_remove|apply same_but_classes_add].
  - set (g := if classList_contains c (f e) then classList_remove c else classList_add c).
    exists (alter_element g p d'). split; [|split].
    + apply Hrun; [|done]. subst d'. by rewrite Hinv.
    + rewrite (has_element_at d p c _ He). intros Hc.
      apply node_ext. intros q. subst d'. rewrite !element_at_alter.
      destruct (element_at d q) as [e0|] eqn:Hq; [simpl|done].
      destruct (decide (q = p)) as [->|Hne]; [|by rewrite ?decide_False by done].
      rewrite ?decide_True by done.
      rewrite He in Hq. injection Hq as Hq. subst e0.
      subst g f. apply classList_contains_false in Hc as Hc'. rewrite Hc'.
      assert (classList_contains c (classList_add c e) = true) as ->.
      { apply classList_contains_true, elem_of_classList_add. by left. }
      by rewrite classList_remove_add.
    + intros q. subst d'. rewrite !element_at_alter. split.
      * rewrite list_elem_of_singleton. intros Hq. rewrite !decide_False by done.
        by destruct (element_at d q).
      * destruct (element_at d q) as [e0|] eqn:Hq; [simpl|constructor].
        constructor. destruct (decide (q = p)) as [->|Hne];
          [rewrite ?decide_True by done|rewrite ?decide_False by done; apply same_but_classes_refl].
        rewrite He in Hq. injection Hq as Hq. subst e0.
        assert (forall x, x ∈ classList (g (f e)) <-> x ∈ classList e) as Hgf.
        { intros x. subst g. destruct (classList_contains c (f e)) eqn:E.
          - apply classList_contains_true in E. rewrite elem_of_classList_remove.
            destruct (decide (x = c)) as [->|Hx]; [|rewrite (Hf e x Hx); tauto].
            split; [by intros [? _]|]. intros H0. exfalso. tauto.
          - apply classList_contains_false in E. rewrite elem_of_classList_add.
            destruct (decide (x = c)) as [->|Hx]; [|rewrite (Hf e x Hx); tauto].
            split; [|by left]. intros _.
            destruct (decide (c ∈ classList e)); [done|]. exfalso. tauto. }
        constructor; try (intros x _; apply Hgf); subst g f;
          by destruct (classList_contains c e), (classList_contains c _).
Qed.

(** X9: [toggleMainMenu] throws a [TypeError], leaving the document as it
    is, when no element has the ID [main-menu]; else it flips the class
    [hidden] of the first such element and changes nothing else, and a second
    call gives every element its classes back (the very document, when the
    menu was visible). *)
Theorem toggleMainMenu_toggles doc :
  match getElementById doc "main-menu" with
  | None => toggleMainMenu doc = (doc, Throw TypeError)
  | Some p =>
      exists doc',
        toggleMainMenu doc = (doc', Normal tt) /\
        (has doc' p "hidden" <-> ~ has doc p "hidden") /\
        changes_only [p] ["hidden"] doc doc' /\
        exists doc'',
          toggleMainMenu doc' = (doc'', Normal tt) /\
          (~ has doc p "hidden" -> doc'' = doc) /\
          changes_only [p] [] doc doc''
  end.
Proof.
  apply (toggle_spec (fun d => getElementById d "main-menu") "hidden").
  - intros f p d Ha _. by apply getElementById_alter.
  - intros d p (e & He & _)%getElementById_element. eauto.
Qed.

(** X10: [toggleNavBarWidth] throws a [TypeError], leaving the document as
    it is, when no element has the class [nav-bar]; else it flips the class
    [wide] of the first such element and changes nothing else, and a second
    call gives every element its classes back. *)
Theorem toggleNavBarWidth_toggles event doc :
  match first_of_class "nav-bar" doc with
  | None => toggleNavBarWidth event doc = (doc, Throw TypeError)
  | Some p =>
      exists doc',
        toggleNavBarWidth event doc = (doc', Normal tt) /\
        (has doc' p "wide" <-> ~ has doc p "wide") /\
        changes_only [p] ["wide"] doc doc' /\
        exists doc'',
          toggleNavBarWidth event doc' = (doc'', Normal tt) /\
          (~ has doc p "wide" -> doc'' = doc) /\
          changes_only [p] [] doc doc''
  end.
Proof.
  apply (toggle_spec (first_of_class "nav-bar") "wide").
  - intros f p d _ Hc. apply first_of_class_alter. intros e. by apply Hc.
  - intros d p (e & He & _)%first_of_class_element. eauto.
Qed.

(** *** The rail button *)

Lemma getElementsByTagName_element d p t q :
  item0 (getElementsByTagName d p t) = Some q -> is_Some (element_at d q).
Proof.
  unfold item0. intros H%head_Some_elem_of. apply list_elem_of_filter in H as [H _].
  apply satisfies_element_at in H as (e & He & _). eauto.
Qed.

(** X11: [toggleNavRailWidth] flips the class [wide] of the first
    [.nav-rail] and sets the icon of the button to match: the open-menu icon
    when the rail is now wide, the menu icon when it is not.  Without an
    [svg] in the button, or without a [.nav-rail], it throws before it changes
    anything; without a [path] in the [svg] it throws after it has flipped
    the class. *)
Theorem toggleNavRailWidth_icon event doc :
  (currentTarget event ≫= element_at doc = None ->
   toggleNavRailWidth event doc = (doc, Throw TypeError)) /\
  (forall button, currentTarget event = Some button ->
     is_Some (element_at doc button) ->
     match item0 (getElementsByTagName doc button "svg") with
     | None => toggleNavRailWidth event doc = (doc, Throw TypeError)
     | Some svg =>
         match first_of_class "nav-rail" doc, item0 (getElementsByTagName doc svg "path") with
         | None, _ => toggleNavRailWidth event doc = (doc, Throw TypeError)
         | Some rail, None =>
             exists doc',
               toggleNavRailWidth event doc = (doc', Throw TypeError) /\
               (has doc' rail "wide" <-> ~ has doc rail "wide") /\
               changes_only [rail] ["wide"] doc doc'
         | Some rail, Some path =>
             exists doc',
               toggleNavRailWidth event doc = (doc', Normal tt) /\
               (has doc' rail "wide" <-> ~ has doc rail "wide") /\
               attribute doc' path "d"
               = Some (if bool_decide (has doc' rail "wide")
                       then menu_open_icon else menu_icon) /\
               (forall q, q ∉ [rail; path] -> element_at doc' q = element_at doc q)
         end
     end).
Proof.
  split.
  { intros H. unfold toggleNavRailWidth, bind, eval. by rewrite run_within_null. }
  intros button Hb [eb Heb]. unfold toggleNavRailWidth, bind, eval. rewrite Hb.
  rewrite (run_within _ button eb doc Heb).
  destruct (item0 (getElementsByTagName doc button "svg")) as [svg|] eqn:Hsvg;
    [|by rewrite run_within_null].
  destruct (getElementsByTagName_element _ _ _ _ Hsvg) as [es Hes].
  rewrite (run_within _ svg es doc Hes).
  destruct (first_of_class "nav-rail" doc) as [rail|] eqn:Hrail;
    [|by rewrite run_get_null].
  destruct (first_of_class_element _ _ _ Hrail) as (er & Her & _).
  rewrite (run_get _ rail er doc Her).
  set (f := if classList_contains "wide" er then classList_remove "wide"
            else classList_add "wide").
  set (d1 := alter_element f rail doc).
  assert (element_at d1 rail = Some (f er)) as Her1.
  { subst d1. by rewrite element_at_alter, Her, decide_True. }
  assert (has d1 rail "wide" <-> ~ has doc rail "wide") as Hflip.
  { rewrite (has_element_at d1 rail _ _ Her1), (has_element_at doc rail _ _ Her).
    subst f. destruct (classList_contains "wide" er) eqn:E.
    - apply classList_contains_true in E. rewrite elem_of_classList_remove. tauto.
    - apply classList_contains_false in E. rewrite elem_of_classList_add. tauto. }
  assert (changes_only [rail] ["wide"] doc d1) as Hch.
  { apply changes_only_alter. intros e0. subst f.
    destruct (classList_contains "wide" er);
      [apply same_but_classes_remove|apply same_but_classes_add]. }
  destruct (item0 (getElementsByTagName doc svg "path")) as [path|] eqn:Hpath.
  - destruct (getElementsByTagName_element _ _ _ _ Hpath) as [ep Hep].
    assert (is_Some (element_at d1 path)) as [ep1 Hep1].
    { subst d1. apply is_Some_alter. eauto. }
    set (icon := if classList_contains "wide" er then menu_icon else menu_open_icon).
    exists (alter_element (setAttribute "d" icon) path d1).
    split.
    { subst f d1 icon. destruct (classList_contains "wide" er);
        rewrite (run_call _ rail er doc Her); by rewrite (run_call _ path ep1 _ Hep1). }
    assert (has (alter_element (setAttribute "d" icon) path d1) rail "wide"
            <-> has d1 rail "wide") as Hsame.
    { apply has_alter. by right. }
    split; [by rewrite Hsame|]. split.
    + unfold attribute. rewrite element_at_alter, Hep1. simpl. rewrite decide_True by done.
      simpl. rewrite lookup_insert_eq. f_equal.
      assert (bool_decide (has (alter_element (setAttribute "d" icon) path d1) rail "wide")
              = negb (classList_contains "wide" er)) as ->.
      { apply eq_true_iff_eq. rewrite bool_decide_eq_true, Hsame, Hflip.
        rewrite (has_element_at doc rail _ _ Her), negb_true_iff.
        by rewrite classList_contains_false. }
      subst icon. by destruct (classList_contains "wide" er).
    + intros q Hq. rewrite !not_elem_of_cons in Hq. destruct Hq as (Hq1 & Hq2 & _).
      subst d1. rewrite !element_at_alter. rewrite !decide_False by done.
      by destruct (element_at doc q).
  - exists d1. split; [|done].
    subst f d1. destruct (classList_contains "wide" er);
      rewrite (run_call _ rail er doc Her); by rewrite run_call_null.
Qed.

(** *** Bar and rail *)

(** X12: [toggleNavBarNavRail] never throws.  It does nothing unless the
    document has both a [.nav-bar] and a [.nav-rail]; else it leaves the rail
    hidden exactly when the bar was hidden, and, the two being different
    elements, flips the bar: afterwards exactly one of the two is hidden,
    whatever the rail was before.  It changes nothing but the class [hidden]
    of the two. *)
Theorem toggleNavBarNavRail_exclusive doc :
  exists doc',
    toggleNavBarNavRail doc = (doc', Normal tt) /\
    match first_of_class "nav-bar" doc, first_of_class "nav-rail" doc with
    | Some bar, Some rail =>
        (has doc' rail "hidden" <-> has doc bar "hidden") /\
        (bar <> rail -> has doc' bar "hidden" <-> ~ has doc bar "hidden") /\
        changes_only [bar; rail] ["hidden"] doc doc'
    | _, _ => doc' = doc
    end.
Proof.
  unfold toggleNavBarNavRail, bind, eval.
  destruct (first_of_class "nav-bar" doc) as [bar|] eqn:Hbar; [|by exists doc].
  destruct (first_of_class "nav-rail" doc) as [rail|] eqn:Hrail; [|by exists doc].
  destruct (first_of_class_element _ _ _ Hbar) as (eb & Heb & _).
  destruct (first_of_class_element _ _ _ Hrail) as (er & Her & _).
  rewrite (run_get _ bar eb doc Heb).
  set (f := if classList_contains "hidden" eb then classList_remove "hidden"
            else classList_add "hidden").
  set (g := if classList_contains "hidden" eb then classList_add "hidden"
            else classList_remove "hidden").
  set (d1 := alter_element f bar doc).
  assert (is_Some (element_at d1 rail)) as [er1 Her1].
  { subst d1. apply is_Some_alter. eauto. }
  exists (alter_element g rail d1). split.
  { subst f g d1. destruct (classList_contains "hidden" eb);
      rewrite (run_call _ bar eb doc Heb); by rewrite (run_call _ rail er1 _ Her1). }
  assert (element_at (alter_element g rail d1) rail = Some (g er1)) as Her2.
  { by rewrite element_at_alter, Her1, decide_True. }
  split; [|split].
  - rewrite (has_element_at _ rail _ _ Her2), (has_element_at doc bar _ _ Heb).
    subst g. destruct (classList_contains "hidden" eb) eqn:E.
    + apply classList_contains_true in E. rewrite elem_of_classList_add.
      split; [done|by left].
    + apply classList_contains_false in E. rewrite elem_of_classList_remove.
      split; [by intros [? _]|done].
  - intros Hne. rewrite has_alter by by left.
    assert (element_at d1 bar = Some (f eb)) as Heb1.
    { subst d1. by rewrite element_at_alter, Heb, decide_True. }
    rewrite (has_element_at _ bar _ _ Heb1), (has_element_at doc bar _ _ Heb).
    subst f. destruct (classList_contains "hidden" eb) eqn:E.
    + apply classList_contains_true in E. rewrite elem_of_classList_remove. tauto.
    + apply classList_contains_false in E. rewrite elem_of_classList_add. tauto.
  - apply (changes_only_trans _ _ _ d1).
    + apply (changes_only_mono [bar] _ ["hidden"]); [apply singleton_subseteq; left|done|].
      apply changes_only_alter. intros e0. subst f.
      destruct (classList_contains "hidden" eb);
        [apply same_but_classes_remove|apply same_but_classes_add].
    + apply (changes_only_mono [rail] _ ["hidden"]);
        [apply singleton_subseteq; right; left|done|].
      apply changes_only_alter. intros e0. subst g.
      destruct (classList_contains "hidden" eb);
        [apply same_but_classes_add|apply same_but_classes_remove].
Qed.

(** *** The navigation drawer *)

Lemma alter_put_noop c on p d :
  is_Some (element_at d p) -> (has d p c <-> on = true) ->
  alter_element (put c on) p d = d.
Proof.
  intros [e He] H. apply (alter_element_noop _ p d e He). apply put_noop.
  by rewrite <- (has_element_at d p c e He).
Qed.

Ltac present := rewrite ?is_Some_alter; eauto.

Ltac has_put :=
  repeat first
    [ rewrite has_put_ne by
        first [ left; assumption | left; apply not_eq_sym; assumption | right; discriminate ]
    | rewrite has_put_eq by present ].

Ltac among :=
  apply singleton_subseteq;
  solve [repeat first [apply list_elem_of_here | apply list_elem_of_further]].

Ltac changed :=
  repeat first
    [ apply changes_only_refl
    | eapply changes_only_trans;
      [|eapply changes_only_mono; [..|apply changes_only_put]; among] ].

Ltac lookups :=
  rewrite ?getElementById_put, ?first_of_class_put by discriminate.

Lemma ids_differ d id1 id2 p1 p2 :
  getElementById d id1 = Some p1 -> getElementById d id2 = Some p2 -> id1 <> id2 -> p1 <> p2.
Proof. intros H1 H2 Hne ->. apply Hne. by apply (getElementById_inj d id1 id2 p2). Qed.

(** X13: [navDrawerModal] leaves the drawer modal, the modal button hidden
    and the fix button shown, changes no other class, and a second call
    changes nothing.  Without a [.nav-drawer] it throws before it changes
    anything; without one of the buttons it throws after the steps before
    it. *)
Theorem navDrawerModal_spec doc :
  match first_of_class "nav-drawer" doc with
  | None => navDrawerModal doc = (doc, Throw TypeError)
  | Some dr =>
      match getElementById doc "nav-drawer-modal-button",
            getElementById doc "nav-drawer-fix-button" with
      | None, _ =>
          exists doc',
            navDrawerModal doc = (doc', Throw TypeError) /\ has doc' dr "modal" /\
            changes_only [dr] ["modal"] doc doc'
      | Some mb, None =>
          exists doc',
            navDrawerModal doc = (doc', Throw TypeError) /\ has doc' dr "modal" /\
            has doc' mb "hidden" /\ changes_only [dr; mb] ["modal"; "hidden"] doc doc'
      | Some mb, Some fb =>
          exists doc',
            navDrawerModal doc = (doc', Normal tt) /\ has doc' dr "modal" /\
            has doc' mb "hidden" /\ ~ has doc' fb "hidden" /\
            changes_only [dr; mb; fb] ["modal"; "hidden"] doc doc' /\
            navDrawerModal doc' = (doc', Normal tt)
      end
  end.
Proof.
  assert (forall d dr, first_of_class "nav-drawer" d = Some dr ->
            navDrawerModal d
            = (mb <- eval (fun d => getElementById d "nav-drawer-modal-button") ;;
               call mb (classList_add "hidden") ;;
               fb <- eval (fun d => getElementById d "nav-drawer-fix-button") ;;
               call fb (classList_remove "hidden"))
                (alter_element (put "modal" true) dr d)) as Hrun.
  { intros d dr Hdr. unfold navDrawerModal. rewrite run_eval, Hdr.
    destruct (first_of_class_element _ _ _ Hdr) as (e & He & _).
    apply (run_ensure "modal" dr); eauto. }
  destruct (first_of_class "nav-drawer" doc) as [dr|] eqn:Hdr;
    [|by unfold navDrawerModal; rewrite run_eval, Hdr, run_get_throw].
  destruct (first_of_class_element _ _ _ Hdr) as (edr & Hedr & _).
  rewrite (Hrun doc dr Hdr), run_eval. lookups.
  set (d1 := alter_element (put "modal" true) dr doc).
  destruct (getElementById doc "nav-drawer-modal-button") as [mb|] eqn:Hmb.
  2:{ exists d1. rewrite run_put_null by done. split; [done|]. subst d1.
      split; [by has_put|changed]. }
  destruct (getElementById_element _ _ _ Hmb) as (emb & Hemb & _).
  rewrite (run_put "hidden" true mb) by (subst d1; present).
  rewrite run_eval. subst d1. lookups.
  set (d2 := alter_element (put "hidden" true) mb (alter_element (put "modal" true) dr doc)).
  destruct (getElementById doc "nav-drawer-fix-button") as [fb|] eqn:Hfb.
  2:{ exists d2. rewrite run_call_null by done. split; [done|]. subst d2.
      split; [by has_put|]. split; [by has_put|changed]. }
  destruct (getElementById_element _ _ _ Hfb) as (efb & Hefb & _).
  pose proof (ids_differ doc _ _ mb fb Hmb Hfb ltac:(discriminate)) as Hne.
  change (classList_remove "hidden") with (put "hidden" false).
  set (d3 := alter_element (put "hidden" false) fb d2).
  assert (has d3 dr "modal") as H1 by (subst d3 d2; by has_put).
  assert (has d3 mb "hidden") as H2 by (subst d3 d2; by has_put).
  assert (~ has d3 fb "hidden") as H3 by (subst d3 d2; by has_put).
  exists d3. split; [subst d2; by rewrite (run_call_present _ fb) by present|].
  split; [done|]. split; [done|]. split; [done|].
  split; [subst d3 d2; changed|].
  assert (first_of_class "nav-drawer" d3 = Some dr) as Hdr3 by (subst d3 d2; by lookups).
  assert (is_Some (element_at d3 dr) /\ is_Some (element_at d3 mb) /\
          is_Some (element_at d3 fb)) as (P1 & P2 & P3).
  { subst d3 d2. repeat split; present. }
  rewrite (Hrun d3 dr Hdr3), run_eval. lookups.
  assert (getElementById d3 "nav-drawer-modal-button" = Some mb) as ->
    by (subst d3 d2; by lookups).
  rewrite (alter_put_noop "modal" true dr d3) by done.
  rewrite (run_put "hidden" true mb) by done.
  rewrite (alter_put_noop "hidden" true mb d3) by done.
  rewrite run_eval.
  assert (getElementById d3 "nav-drawer-fix-button" = Some fb) as ->
    by (subst d3 d2; by lookups).
  change (classList_remove "hidden") with (put "hidden" false).
  rewrite (run_call_present _ fb) by done.
  rewrite (alter_put_noop "hidden" false fb d3); [done|done|].
  split; [done|discriminate].
Qed.

(** X14: [navDrawerFix] leaves the drawer not modal, the modal button shown
    and the fix button hidden, changes no other class, and a second call
    changes nothing.  Without a [.nav-drawer] it throws before it changes
    anything; without one of the buttons it throws after the steps before
    it. *)
Theorem navDrawerFix_spec doc :
  match first_of_class "nav-drawer" doc with
  | None => navDrawerFix doc = (doc, Throw TypeError)
  | Some dr =>
      match getElementById doc "nav-drawer-modal-button",
            getElementById doc "nav-drawer-fix-button" with
      | None, _ =>
          exists doc',
            navDrawerFix doc = (doc', Throw TypeError) /\ ~ has doc' dr "modal" /\
            changes_only [dr] ["modal"] doc doc'
      | Some mb, None =>
          exists doc',
            navDrawerFix doc = (doc', Throw TypeError) /\ ~ has doc' dr "modal" /\
            ~ has doc' mb "hidden" /\ changes_only [dr; mb] ["modal"; "hidden"] doc doc'
      | Some mb, Some fb =>
          exists doc',
            navDrawerFix doc = (doc', Normal tt) /\ ~ has doc' dr "modal" /\
            ~ has doc' mb "hidden" /\ has doc' fb "hidden" /\
            changes_only [dr; mb; fb] ["modal"; "hidden"] doc doc' /\
            navDrawerFix doc' = (doc', Normal tt)
      end
  end.
Proof.
  assert (forall d dr, first_of_class "nav-drawer" d = Some dr ->
            navDrawerFix d
            = (mb <- eval (fun d => getElementById d "nav-drawer-modal-button") ;;
               call mb (classList_remove "hidden") ;;
               fb <- eval (fun d => getElementById d "nav-drawer-fix-button") ;;
               call fb (classList_add "hidden"))
                (alter_element (put "modal" false) dr d)) as Hrun.
  { intros d dr Hdr. unfold navDrawerFix. rewrite run_eval, Hdr.
    destruct (first_of_class_element _ _ _ Hdr) as (e & He & _).
    apply (run_drop "modal" dr); eauto. }
  destruct (first_of_class "nav-drawer" doc) as [dr|] eqn:Hdr;
    [|by unfold navDrawerFix; rewrite run_eval, Hdr, run_get_throw].
  destruct (first_of_class_element _ _ _ Hdr) as (edr & Hedr & _).
  rewrite (Hrun doc dr Hdr), run_eval. lookups.
  set (d1 := alter_element (put "modal" false) dr doc).
  destruct (getElementById doc "nav-drawer-modal-button") as [mb|] eqn:Hmb.
  2:{ exists d1. rewrite run_put_null by done. split; [done|]. subst d1.
      split; [by has_put|changed]. }
  destruct (getElementById_element _ _ _ Hmb) as (emb & Hemb & _).
  rewrite (run_put "hidden" false mb) by (subst d1; present).
  rewrite run_eval. subst d1. lookups.
  set (d2 := alter_element (put "hidden" false) mb (alter_element (put "modal" false) dr doc)).
  destruct (getElementById doc "nav-drawer-fix-button") as [fb|] eqn:Hfb.
  2:{ exists d2. rewrite run_call_null by done. split; [done|]. subst d2.
      split; [by has_put|]. split; [by has_put|changed]. }
  destruct (getElementById_element _ _ _ Hfb) as (efb & Hefb & _).
  pose proof (ids_differ doc _ _ mb fb Hmb Hfb ltac:(discriminate)) as Hne.
  change (classList_add "hidden") with (put "hidden" true).
  set (d3 := alter_element (put "hidden" true) fb d2).
  assert (~ has d3 dr "modal") as H1 by (subst d3 d2; by has_put).
  assert (~ has d3 mb "hidden") as H2 by (subst d3 d2; by has_put).
  assert (has d3 fb "hidden") as H3 by (subst d3 d2; by has_put).
  exists d3. split; [subst d2; by rewrite (run_call_present _ fb) by present|].
  split; [done|]. split; [done|]. split; [done|].
  split; [subst d3 d2; changed|].
  assert (first_of_class "nav-drawer" d3 = Some dr) as Hdr3 by (subst d3 d2; by lookups).
  assert (is_Some (element_at d3 dr) /\ is_Some (element_at d3 mb) /\
          is_Some (element_at d3 fb)) as (P1 & P2 & P3).
  { subst d3 d2. repeat split; present. }
  rewrite (Hrun d3 dr Hdr3), run_eval. lookups.
  assert (getElementById d3 "nav-drawer-modal-button" = Some mb) as ->
    by (subst d3 d2; by lookups).
  rewrite (alter_put_noop "modal" false dr d3) by (done || (split; [done|discriminate])).
  rewrite (run_put "hidden" false mb) by done.
  rewrite (alter_put_noop "hidden" false mb d3) by (done || (split; [done|discriminate])).
  rewrite run_eval.
  assert (getElementById d3 "nav-drawer-fix-button" = Some fb) as ->
    by (subst d3 d2; by lookups).
  change (classList_add "hidden") with (put "hidden" true).
  rewrite (run_call_present _ fb) by done.
  by rewrite (alter_put_noop "hidden" true fb d3).
Qed.


(** The runs of the drawer functions on a page that has the elements they
    look up. *)
Lemma navDrawerModal_run d dr mb fb :
  first_of_class "nav-drawer" d = Some dr ->
  getElementById d "nav-drawer-modal-button" = Some mb ->
  getElementById d "nav-drawer-fix-button" = Some fb ->
  navDrawerModal d
  = (alter_element (put "hidden" false) fb
       (alter_element (put "hidden" true) mb
          (alter_element (put "modal" true) dr d)), Normal tt).
Proof.
  intros Hdr Hmb Hfb.
  destruct (first_of_class_element _ _ _ Hdr) as (edr & Hedr & _).
  destruct (getElementById_element _ _ _ Hmb) as (emb & Hemb & _).
  destruct (getElementById_element _ _ _ Hfb) as (efb & Hefb & _).
  unfold navDrawerModal. rewrite run_eval, Hdr.
  rewrite (run_ensure "modal" dr) by eauto. rewrite run_eval. lookups. rewrite Hmb.
  rewrite (run_put "hidden" true mb) by present. rewrite run_eval. lookups. rewrite Hfb.
  change (classList_remove "hidden") with (put "hidden" false).
  by rewrite (run_call_present _ fb) by present.
Qed.

Lemma navDrawerHide_run right d dr sb hb :
  first_of_class "nav-drawer" d = Some dr ->
  getElementById d "nav-drawer-show-button" = Some sb ->
  getElementById d "nav-drawer-hide-button" = Some hb ->
  navDrawerHide right None d
  = (alter_element (put "hidden" true) hb
       (alter_element (put "hidden" false) sb
          (alter_element (put "hidden" true) dr d)), Normal tt).
Proof.
  intros Hdr Hsb Hhb.
  destruct (first_of_class_element _ _ _ Hdr) as (edr & Hedr & _).
  destruct (getElementById_element _ _ _ Hsb) as (esb & Hesb & _).
  destruct (getElementById_element _ _ _ Hhb) as (ehb & Hehb & _).
  unfold navDrawerHide. rewrite run_ret, run_eval, Hdr.
  rewrite (run_ensure "hidden" dr) by eauto. rewrite run_eval. lookups. rewrite Hsb.
  rewrite (run_put "hidden" false sb) by present. rewrite run_eval. lookups. rewrite Hhb.
  change (classList_add "hidden") with (put "hidden" true).
  by rewrite (run_call_present _ hb) by present.
Qed.

Lemma navDrawerHide_dismisses right event d :
  dismisses right event d -> navDrawerHide right event d = navDrawerHide right None d.
Proof.
  destruct event as [ev|]; [|done]. unfold dismisses.
  destruct (target ev) as [p|] eqn:Hp; [|done]. intros [Hhas Hlt].
  destruct (satisfies_element_at _ _ _ Hhas) as (e & He & Hc).
  assert (classList_contains "nav-drawer" e = true) as Hon by by apply classList_contains_true.
  unfold navDrawerHide. rewrite Hp.
  rewrite bind_assoc. unfold bind at 1. rewrite (run_get _ p e d He).
  rewrite bind_assoc. unfold bind at 1. rewrite (run_get _ p e d He), Hon.
  simpl negb. cbv iota. rewrite bind_assoc. unfold bind at 1.
  rewrite (run_within _ p e d He), Hlt. by rewrite !run_ret.
Qed.

Lemma navDrawerShow_shown d dr sb hb :
  first_of_class "nav-drawer" d = Some dr ->
  getElementById d "nav-drawer-show-button" = Some sb ->
  getElementById d "nav-drawer-hide-button" = Some hb ->
  ~ has d dr "hidden" ->
  navDrawerShow d
  = (alter_element (put "hidden" false) hb
       (alter_element (put "hidden" true) sb d), Normal tt).
Proof.
  intros Hdr Hsb Hhb Hhid.
  destruct (first_of_class_element _ _ _ Hdr) as (edr & Hedr & _).
  destruct (getElementById_element _ _ _ Hsb) as (esb & Hesb & _).
  destruct (getElementById_element _ _ _ Hhb) as (ehb & Hehb & _).
  unfold navDrawerShow. rewrite run_eval, Hdr.
  unfold bind at 1. rewrite (run_get _ dr edr d Hedr).
  rewrite (has_element_at d dr _ _ Hedr) in Hhid.
  apply classList_contains_false in Hhid. rewrite Hhid, run_ret, run_eval, Hsb.
  rewrite (run_put "hidden" true sb) by eauto. rewrite run_eval. lookups. rewrite Hhb.
  change (classList_remove "hidden") with (put "hidden" false).
  by rewrite (run_call_present _ hb) by present.
Qed.

Lemma navDrawerShow_hidden d dr :
  first_of_class "nav-drawer" d = Some dr ->
  has d dr "hidden" ->
  navDrawerShow d
  = bind navDrawerModal
      (fun _ =>
         showButton <- eval (fun d => getElementById d "nav-drawer-show-button") ;;
         call showButton (classList_add "hidden") ;;
         hideButton <- eval (fun d => getElementById d "nav-drawer-hide-button") ;;
         call hideButton (classList_remove "hidden"))
      (alter_element (put "hidden" false) dr d).
Proof.
  intros Hdr Hhid.
  destruct (first_of_class_element _ _ _ Hdr) as (edr & Hedr & _).
  unfold navDrawerShow. rewrite run_eval, Hdr.
  unfold bind at 1. rewrite (run_get _ dr edr d Hedr).
  rewrite (has_element_at d dr _ _ Hedr) in Hhid.
  apply classList_contains_true in Hhid. rewrite Hhid, bind_assoc.
  change (classList_remove "hidden") with (put "hidden" false) at 1.
  by rewrite (run_put "hidden" false dr) by eauto.
Qed.

Lemma navDrawerShow_run d dr sb hb mb fb :
  first_of_class "nav-drawer" d = Some dr ->
  getElementById d "nav-drawer-show-button" = Some sb ->
  getElementById d "nav-drawer-hide-button" = Some hb ->
  getElementById d "nav-drawer-modal-button" = Some mb ->
  getElementById d "nav-drawer-fix-button" = Some fb ->
  has d dr "hidden" ->
  navDrawerShow d
  = (alter_element (put "hidden" false) hb
       (alter_element (put "hidden" true) sb
          (alter_element (put "hidden" false) fb
             (alter_element (put "hidden" true) mb
                (alter_element (put "modal" true) dr
                   (alter_element (put "hidden" false) dr d))))), Normal tt).
Proof.
  intros Hdr Hsb Hhb Hmb Hfb Hhid.
  destruct (first_of_class_element _ _ _ Hdr) as (edr & Hedr & _).
  destruct (getElementById_element _ _ _ Hsb) as (esb & Hesb & _).
  destruct (getElementById_element _ _ _ Hhb) as (ehb & Hehb & _).
  destruct (getElementById_element _ _ _ Hmb) as (emb & Hemb & _).
  destruct (getElementById_element _ _ _ Hfb) as (efb & Hefb & _).
  rewrite (navDrawerShow_hidden d dr Hdr Hhid).
  unfold bind at 1.
  rewrite (navDrawerModal_run _ dr mb fb) by (lookups; done).
  rewrite run_eval. lookups. rewrite Hsb.
  rewrite (run_put "hidden" true sb) by present. rewrite run_eval. lookups. rewrite Hhb.
  change (classList_remove "hidden") with (put "hidden" false).
  by rewrite (run_call_present _ hb) by present.
Qed.

(** X15: [navDrawerShow] on a page that has the drawer and its show and hide
    buttons.  When the drawer is not hidden, it hides the show button and
    shows the hide button, and changes nothing else.  When the drawer is
    hidden, it shows it and makes it modal as [navDrawerModal] does: with the
    modal and fix buttons on the page, and the drawer not one of the buttons it
    hides, the drawer ends shown and modal, the modal and show buttons
    hidden, the fix and hide buttons shown; without the modal button it
    throws after it has shown the drawer and made it modal. *)
Theorem navDrawerShow_spec doc dr sb hb :
  first_of_class "nav-drawer" doc = Some dr ->
  getElementById doc "nav-drawer-show-button" = Some sb ->
  getElementById doc "nav-drawer-hide-button" = Some hb ->
  (~ has doc dr "hidden" ->
   exists doc',
     navDrawerShow doc = (doc', Normal tt) /\
     has doc' sb "hidden" /\ ~ has doc' hb "hidden" /\
     changes_only [sb; hb] ["hidden"] doc doc') /\
  (has doc dr "hidden" ->
   match getElementById doc "nav-drawer-modal-button",
         getElementById doc "nav-drawer-fix-button" with
   | Some mb, Some fb =>
       dr <> sb -> dr <> mb ->
       exists doc',
         navDrawerShow doc = (doc', Normal tt) /\
         ~ has doc' dr "hidden" /\ has doc' dr "modal" /\
         has doc' mb "hidden" /\ ~ has doc' fb "hidden" /\
         has doc' sb "hidden" /\ ~ has doc' hb "hidden" /\
         changes_only [dr; mb; fb; sb; hb] ["hidden"; "modal"] doc doc'
   | None, _ =>
       exists doc',
         navDrawerShow doc = (doc', Throw TypeError) /\
         ~ has doc' dr "hidden" /\ has doc' dr "modal" /\
         changes_only [dr] ["hidden"; "modal"] doc doc'
   | Some mb, None => exists doc', navDrawerShow doc = (doc', Throw TypeError)
   end).
Proof.
  intros Hdr Hsb Hhb.
  destruct (first_of_class_element _ _ _ Hdr) as (edr & Hedr & _).
  destruct (getElementById_element _ _ _ Hsb) as (esb & Hesb & _).
  destruct (getElementById_element _ _ _ Hhb) as (ehb & Hehb & _).
  pose proof (ids_differ doc _ _ sb hb Hsb Hhb ltac:(discriminate)) as Hsh.
  split.
  - intros Hhid. rewrite (navDrawerShow_shown doc dr sb hb) by done.
    eexists. split; [done|]. split; [by has_put|]. split; [by has_put|changed].
  - intros Hhid.
    destruct (getElementById doc "nav-drawer-modal-button") as [mb|] eqn:Hmb.
    + destruct (getElementById_element _ _ _ Hmb) as (emb & Hemb & _).
      destruct (getElementById doc "nav-drawer-fix-button") as [fb|] eqn:Hfb.
      * destruct (getElementById_element _ _ _ Hfb) as (efb & Hefb & _).
        intros Hds Hdm.
        pose proof (ids_differ doc _ _ mb fb Hmb Hfb ltac:(discriminate)).
        pose proof (ids_differ doc _ _ mb sb Hmb Hsb ltac:(discriminate)).
        pose proof (ids_differ doc _ _ mb hb Hmb Hhb ltac:(discriminate)).
        pose proof (ids_differ doc _ _ fb sb Hfb Hsb ltac:(discriminate)).
        pose proof (ids_differ doc _ _ fb hb Hfb Hhb ltac:(discriminate)).
        rewrite (navDrawerShow_run doc dr sb hb mb fb) by done.
        eexists. split; [done|].
        split.
        { destruct (decide (dr = hb)) as [->|?]; [by has_put|].
          destruct (decide (dr = fb)) as [->|?]; by has_put. }
        split; [by has_put|]. split; [by has_put|].
        split; [by has_put|]. split; [by has_put|]. split; [by has_put|changed].
      * rewrite (navDrawerShow_hidden doc dr Hdr Hhid). unfold bind at 1.
        unfold navDrawerModal. rewrite run_eval. lookups. rewrite Hdr.
        rewrite (run_ensure "modal" dr) by present. rewrite run_eval. lookups. rewrite Hmb.
        rewrite (run_put "hidden" true mb) by present. rewrite run_eval. lookups. rewrite Hfb.
        rewrite run_call_null by done. eauto.
    + rewrite (navDrawerShow_hidden doc dr Hdr Hhid). unfold bind at 1.
      unfold navDrawerModal. rewrite run_eval. lookups. rewrite Hdr.
      rewrite (run_ensure "modal" dr) by present. rewrite run_eval. lookups. rewrite Hmb.
      rewrite run_put_null by done.
      eexists. split; [done|]. split; [by has_put|]. split; [by has_put|changed].
Qed.

(** [navDrawerHide] where the drawer or a button is missing. *)
Lemma navDrawerHide_incomplete right d :
  match first_of_class "nav-drawer" d with
  | None => navDrawerHide right None d = (d, Throw TypeError)
  | Some dr =>
      match getElementById d "nav-drawer-show-button" with
      | None =>
          navDrawerHide right None d
          = (alter_element (put "hidden" true) dr d, Throw TypeError)
      | Some sb =>
          getElementById d "nav-drawer-hide-button" = None ->
          navDrawerHide right None d
          = (alter_element (put "hidden" false) sb
               (alter_element (put "hidden" true) dr d), Throw TypeError)
      end
  end.
Proof.
  unfold navDrawerHide. rewrite run_ret, run_eval.
  destruct (first_of_class "nav-drawer" d) as [dr|] eqn:Hdr; [|by rewrite run_get_throw].
  destruct (first_of_class_element _ _ _ Hdr) as (edr & Hedr & _).
  rewrite (run_ensure "hidden" dr) by eauto. rewrite run_eval. lookups.
  destruct (getElementById d "nav-drawer-show-button") as [sb|] eqn:Hsb;
    [|by rewrite run_put_null].
  destruct (getElementById_element _ _ _ Hsb) as (esb & Hesb & _).
  intros Hhb.
  rewrite (run_put "hidden" false sb) by present. rewrite run_eval. lookups. rewrite Hhb.
  by rewrite run_call_null.
Qed.

(** X16: [navDrawerHide] ignores a click on an element that is not of class
    [nav-drawer], and a click left of the right edge of such an element: it
    returns and leaves the document as it is.  With an event that has no
    target it throws.  Called without an event, or for a click on the drawer
    at or beyond its right edge: on a page with a [.nav-drawer], the show
    button and the hide button, the drawer not being the show button, it
    hides the first [.nav-drawer], shows the show button and hides the hide
    button, changes nothing else, and a second call changes nothing; without
    a [.nav-drawer] it throws before it changes anything; with a button
    missing it throws after the steps before it have taken effect. *)
Theorem navDrawerHide_spec right event doc :
  (forall ev, event = Some ev -> target ev ≫= element_at doc = None ->
     navDrawerHide right event doc = (doc, Throw TypeError)) /\
  (forall ev p, event = Some ev -> target ev = Some p -> is_Some (element_at doc p) ->
     ~ has doc p "nav-drawer" \/ ltb (clientX ev) (right doc p) = true ->
     navDrawerHide right event doc = (doc, Normal tt)) /\
  (dismisses right event doc ->
   forall dr sb hb,
     first_of_class "nav-drawer" doc = Some dr ->
     getElementById doc "nav-drawer-show-button" = Some sb ->
     getElementById doc "nav-drawer-hide-button" = Some hb ->
     dr <> sb ->
     exists doc',
       navDrawerHide right event doc = (doc', Normal tt) /\
       has doc' dr "hidden" /\ ~ has doc' sb "hidden" /\ has doc' hb "hidden" /\
       changes_only [dr; sb; hb] ["hidden"] doc doc' /\
       navDrawerHide right None doc' = (doc', Normal tt)) /\
  (dismisses right event doc -> first_of_class "nav-drawer" doc = None ->
     navDrawerHide right event doc = (doc, Throw TypeError)) /\
  (dismisses right event doc ->
   forall dr,
     first_of_class "nav-drawer" doc = Some dr ->
     getElementById doc "nav-drawer-show-button" = None ->
     navDrawerHide right event doc
     = (alter_element (put "hidden" true) dr doc, Throw TypeError)) /\
  (dismisses right event doc ->
   forall dr sb,
     first_of_class "nav-drawer" doc = Some dr ->
     getElementById doc "nav-drawer-show-button" = Some sb ->
     getElementById doc "nav-drawer-hide-button" = None ->
     navDrawerHide right event doc
     = (alter_element (put "hidden" false) sb
          (alter_element (put "hidden" true) dr doc), Throw TypeError)).
Proof.
  pose proof (navDrawerHide_incomplete right doc) as Hinc.
  split; [|split; [|split; [|split; [|split]]]].
  4:{ intros Hdis Hdr. rewrite (navDrawerHide_dismisses right event doc Hdis).
      by rewrite Hdr in Hinc. }
  4:{ intros Hdis dr Hdr Hsb. rewrite (navDrawerHide_dismisses right event doc Hdis).
      by rewrite Hdr, Hsb in Hinc. }
  4:{ intros Hdis dr sb Hdr Hsb Hhb. rewrite (navDrawerHide_dismisses right event doc Hdis).
      rewrite Hdr, Hsb in Hinc. by apply Hinc. }
  - intros ev -> Hnull. unfold navDrawerHide.
    rewrite bind_assoc. by rewrite run_get_throw.
  - intros ev p -> Hp [e He] Hor. unfold navDrawerHide. rewrite Hp.
    rewrite bind_assoc. unfold bind at 1. rewrite (run_get _ p e doc He).
    rewrite bind_assoc. unfold bind at 1. rewrite (run_get _ p e doc He).
    destruct (classList_contains "nav-drawer" e) eqn:E; simpl negb; cbv iota;
      [|by rewrite !run_ret].
    destruct Hor as [Hno|Hlt].
    { exfalso. apply Hno. rewrite (has_element_at doc p _ _ He).
      by apply classList_contains_true. }
    rewrite bind_assoc. unfold bind at 1. rewrite (run_within _ p e doc He), Hlt.
    by rewrite !run_ret.
  - intros Hdis dr sb hb Hdr Hsb Hhb Hds.
    destruct (first_of_class_element _ _ _ Hdr) as (edr & Hedr & _).
    destruct (getElementById_element _ _ _ Hsb) as (esb & Hesb & _).
    destruct (getElementById_element _ _ _ Hhb) as (ehb & Hehb & _).
    pose proof (ids_differ doc _ _ sb hb Hsb Hhb ltac:(discriminate)) as Hsh.
    rewrite (navDrawerHide_dismisses right event doc Hdis).
    rewrite (navDrawerHide_run right doc dr sb hb Hdr Hsb Hhb).
    set (d3 := alter_element (put "hidden" true) hb _).
    assert (has d3 dr "hidden") as H1.
    { subst d3. destruct (decide (dr = hb)) as [->|?]; by has_put. }
    assert (~ has d3 sb "hidden") as H2 by (subst d3; by has_put).
    assert (has d3 hb "hidden") as H3 by (subst d3; by has_put).
    assert (is_Some (element_at d3 dr) /\ is_Some (element_at d3 sb) /\
            is_Some (element_at d3 hb)) as (P1 & P2 & P3).
    { subst d3. repeat split; present. }
    exists d3. split; [done|]. split; [done|]. split; [done|]. split; [done|].
    split; [subst d3; changed|].
    rewrite (navDrawerHide_run right d3 dr sb hb) by (subst d3; by lookups).
    rewrite (alter_put_noop "hidden" true dr d3) by done.
    rewrite (alter_put_noop "hidden" false sb d3) by (done || (split; [done|discriminate])).
    by rewrite (alter_put_noop "hidden" true hb d3).
Qed.

(** X17: hiding the drawer and showing it again brings it back modal: on a
    page that has the drawer and its four buttons, the drawer being neither
    the show button nor the modal button, [navDrawerShow] after
    [navDrawerHide] leaves the drawer shown and modal, the modal and show
    buttons hidden, and the fix and hide buttons shown, whatever the page
    was before. *)
Theorem navDrawerShow_after_Hide right doc dr sb hb mb fb :
  first_of_class "nav-drawer" doc = Some dr ->
  getElementById doc "nav-drawer-show-button" = Some sb ->
  getElementById doc "nav-drawer-hide-button" = Some hb ->
  getElementById doc "nav-drawer-modal-button" = Some mb ->
  getElementById doc "nav-drawer-fix-button" = Some fb ->
  dr <> sb -> dr <> mb ->
  exists d1 d2,
    navDrawerHide right None doc = (d1, Normal tt) /\
    navDrawerShow d1 = (d2, Normal tt) /\
    ~ has d2 dr "hidden" /\ has d2 dr "modal" /\
    has d2 mb "hidden" /\ ~ has d2 fb "hidden" /\
    has d2 sb "hidden" /\ ~ has d2 hb "hidden" /\
    changes_only [dr; mb; fb; sb; hb] ["hidden"; "modal"] doc d2.
Proof.
  intros Hdr Hsb Hhb Hmb Hfb Hds Hdm.
  destruct (first_of_class_element _ _ _ Hdr) as (edr & Hedr & _).
  destruct (getElementById_element _ _ _ Hsb) as (esb & Hesb & _).
  destruct (getElementById_element _ _ _ Hhb) as (ehb & Hehb & _).
  destruct (getElementById_element _ _ _ Hmb) as (emb & Hemb & _).
  destruct (getElementById_element _ _ _ Hfb) as (efb & Hefb & _).
  pose proof (ids_differ doc _ _ sb hb Hsb Hhb ltac:(discriminate)).
  pose proof (ids_differ doc _ _ mb fb Hmb Hfb ltac:(discriminate)).
  pose proof (ids_differ doc _ _ mb sb Hmb Hsb ltac:(discriminate)).
  pose proof (ids_differ doc _ _ mb hb Hmb Hhb ltac:(discriminate)).
  pose proof (ids_differ doc _ _ fb sb Hfb Hsb ltac:(discriminate)).
  pose proof (ids_differ doc _ _ fb hb Hfb Hhb ltac:(discriminate)).
  rewrite (navDrawerHide_run right doc dr sb hb Hdr Hsb Hhb).
  set (d1 := alter_element (put "hidden" true) hb _).
  assert (has d1 dr "hidden") as Hhid.
  { subst d1. destruct (decide (dr = hb)) as [->|?]; by has_put. }
  exists d1. eexists. split; [done|].
  rewrite (navDrawerShow_run d1 dr sb hb mb fb) by (subst d1; first [by lookups|done]).
  split; [done|]. subst d1.
  split.
  { destruct (decide (dr = hb)) as [->|?]; [by has_put|].
    destruct (decide (dr = fb)) as [->|?]; by has_put. }
  split; [by has_put|]. split; [by has_put|].
  split; [by has_put|]. split; [by has_put|]. split; [by has_put|changed].
Qed.

(** *** Tabs *)

(** What a click on the tab at [par ++ [i]] leaves of an element. *)
Lemma tabItemOnClick_run event d par i :
  currentTarget event = Some (par ++ [i]) ->
  is_Some (element_at d (par ++ [i])) ->
  exists d',
    tabItemOnClick event d = (d', Normal tt) /\
    children d' par = children d par /\
    forall q,
      element_at d' q
      = (fun e =>
           (if decide (q = par ++ [i]) then classList_add "active" else id)
             ((if decide (q ∈ children d par) then classList_remove "active" else id) e))
        <$> element_at d q.
Proof.
  intros Hp Hel. destruct Hel as [e He].
  destruct (element_at_prefix d par [i] ltac:(eauto)) as [epar Hpar].
  unfold tabItemOnClick, bind. rewrite Hp.
  rewrite (run_within _ _ e d He), parentElement_last.
  rewrite (run_within _ par epar d Hpar). unfold each.
  rewrite run_call_present by (apply is_Some_for_of; eauto).
  eexists. split; [done|]. split.
  { by rewrite children_alter, children_for_of. }
  intros q. rewrite element_at_alter, for_of_element_at by apply classList_remove_idem.
  by destruct (element_at d q).
Qed.

(** X18: a click on a tab leaves it the one active tab among its siblings:
    afterwards a child of its parent has the class [active] exactly when it
    is the tab that was clicked, and nothing but the class [active] of these
    children has changed.  A click on the root element, which has no parent,
    throws and leaves the document as it is. *)
Theorem tabItemOnClick_exclusive event doc :
  (currentTarget event = Some [] ->
   tabItemOnClick event doc = (doc, Throw TypeError)) /\
  (forall par i,
     currentTarget event = Some (par ++ [i]) ->
     is_Some (element_at doc (par ++ [i])) ->
     exists doc',
       tabItemOnClick event doc = (doc', Normal tt) /\
       (forall q, q ∈ children doc par -> has doc' q "active" <-> q = par ++ [i]) /\
       changes_only (children doc par) ["active"] doc doc').
Proof.
  split.
  { intros Hp. unfold tabItemOnClick, bind. rewrite Hp.
    by rewrite (run_within _ [] (element doc) doc eq_refl). }
  intros par i Hp Hel.
  destruct (tabItemOnClick_run event doc par i Hp Hel) as (doc' & Hrun & _ & Hat).
  exists doc'. split; [done|]. split.
  - intros q Hq. unfold has, satisfies. rewrite Hat.
    destruct (proj1 (children_spec doc par q) Hq) as (j & -> & [e He]). rewrite He.
    cbn [fmap option_fmap option_map].
    rewrite (decide_True (P := _ ∈ _)) by done. unfold has_class.
    case_decide as Hc.
    + rewrite elem_of_classList_add. split; [done|by left].
    + unfold id. rewrite elem_of_classList_remove. split; [by intros [? _]|done].
  - intros q. rewrite Hat. split.
    + intros Hq. rewrite (decide_False (P := _ ∈ _)) by done.
      rewrite decide_False; [by destruct (element_at doc q)|].
      intros ->. apply Hq, children_spec. eauto.
    + destruct (element_at doc q) as [e|]; constructor.
      apply (same_but_classes_trans _ _
               ((if decide (q ∈ children doc par) then classList_remove "active" else id) e)).
      * destruct (decide (q ∈ children doc par));
          [apply same_but_classes_remove|apply same_but_classes_refl].
      * destruct (decide (q = par ++ [i]));
          [apply same_but_classes_add|apply same_but_classes_refl].
Qed.

(** X19: the last click wins: a click on a tab after a click on one of
    its siblings leaves the very document that the click alone leaves; so
    does a second click on the same tab. *)
Theorem tabItemOnClick_last_wins event1 event2 doc par i j :
  currentTarget event1 = Some (par ++ [i]) ->
  currentTarget event2 = Some (par ++ [j]) ->
  is_Some (element_at doc (par ++ [i])) ->
  is_Some (element_at doc (par ++ [j])) ->
  exists d1 d2,
    tabItemOnClick event1 doc = (d1, Normal tt) /\
    tabItemOnClick event2 d1 = (d2, Normal tt) /\
    tabItemOnClick event2 doc = (d2, Normal tt).
Proof.
  intros Hp1 Hp2 Hel1 Hel2.
  destruct (tabItemOnClick_run event1 doc par i Hp1 Hel1) as (d1 & Hrun1 & Hch1 & Hat1).
  assert (is_Some (element_at d1 (par ++ [j]))) as Hel2'.
  { rewrite Hat1. by apply fmap_is_Some. }
  destruct (tabItemOnClick_run event2 d1 par j Hp2 Hel2') as (d2 & Hrun2 & _ & Hat2).
  destruct (tabItemOnClick_run event2 doc par j Hp2 Hel2) as (d2' & Hrun2' & _ & Hat2').
  exists d1, d2. split; [done|]. split; [done|].
  rewrite Hrun2'. f_equal. apply node_ext. intros q.
  rewrite Hat2', Hat2, Hat1, Hch1.
  destruct (element_at doc q) as [e|] eqn:He; [simpl|done]. f_equal.
  destruct (decide (q ∈ children doc par)) as [Hq|Hq].
  - assert (forall e0, classList_remove "active"
              ((if decide (q = par ++ [i]) then classList_add "active" else id)
                 (classList_remove "active" e0)) = classList_remove "active" e0) as ->; [|done].
    intros e0. case_decide; simpl.
    + by rewrite classList_remove_add', classList_remove_idem.
    + apply classList_remove_idem.
  - assert (q <> par ++ [i]) as Hne.
    { intros ->. apply Hq, children_spec. exists i. split; [done|]. by rewrite He. }
    by rewrite (decide_False (P := q = par ++ [i])) by done.
Qed.

(** *** Instances *)

(** X9 on the page: the hidden main menu is shown. *)
Lemma toggleMainMenu_toggles_witness :
  exists doc', toggleMainMenu page = (doc', Normal tt) /\ ~ has doc' [0%nat] "hidden".
Proof.
  pose proof (toggleMainMenu_toggles page) as H.
  assert (getElementById page "main-menu" = Some [0%nat]) as E by evaluate.
  rewrite E in H. destruct H as (doc' & Hrun & Hflip & _).
  exists doc'. split; [exact Hrun|]. intros Hh. apply Hflip in Hh. apply Hh. decided.
Defined.

(** X10 on the page: the bar becomes wide. *)
Lemma toggleNavBarWidth_toggles_witness :
  exists doc', toggleNavBarWidth (click [1%nat] 0) page = (doc', Normal tt) /\
               has doc' [1%nat] "wide".
Proof.
  pose proof (toggleNavBarWidth_toggles (click [1%nat] 0) page) as H.
  assert (first_of_class "nav-bar" page = Some [1%nat]) as E by evaluate.
  rewrite E in H. destruct H as (doc' & Hrun & Hflip & _).
  exists doc'. split; [exact Hrun|]. apply Hflip. decided.
Defined.

(** X11 on the page: a click on the rail button makes the rail wide and
    sets the open-menu icon. *)
Lemma toggleNavRailWidth_icon_witness :
  exists doc',
    toggleNavRailWidth (click [2; 0]%nat 0) page = (doc', Normal tt) /\
    has doc' [2%nat] "wide" /\
    attribute doc' [2; 0; 0; 0]%nat "d" = Some menu_open_icon.
Proof.
  destruct (toggleNavRailWidth_icon (click [2; 0]%nat 0) page) as [_ H].
  specialize (H [2; 0]%nat eq_refl ltac:(by eexists)).
  assert (item0 (getElementsByTagName page [2; 0]%nat "svg") = Some [2; 0; 0]%nat) as E1
    by evaluate.
  assert (first_of_class "nav-rail" page = Some [2%nat]) as E2 by evaluate.
  assert (item0 (getElementsByTagName page [2; 0; 0]%nat "path") = Some [2; 0; 0; 0]%nat) as E3
    by evaluate.
  rewrite E1, E2, E3 in H. destruct H as (doc' & Hrun & Hflip & Hicon & _).
  assert (has doc' [2%nat] "wide") as Hw by (apply Hflip; decided).
  exists doc'. split; [exact Hrun|]. split; [exact Hw|].
  rewrite Hicon. by rewrite bool_decide_eq_true_2.
Defined.

(** X12 on the page: the bar is hidden, the rail is not. *)
Lemma toggleNavBarNavRail_exclusive_witness :
  exists doc',
    toggleNavBarNavRail page = (doc', Normal tt) /\
    has doc' [1%nat] "hidden" /\ ~ has doc' [2%nat] "hidden".
Proof.
  destruct (toggleNavBarNavRail_exclusive page) as (doc' & Hrun & H).
  assert (first_of_class "nav-bar" page = Some [1%nat]) as E1 by evaluate.
  assert (first_of_class "nav-rail" page = Some [2%nat]) as E2 by evaluate.
  rewrite E1, E2 in H. destruct H as (Hrail & Hbar & _).
  exists doc'. split; [exact Hrun|]. split.
  - apply Hbar; [discriminate|decided].
  - intros Hh. apply Hrail in Hh. revert Hh. decided.
Defined.

(** X13 on the page: the drawer becomes modal. *)
Lemma navDrawerModal_spec_witness :
  exists doc',
    navDrawerModal page = (doc', Normal tt) /\
    has doc' [3%nat] "modal" /\ has doc' [6%nat] "hidden" /\ ~ has doc' [7%nat] "hidden" /\
    navDrawerModal doc' = (doc', Normal tt).
Proof.
  pose proof (navDrawerModal_spec page) as H.
  assert (first_of_class "nav-drawer" page = Some [3%nat]) as E1 by evaluate.
  assert (getElementById page "nav-drawer-modal-button" = Some [6%nat]) as E2 by evaluate.
  assert (getElementById page "nav-drawer-fix-button" = Some [7%nat]) as E3 by evaluate.
  rewrite E1, E2, E3 in H. destruct H as (doc' & Hrun & H1 & H2 & H3 & _ & Hidem).
  exists doc'. auto.
Defined.

(** X14 on the page after [navDrawerModal]: the drawer is fixed again. *)
Lemma navDrawerFix_spec_witness :
  exists doc',
    navDrawerFix (after navDrawerModal page) = (doc', Normal tt) /\
    ~ has doc' [3%nat] "modal" /\ ~ has doc' [6%nat] "hidden" /\ has doc' [7%nat] "hidden".
Proof.
  pose proof (navDrawerFix_spec (after navDrawerModal page)) as H.
  assert (first_of_class "nav-drawer" (after navDrawerModal page) = Some [3%nat]) as E1
    by evaluate.
  assert (getElementById (after navDrawerModal page) "nav-drawer-modal-button" = Some [6%nat])
    as E2 by evaluate.
  assert (getElementById (after navDrawerModal page) "nav-drawer-fix-button" = Some [7%nat])
    as E3 by evaluate.
  rewrite E1, E2, E3 in H. destruct H as (doc' & Hrun & H1 & H2 & H3 & _).
  exists doc'. auto.
Defined.

(** X15 on the page, whose drawer is hidden: it is shown, and modal. *)
Lemma navDrawerShow_spec_witness :
  exists doc',
    navDrawerShow page = (doc', Normal tt) /\
    ~ has doc' [3%nat] "hidden" /\ has doc' [3%nat] "modal" /\
    has doc' [4%nat] "hidden" /\ ~ has doc' [5%nat] "hidden".
Proof.
  destruct (navDrawerShow_spec page [3%nat] [4%nat] [5%nat]) as [_ H]; [evaluate..|].
  specialize (H ltac:(decided)).
  assert (getElementById page "nav-drawer-modal-button" = Some [6%nat]) as E2 by evaluate.
  assert (getElementById page "nav-drawer-fix-button" = Some [7%nat]) as E3 by evaluate.
  rewrite E2, E3 in H.
  destruct H as (doc' & Hrun & H1 & H2 & _ & _ & H5 & H6 & _); [discriminate..|].
  exists doc'. auto.
Defined.

(** X16 on the page with the drawer shown: a click on the drawer beyond its
    right edge hides it. *)
Lemma navDrawerHide_spec_witness :
  dismisses edge_at_300 (Some (click [3%nat] 400)) (after navDrawerShow page) /\
  exists doc',
    navDrawerHide edge_at_300 (Some (click [3%nat] 400)) (after navDrawerShow page)
    = (doc', Normal tt) /\
    has doc' [3%nat] "hidden" /\ ~ has doc' [4%nat] "hidden" /\ has doc' [5%nat] "hidden".
Proof.
  assert (dismisses edge_at_300 (Some (click [3%nat] 400)) (after navDrawerShow page)) as Hd.
  { split; [decided|evaluate]. }
  split; [exact Hd|].
  destruct (navDrawerHide_spec edge_at_300 (Some (click [3%nat] 400))
              (after navDrawerShow page)) as (_ & _ & H & _).
  destruct (H Hd [3%nat] [4%nat] [5%nat]) as (doc' & Hrun & H1 & H2 & H3 & _);
    [evaluate|evaluate|evaluate|discriminate|].
  exists doc'. auto.
Defined.

(** X17 on the page. *)
Lemma navDrawerShow_after_Hide_witness :
  exists d1 d2,
    navDrawerHide edge_at_300 None page = (d1, Normal tt) /\
    navDrawerShow d1 = (d2, Normal tt) /\
    ~ has d2 [3%nat] "hidden" /\ has d2 [3%nat] "modal".
Proof.
  destruct (navDrawerShow_after_Hide edge_at_300 page [3%nat] [4%nat] [5%nat] [6%nat] [7%nat])
    as (d1 & d2 & H1 & H2 & H3 & H4 & _);
    [evaluate|evaluate|evaluate|evaluate|evaluate|discriminate|discriminate|].
  exists d1, d2. auto.
Defined.

(** X18 on the page: a click on the third tab. *)
Lemma tabItemOnClick_exclusive_witness :
  exists doc',
    tabItemOnClick (click [8; 2]%nat 0) page = (doc', Normal tt) /\
    ~ has doc' [8; 0]%nat "active" /\ has doc' [8; 2]%nat "active".
Proof.
  destruct (tabItemOnClick_exclusive (click [8; 2]%nat 0) page) as [_ H].
  destruct (H [8%nat] 2%nat eq_refl ltac:(by eexists)) as (doc' & Hrun & Hone & _).
  exists doc'. split; [exact Hrun|]. split.
  - intros Hh. apply Hone in Hh; [discriminate|decided].
  - apply Hone; [decided|done].
Defined.

(** X19 on the page: the second tab, then the third. *)
Lemma tabItemOnClick_last_wins_witness :
  exists d1 d2,
    tabItemOnClick (click [8; 1]%nat 0) page = (d1, Normal tt) /\
    tabItemOnClick (click [8; 2]%nat 0) d1 = (d2, Normal tt) /\
    tabItemOnClick (click [8; 2]%nat 0) page = (d2, Normal tt).
Proof.
  apply (tabItemOnClick_last_wins (click [8; 1]%nat 0) (click [8; 2]%nat 0) page [8%nat] 1 2);
    first [reflexivity | by eexists].
Defined.

End SampleSpec.
